(** * canvas-sandbox: the freehand drawing surface of [src/canvas.tsx]

    A shallow embedding of the React component [Canvas]: its stroke data
    model, the geometry helpers, the pointer and touch handlers, undo, and
    the [.draw] persistence codec, followed by the properties of the
    design document that are checked against it.

    Modelling conventions.
    - Coordinates.  Which branch a handler takes, which setter it calls
      and how it rebuilds lists and records does not depend on the
      arithmetic of the coordinates; this logic is given over integer
      pixels ([Z]), as pointer events deliver them.  The coordinates of
      the program are doubles, and the properties that depend on their
      arithmetic (the distance test of [isClosedPath], the subtractions
      of a drag, the numbers of a saved file) are stated over a second
      embedding of the functions concerned, [Double], in which a
      coordinate is an IEEE binary64 [float].
    - A JavaScript string is its sequence of UTF-16 code units ([list N]).
    - A handler runs against the state of the current render and its
      setter calls are applied together when it returns, so a handler is a
      function from [State] to [State].
    - The rendering surface is a collaborator: [canvasRef.current] may be
      missing, [getContext] may fail, and [isPointInPath] is whatever the
      surface answers for the closed path through the given vertices.
    - [JSON.stringify] and [JSON.parse] belong to the platform; they are
      given here as a serializer and a recursive-descent parser of the JSON
      grammar over code units.  The file content is the text itself: the
      UTF-8 encoding of the blob and its decoding by [readAsText] are not
      modelled.
    - The state is typed as the source types it ([Stroke[]]); the value a
      load stores is read back at that type. *)

From Stdlib Require Import ZArith NArith QArith List Bool Lia String Ascii.
From Stdlib Require Import DecimalN DecimalFacts.
From Stdlib Require Import Floats.PrimFloat Floats.SpecFloat Floats.FloatOps.
From Stdlib Require Import Floats.FloatAxioms.
From stdpp Require Import base list.
Import ListNotations.

Open Scope Z_scope.

(** ** Data model (lines 9-18) *)

Record Point := { x : Z; y : Z }.

(** A JavaScript string, as UTF-16 code units. *)
Definition jsstring := list N.

(** The code units of an ASCII literal. *)
Definition str (s : string) : jsstring :=
  map N_of_ascii (list_ascii_of_string s).

Record Stroke := {
  points : list Point;
  color : jsstring;
  position : Point  (* the stroke's offset position *)
}.

(** ** JSON values and the platform's [JSON.stringify] / [JSON.parse] *)

(** A number is kept as the decimal [m * 10^e] its literal denotes; the
    integers of the stroke store are the numbers with [e = 0]. *)
#[warnings="-register-all"]
Inductive json :=
| JNull
| JBool (b : bool)
| JNum (m e : Z)
| JStr (s : jsstring)
| JArr (items : list json)
| JObj (members : list (jsstring * json)).

(** A JavaScript value read out of a parsed record: [None] is [undefined]. *)
Definition jsval := option json.

Module JSON.

Open Scope N_scope.

(** *** Characters *)

Definition is_ws (c : N) : bool :=
  (c =? 32) || (c =? 9) || (c =? 10) || (c =? 13).

Definition is_digit (c : N) : bool := (48 <=? c) && (c <=? 57).

Definition is_high_surrogate (c : N) : bool := (55296 <=? c) && (c <=? 56319).
Definition is_low_surrogate (c : N) : bool := (56320 <=? c) && (c <=? 57343).

Definition hex_digit (d : N) : N := if d <? 10 then 48 + d else 87 + d.

Definition hex_value (c : N) : option N :=
  if is_digit c then Some (c - 48)
  else if (97 <=? c) && (c <=? 102) then Some (c - 87)
  else if (65 <=? c) && (c <=? 70) then Some (c - 55)
  else None.

(** *** Decimal digits *)

Fixpoint digit_chars (d : Decimal.uint) : list N :=
  match d with
  | Decimal.Nil => []
  | Decimal.D0 d' => 48 :: digit_chars d'
  | Decimal.D1 d' => 49 :: digit_chars d'
  | Decimal.D2 d' => 50 :: digit_chars d'
  | Decimal.D3 d' => 51 :: digit_chars d'
  | Decimal.D4 d' => 52 :: digit_chars d'
  | Decimal.D5 d' => 53 :: digit_chars d'
  | Decimal.D6 d' => 54 :: digit_chars d'
  | Decimal.D7 d' => 55 :: digit_chars d'
  | Decimal.D8 d' => 56 :: digit_chars d'
  | Decimal.D9 d' => 57 :: digit_chars d'
  end.

Definition push_digit (c : N) (d : Decimal.uint) : Decimal.uint :=
  match c - 48 with
  | 0 => Decimal.D0 d
  | 1 => Decimal.D1 d
  | 2 => Decimal.D2 d
  | 3 => Decimal.D3 d
  | 4 => Decimal.D4 d
  | 5 => Decimal.D5 d
  | 6 => Decimal.D6 d
  | 7 => Decimal.D7 d
  | 8 => Decimal.D8 d
  | _ => Decimal.D9 d
  end.

(** The longest prefix of decimal digits, and what follows it. *)
Fixpoint read_digits (s : list N) : Decimal.uint * list N :=
  match s with
  | c :: r =>
      if is_digit c
      then let '(d, r') := read_digits r in (push_digit c d, r')
      else (Decimal.Nil, s)
  | [] => (Decimal.Nil, [])
  end.

(** *** Serializer *)

Definition unicode_escape (c : N) : list N :=
  [92; 117; hex_digit (c / 4096); hex_digit ((c / 256) mod 16);
   hex_digit ((c / 16) mod 16); hex_digit (c mod 16)].

(** One code unit that is not part of a surrogate pair. *)
Definition quote_unit (c : N) : list N :=
  if c =? 8 then [92; 98]
  else if c =? 9 then [92; 116]
  else if c =? 10 then [92; 110]
  else if c =? 12 then [92; 102]
  else if c =? 13 then [92; 114]
  else if c =? 34 then [92; 34]
  else if c =? 92 then [92; 92]
  else if (c <? 32) || is_high_surrogate c || is_low_surrogate c
  then unicode_escape c
  else [c].

(** QuoteJSONString without the surrounding quotes: a surrogate pair is
    copied, a lone surrogate is escaped. *)
Fixpoint quote_units (s : list N) : list N :=
  match s with
  | [] => []
  | c :: r =>
      if is_high_surrogate c
      then match r with
           | d :: r' =>
               if is_low_surrogate d
               then c :: d :: quote_units r'
               else quote_unit c ++ quote_units r
           | [] => quote_unit c
           end
      else quote_unit c ++ quote_units r
  end.

Definition quote (s : jsstring) : list N := 34 :: quote_units s ++ [34].

Definition number_chars (m e : Z) : list N :=
  (if (m <? 0)%Z then [45] else [])
  ++ digit_chars (N.to_uint (Z.abs_N m))
  ++ (if (e =? 0)%Z then []
      else 101 :: (if (e <? 0)%Z then [45] else [])
                  ++ digit_chars (N.to_uint (Z.abs_N e))).

Fixpoint join (sep : N) (parts : list (list N)) : list N :=
  match parts with
  | [] => []
  | p :: rest =>
      p ++ match rest with [] => [] | _ :: _ => sep :: join sep rest end
  end.

Fixpoint stringify (j : json) : list N :=
  match j with
  | JNull => str "null"
  | JBool true => str "true"
  | JBool false => str "false"
  | JNum m e => number_chars m e
  | JStr s => quote s
  | JArr items => 91 :: join 44 (map stringify items) ++ [93]
  | JObj members =>
      123 :: join 44 (map (fun kv : jsstring * json =>
                             let '(k, v) := kv in quote k ++ 58 :: stringify v)
                          members) ++ [125]
  end.

(** *** Parser *)

Fixpoint skip_ws (s : list N) : list N :=
  match s with
  | c :: r => if is_ws c then skip_ws r else s
  | [] => []
  end.

Fixpoint strip_prefix (p s : list N) : option (list N) :=
  match p, s with
  | [], _ => Some s
  | a :: p', b :: s' => if a =? b then strip_prefix p' s' else None
  | _ :: _, [] => None
  end.

Definition unescape (c : N) : option N :=
  if c =? 34 then Some 34
  else if c =? 92 then Some 92
  else if c =? 47 then Some 47
  else if c =? 98 then Some 8
  else if c =? 102 then Some 12
  else if c =? 110 then Some 10
  else if c =? 114 then Some 13
  else if c =? 116 then Some 9
  else None.

Definition hex4 (h1 h2 h3 h4 : N) : option N :=
  match hex_value h1, hex_value h2, hex_value h3, hex_value h4 with
  | Some a, Some b, Some c, Some d => Some (((a * 16 + b) * 16 + c) * 16 + d)
  | _, _, _, _ => None
  end.

Definition prepend (c : N) (r : option (list N * list N))
  : option (list N * list N) :=
  match r with
  | Some (s, rest) => Some (c :: s, rest)
  | None => None
  end.

(** The characters of a string literal after its opening quote, up to and
    including the closing quote. *)
Fixpoint parse_chars (s : list N) : option (jsstring * list N) :=
  match s with
  | [] => None
  | c :: r =>
      if c =? 34 then Some ([], r)
      else if c =? 92 then
        match r with
        | [] => None
        | e :: r1 =>
            if e =? 117 then
              match r1 with
              | h1 :: h2 :: h3 :: h4 :: r2 =>
                  match hex4 h1 h2 h3 h4 with
                  | Some u => prepend u (parse_chars r2)
                  | None => None
                  end
              | _ => None
              end
            else
              match unescape e with
              | Some u => prepend u (parse_chars r1)
              | None => None
              end
        end
      else if c <? 32 then None
      else prepend c (parse_chars r)
  end.

Definition signed (neg : bool) (n : N) : Z :=
  if neg then (- Z.of_N n)%Z else Z.of_N n.

(** The integer part of a number: a single [0], or digits not starting
    with [0]. *)
Definition parse_int (s : list N) : option (Decimal.uint * list N) :=
  match s with
  | c :: r =>
      if c =? 48 then Some (Decimal.D0 Decimal.Nil, r)
      else if is_digit c then Some (read_digits s)
      else None
  | [] => None
  end.

Definition parse_frac (s : list N) : option (Decimal.uint * list N) :=
  match s with
  | c :: r =>
      if c =? 46 then
        match read_digits r with
        | (Decimal.Nil, _) => None
        | (f, r') => Some (f, r')
        end
      else Some (Decimal.Nil, s)
  | [] => Some (Decimal.Nil, [])
  end.

Definition parse_exp_digits (neg : bool) (s : list N) : option (Z * list N) :=
  match read_digits s with
  | (Decimal.Nil, _) => None
  | (d, r) => Some (signed neg (N.of_uint d), r)
  end.

Definition parse_exp (s : list N) : option (Z * list N) :=
  match s with
  | c :: r =>
      if (c =? 101) || (c =? 69) then
        match r with
        | sg :: r' =>
            if sg =? 45 then parse_exp_digits true r'
            else if sg =? 43 then parse_exp_digits false r'
            else parse_exp_digits false r
        | [] => None
        end
      else Some (0%Z, s)
  | [] => Some (0%Z, [])
  end.

Definition parse_number (s : list N) : option (json * list N) :=
  let '(neg, s1) :=
    match s with
    | c :: r => if c =? 45 then (true, r) else (false, s)
    | [] => (false, s)
    end in
  match parse_int s1 with
  | None => None
  | Some (i, s2) =>
      match parse_frac s2 with
      | None => None
      | Some (f, s3) =>
          match parse_exp s3 with
          | None => None
          | Some (ex, s4) =>
              Some (JNum (signed neg (N.of_uint (Decimal.app i f)))
                         (ex - Z.of_nat (Decimal.nb_digits f)), s4)
          end
      end
  end.

Definition keyword (word : string) (v : json) (s : list N)
  : option (json * list N) :=
  match strip_prefix (str word) s with
  | Some r => Some (v, r)
  | None => None
  end.

Fixpoint parse_value (fuel : nat) (s : list N) : option (json * list N) :=
  match fuel with
  | O => None
  | S fuel' =>
      match skip_ws s with
      | [] => None
      | c :: r =>
          if c =? 123 then
            match skip_ws r with
            | c' :: r' =>
                if c' =? 125 then Some (JObj [], r')
                else match parse_members fuel' r with
                     | Some (ms, r'') => Some (JObj ms, r'')
                     | None => None
                     end
            | [] => None
            end
          else if c =? 91 then
            match skip_ws r with
            | c' :: r' =>
                if c' =? 93 then Some (JArr [], r')
                else match parse_elements fuel' r with
                     | Some (vs, r'') => Some (JArr vs, r'')
                     | None => None
                     end
            | [] => None
            end
          else if c =? 34 then
            match parse_chars r with
            | Some (k, r') => Some (JStr k, r')
            | None => None
            end
          else if c =? 110 then keyword "null" JNull (c :: r)
          else if c =? 116 then keyword "true" (JBool true) (c :: r)
          else if c =? 102 then keyword "false" (JBool false) (c :: r)
          else parse_number (c :: r)
      end
  end

with parse_elements (fuel : nat) (s : list N) : option (list json * list N) :=
  match fuel with
  | O => None
  | S fuel' =>
      match parse_value fuel' s with
      | None => None
      | Some (v, r) =>
          match skip_ws r with
          | c :: r' =>
              if c =? 44 then
                match parse_elements fuel' r' with
                | Some (vs, r'') => Some (v :: vs, r'')
                | None => None
                end
              else if c =? 93 then Some ([v], r')
              else None
          | [] => None
          end
      end
  end

with parse_members (fuel : nat) (s : list N)
  : option (list (jsstring * json) * list N) :=
  match fuel with
  | O => None
  | S fuel' =>
      match skip_ws s with
      | c :: r =>
          if c =? 34 then
            match parse_chars r with
            | None => None
            | Some (k, r1) =>
                match skip_ws r1 with
                | c1 :: r2 =>
                    if c1 =? 58 then
                      match parse_value fuel' r2 with
                      | None => None
                      | Some (v, r3) =>
                          match skip_ws r3 with
                          | c3 :: r4 =>
                              if c3 =? 44 then
                                match parse_members fuel' r4 with
                                | Some (ms, r5) => Some ((k, v) :: ms, r5)
                                | None => None
                                end
                              else if c3 =? 125 then Some ([(k, v)], r4)
                              else None
                          | [] => None
                          end
                      end
                    else None
                | [] => None
                end
            end
          else None
      | [] => None
      end
  end.

(** One value, surrounded by optional white space. *)
Definition parse_with (fuel : nat) (text : list N) : option json :=
  match parse_value fuel text with
  | Some (v, r) => match skip_ws r with [] => Some v | _ :: _ => None end
  | None => None
  end.

(** [JSON.parse]; [None] is the [SyntaxError].  A value needs one unit of
    fuel more than twice the length of its text at most, so the fuel
    never runs out and more of it changes nothing. *)
Definition parse (text : list N) : option json :=
  parse_with (2 * length text + 1) text.

(** Fuel that [parse_value] needs to read back a serialized value. *)
Fixpoint need (j : json) : nat :=
  match j with
  | JArr items => S (list_sum (map (fun v => S (need v)) items))
  | JObj members =>
      S (list_sum (map (fun kv : jsstring * json => S (need (snd kv))) members))
  | _ => 1
  end.

(** What may follow a value inside a serialized record. *)
Definition delimited (rest : list N) : Prop :=
  match rest with
  | [] => True
  | c :: _ => c = 44 \/ c = 93 \/ c = 125
  end.

End JSON.


(** *** The stroke store as a JSON value *)

Definition point_to_json (p : Point) : json :=
  JObj [(str "x", JNum (x p) 0); (str "y", JNum (y p) 0)].

Definition stroke_to_json (s : Stroke) : json :=
  JObj [(str "points", JArr (map point_to_json (points s)));
        (str "color", JStr (color s));
        (str "position", point_to_json (position s))].

Definition strokes_to_json (l : list Stroke) : json :=
  JArr (map stroke_to_json l).

Fixpoint jsstring_eqb (a b : jsstring) : bool :=
  match a, b with
  | [], [] => true
  | c :: a', d :: b' => N.eqb c d && jsstring_eqb a' b'
  | _, _ => false
  end.

(** The integer a number denotes, when it denotes one. *)
Definition number_as_Z (m e : Z) : option Z :=
  if 0 <=? e then Some (m * 10 ^ e)
  else if m mod 10 ^ (- e) =? 0 then Some (m / 10 ^ (- e))
  else None.

(** Reading a parsed value back at the static types [Point], [Stroke] and
    [Stroke[]]: it succeeds on the records the serializer writes for
    them (keys in declaration order, integer coordinates). *)
Definition as_point (j : json) : option Point :=
  match j with
  | JObj [(kx, JNum mx ex); (ky, JNum my ey)] =>
      if jsstring_eqb kx (str "x") && jsstring_eqb ky (str "y")
      then match number_as_Z mx ex, number_as_Z my ey with
           | Some vx, Some vy => Some {| x := vx; y := vy |}
           | _, _ => None
           end
      else None
  | _ => None
  end.

Fixpoint as_list {A : Type} (f : json -> option A) (items : list json)
  : option (list A) :=
  match items with
  | [] => Some []
  | j :: rest =>
      match f j, as_list f rest with
      | Some a, Some l => Some (a :: l)
      | _, _ => None
      end
  end.

Definition as_stroke (j : json) : option Stroke :=
  match j with
  | JObj [(kp, JArr ps); (kc, JStr c); (ko, o)] =>
      if jsstring_eqb kp (str "points") && jsstring_eqb kc (str "color")
         && jsstring_eqb ko (str "position")
      then match as_list as_point ps, as_point o with
           | Some pts, Some pos =>
               Some {| points := pts; color := c; position := pos |}
           | _, _ => None
           end
      else None
  | _ => None
  end.

Definition as_strokes (j : json) : option (list Stroke) :=
  match j with
  | JArr items => as_list as_stroke items
  | _ => None
  end.

(** Own property lookup on a parsed object; a repeated key keeps its last
    value, as [JSON.parse] builds the object. *)
Fixpoint lookup_member (key : jsstring) (members : list (jsstring * json))
  : jsval :=
  match members with
  | [] => None
  | (k, v) :: rest =>
      match lookup_member key rest with
      | Some v' => Some v'
      | None => if jsstring_eqb k key then Some v else None
      end
  end.

(** [value.key] for the two keys the loader destructures: only an object
    can have them. *)
Definition property (key : jsstring) (value : json) : jsval :=
  match value with
  | JObj members => lookup_member key members
  | _ => None
  end.

(** ** The rendering surface (collaborator) *)

Record Context2D := {
  (* beginPath; moveTo/lineTo through the vertices; closePath;
     isPointInPath(x, y) *)
  isPointInPath : list Point -> Z -> Z -> bool
}.

Record CanvasElement := {
  getContext : option Context2D;
  rect_left : Z;          (* getBoundingClientRect().left *)
  rect_top : Z;           (* getBoundingClientRect().top *)
  toDataURL : jsstring
}.

(** [canvasRef.current]. *)
Definition CanvasRef := option CanvasElement.

(** A sample surface for the examples: even-odd crossing test. *)
Definition crosses (px py : Z) (a b : Point) : bool :=
  if xorb (py <? y a) (py <? y b) then
    if y a <? y b
    then (px - x a) * (y b - y a) <? (x b - x a) * (py - y a)
    else (x b - x a) * (py - y a) <? (px - x a) * (y b - y a)
  else false.

Fixpoint crossings (px py : Z) (first prev : Point) (rest : list Point) : bool :=
  match rest with
  | [] => crosses px py prev first
  | p :: rest' => xorb (crosses px py prev p) (crossings px py first p rest')
  end.

Definition evenodd (path : list Point) (px py : Z) : bool :=
  match path with
  | [] => false
  | p :: rest => crossings px py p p rest
  end.

Definition sample_canvas : CanvasElement :=
  {| getContext := Some {| isPointInPath := evenodd |};
     rect_left := 8; rect_top := 8; toDataURL := str "data:image/png;base64,AA==" |}.

(** ** Component state (lines 21-30) *)

Record State := {
  isDrawing : bool;
  strokes : list Stroke;
  currentStroke : list Point;
  fillColor : jsstring;
  isDragging : bool;
  draggedStrokeIndex : option nat;
  dragOffset : option Point
}.

Definition initial : State :=
  {| isDrawing := false; strokes := []; currentStroke := [];
     fillColor := str "#cdecde"; isDragging := false;
     draggedStrokeIndex := None; dragOffset := None |}.

Definition setIsDrawing (v : bool) (s : State) : State :=
  {| isDrawing := v; strokes := strokes s; currentStroke := currentStroke s;
     fillColor := fillColor s; isDragging := isDragging s;
     draggedStrokeIndex := draggedStrokeIndex s; dragOffset := dragOffset s |}.

Definition setStrokes (update : list Stroke -> list Stroke) (s : State) : State :=
  {| isDrawing := isDrawing s; strokes := update (strokes s);
     currentStroke := currentStroke s; fillColor := fillColor s;
     isDragging := isDragging s; draggedStrokeIndex := draggedStrokeIndex s;
     dragOffset := dragOffset s |}.

Definition setCurrentStroke (update : list Point -> list Point) (s : State)
  : State :=
  {| isDrawing := isDrawing s; strokes := strokes s;
     currentStroke := update (currentStroke s); fillColor := fillColor s;
     isDragging := isDragging s; draggedStrokeIndex := draggedStrokeIndex s;
     dragOffset := dragOffset s |}.

Definition setFillColor (v : jsstring) (s : State) : State :=
  {| isDrawing := isDrawing s; strokes := strokes s;
     currentStroke := currentStroke s; fillColor := v;
     isDragging := isDragging s; draggedStrokeIndex := draggedStrokeIndex s;
     dragOffset := dragOffset s |}.

Definition setIsDragging (v : bool) (s : State) : State :=
  {| isDrawing := isDrawing s; strokes := strokes s;
     currentStroke := currentStroke s; fillColor := fillColor s;
     isDragging := v; draggedStrokeIndex := draggedStrokeIndex s;
     dragOffset := dragOffset s |}.

Definition setDraggedStrokeIndex (v : option nat) (s : State) : State :=
  {| isDrawing := isDrawing s; strokes := strokes s;
     currentStroke := currentStroke s; fillColor := fillColor s;
     isDragging := isDragging s; draggedStrokeIndex := v;
     dragOffset := dragOffset s |}.

Definition setDragOffset (v : option Point) (s : State) : State :=
  {| isDrawing := isDrawing s; strokes := strokes s;
     currentStroke := currentStroke s; fillColor := fillColor s;
     isDragging := isDragging s; draggedStrokeIndex := draggedStrokeIndex s;
     dragOffset := v |}.

(** ** Geometry (lines 56-100) *)

(** [Math.hypot(dx, dy) < bound] on integer pixels, for a bound that is
    not negative: the distance is below the bound exactly when its square
    is below the bound's square.  On doubles the test is
    [Double.isClosedPath]. *)
Definition hypot_below (dx dy bound : Z) : bool :=
  dx * dx + dy * dy <? bound * bound.

Definition isClosedPath (stroke : list Point) : bool :=
  if (length stroke <? 2)%nat then false
  else
    match stroke !! 0%nat, stroke !! (length stroke - 1)%nat with
    | Some start, Some end_ =>
        hypot_below (x end_ - x start) (y end_ - y start) 10
    | _, _ => false   (* both reads are in range once the length is 2 *)
    end.

Definition isInsideStroke (canvasRef : CanvasRef) (path : list Point)
  (px py : Z) : bool :=
  match canvasRef ≫= getContext with
  | None => false
  | Some ctx => isPointInPath ctx path px py
  end.

(** A stroke's points shifted by its position. *)
Definition adjustedPoints (stroke : Stroke) : list Point :=
  map (fun p => {| x := x p + x (position stroke);
                   y := y p + y (position stroke) |}) (points stroke).

(** The loop of [findClickedStrokeIndex] with [i] strokes left to test,
    that is with loop variable [i - 1]. *)
Fixpoint scanStrokes (canvasRef : CanvasRef) (strokes : list Stroke)
  (px py : Z) (i : nat) : option nat :=
  match i with
  | O => None
  | S i' =>
      match strokes !! i' with
      | Some stroke =>
          if isInsideStroke canvasRef (adjustedPoints stroke) px py
          then Some i'
          else scanStrokes canvasRef strokes px py i'
      | None => None   (* the index is below the length *)
      end
  end.

Definition findClickedStrokeIndex (canvasRef : CanvasRef)
  (strokes : list Stroke) (px py : Z) : option nat :=
  scanStrokes canvasRef strokes px py (length strokes).

(** ** Pointer handlers (lines 102-162) *)

(** What the live-feedback step of a move handler did on the surface. *)
Inductive Ink :=
| NoInk
| Segment (from to : Point)
| MissingPoint.   (* [lastPoint] was undefined: reading [.x] throws *)

Definition origin : Point := {| x := 0; y := 0 |}.

(** [{ ...stroke, position: newPosition }] *)
Definition withPosition (newPosition : Point) (stroke : Stroke) : Stroke :=
  {| points := points stroke; color := color stroke; position := newPosition |}.

(** The updater both move handlers pass to [setStrokes]:
    [prev.map((stroke, index) => index === dragged ? {...} : stroke)]. *)
Definition repositionStroke (dragged : nat) (newPosition : Point)
  (prev : list Stroke) : list Stroke :=
  imap (fun index stroke =>
          if (index =? dragged)%nat then withPosition newPosition stroke
          else stroke) prev.

Definition handleMouseDown (canvasRef : CanvasRef) (s : State)
  (offsetX offsetY : Z) : State :=
  let clickedStrokeIndex :=
    findClickedStrokeIndex canvasRef (strokes s) offsetX offsetY in
  match clickedStrokeIndex with
  | Some clicked =>
      match strokes s !! clicked with
      | Some stroke =>
          setDragOffset
            (Some {| x := offsetX - x (position stroke);
                     y := offsetY - y (position stroke) |})
            (setDraggedStrokeIndex (Some clicked) (setIsDragging true s))
      | None => s   (* a returned index is always in range *)
      end
  | None =>
      setIsDrawing true
        (setCurrentStroke (fun _ => [{| x := offsetX; y := offsetY |}]) s)
  end.

Definition handleMouseMove (canvasRef : CanvasRef) (s : State)
  (offsetX offsetY : Z) : State * Ink :=
  match isDragging s, draggedStrokeIndex s, dragOffset s with
  | true, Some dragged, Some offset =>
      let newPosition :=
        {| x := offsetX - x offset; y := offsetY - y offset |} in
      (setStrokes
         (fun prev =>
            imap (fun index stroke =>
                    if (index =? dragged)%nat
                    then withPosition newPosition stroke
                    else stroke) prev) s,
       NoInk)
  | _, _, _ =>
      match isDrawing s, canvasRef with
      | true, Some canvas =>
          (setCurrentStroke
             (fun prev => prev ++ [{| x := offsetX; y := offsetY |}]) s,
           match getContext canvas with
           | Some _ =>
               match currentStroke s !! (length (currentStroke s) - 1)%nat with
               | Some lastPoint =>
                   Segment lastPoint {| x := offsetX; y := offsetY |}
               | None => MissingPoint
               end
           | None => NoInk
           end)
      | _, _ => (s, NoInk)
      end
  end.

Definition handleMouseUp (s : State) : State :=
  if isDragging s then
    setDragOffset None (setDraggedStrokeIndex None (setIsDragging false s))
  else if isDrawing s && (0 <? length (currentStroke s))%nat then
    setIsDrawing false
      (setCurrentStroke (fun _ => [])
         (setStrokes
            (fun prev =>
               prev ++ [{| points := currentStroke s; color := fillColor s;
                           position := origin |}]) s))
  else s.

(** ** Touch handlers (lines 165-240) *)

Definition handleTouchStart (canvasRef : CanvasRef) (s : State)
  (clientX clientY : Z) : State :=
  match canvasRef with
  | None => s
  | Some canvas =>
      let lx := clientX - rect_left canvas in
      let ly := clientY - rect_top canvas in
      let clickedStrokeIndex :=
        findClickedStrokeIndex canvasRef (strokes s) lx ly in
      match clickedStrokeIndex with
      | Some clicked =>
          match strokes s !! clicked with
          | Some stroke =>
              setDragOffset
                (Some {| x := lx - x (position stroke);
                         y := ly - y (position stroke) |})
                (setDraggedStrokeIndex (Some clicked) (setIsDragging true s))
          | None => s
          end
      | None =>
          setIsDrawing true
            (setCurrentStroke (fun _ => [{| x := lx; y := ly |}]) s)
      end
  end.

Definition handleTouchMove (canvasRef : CanvasRef) (s : State)
  (clientX clientY : Z) : State * Ink :=
  match isDragging s, draggedStrokeIndex s, dragOffset s with
  | true, Some dragged, Some offset =>
      match canvasRef with
      | None => (s, NoInk)
      | Some canvas =>
          let lx := clientX - rect_left canvas in
          let ly := clientY - rect_top canvas in
          let newPosition := {| x := lx - x offset; y := ly - y offset |} in
          (setStrokes
             (fun prev =>
                imap (fun index stroke =>
                        if (index =? dragged)%nat
                        then withPosition newPosition stroke
                        else stroke) prev) s,
           NoInk)
      end
  | _, _, _ =>
      match isDrawing s, canvasRef with
      | true, Some canvas =>
          let lx := clientX - rect_left canvas in
          let ly := clientY - rect_top canvas in
          (setCurrentStroke (fun prev => prev ++ [{| x := lx; y := ly |}]) s,
           match getContext canvas with
           | Some _ =>
               match currentStroke s !! (length (currentStroke s) - 1)%nat with
               | Some lastPoint => Segment lastPoint {| x := lx; y := ly |}
               | None => MissingPoint
               end
           | None => NoInk
           end)
      | _, _ => (s, NoInk)
      end
  end.

Definition handleTouchEnd (s : State) : State :=
  if isDragging s then
    setDragOffset None (setDraggedStrokeIndex None (setIsDragging false s))
  else if isDrawing s && (0 <? length (currentStroke s))%nat then
    setIsDrawing false
      (setCurrentStroke (fun _ => [])
         (setStrokes
            (fun prev =>
               prev ++ [{| points := currentStroke s; color := fillColor s;
                           position := origin |}]) s))
  else s.

(** ** Undo (line 306) *)

(** [Array.prototype.slice(start, end)]. *)
Definition slice {A : Type} (start end_ : Z) (l : list A) : list A :=
  let len := Z.of_nat (length l) in
  let k := if start <? 0 then Z.max (len + start) 0 else Z.min start len in
  let final := if end_ <? 0 then Z.max (len + end_) 0 else Z.min end_ len in
  take (Z.to_nat (final - k)) (drop (Z.to_nat k) l).

Definition undo (s : State) : State := setStrokes (slice 0 (-1)) s.

(** ** Persistence (lines 246-288) *)

(** The content of the file offered as [drawing.draw]; [None] when the
    canvas is missing and nothing is offered. *)
Definition saveAsCustomFormat (canvasRef : CanvasRef) (s : State)
  : option (list N) :=
  match canvasRef with
  | None => None
  | Some canvas =>
      let backgroundImage := toDataURL canvas in
      Some (JSON.stringify
              (JObj [(str "backgroundImage", JStr backgroundImage);
                     (str "strokes", strokes_to_json (strokes s))]))
  end.

Inductive JsError := SyntaxError | TypeError.

Inductive Completion :=
| Returned
| Thrown (error : JsError).   (* escapes the reader callback uncaught *)

(** What the [reader.onload] callback did: how it completed, the argument
    of [setStrokes] if it was called, and the [src] of the background
    image if one was created. *)
Record LoadEffects := {
  completion : Completion;
  strokesSet : option jsval;
  imageSrc : option jsval
}.

(** The callback of [loadCustomFormat], on the text read from the file. *)
Definition loadCustomFormat (canvasRef : CanvasRef) (result : list N)
  : LoadEffects :=
  match result with
  | [] =>   (* line 265: the empty string is falsy *)
      {| completion := Returned; strokesSet := None; imageSrc := None |}
  | _ :: _ =>
      match JSON.parse result with
      | None =>
          {| completion := Thrown SyntaxError; strokesSet := None;
             imageSrc := None |}
      | Some JNull =>   (* destructuring null *)
          {| completion := Thrown TypeError; strokesSet := None;
             imageSrc := None |}
      | Some record =>
          let backgroundImage := property (str "backgroundImage") record in
          let loadedStrokes := property (str "strokes") record in
          {| completion := Returned;
             strokesSet := Some loadedStrokes;
             imageSrc :=
               match canvasRef ≫= getContext with
               | None => None
               | Some _ => Some backgroundImage
               end |}
      end
  end.


(** ** The component as a transition system *)

Inductive PointerEvent :=
| MouseDown (offsetX offsetY : Z)
| MouseMove (offsetX offsetY : Z)
| MouseUp
| MouseLeave
| TouchStart (clientX clientY : Z)
| TouchMove (clientX clientY : Z)
| TouchEnd.

Definition dispatch (canvasRef : CanvasRef) (e : PointerEvent) (s : State)
  : State * Ink :=
  match e with
  | MouseDown ox oy => (handleMouseDown canvasRef s ox oy, NoInk)
  | MouseMove ox oy => handleMouseMove canvasRef s ox oy
  | MouseUp => (handleMouseUp s, NoInk)
  | MouseLeave => (handleMouseUp s, NoInk)
  | TouchStart cx cy => (handleTouchStart canvasRef s cx cy, NoInk)
  | TouchMove cx cy => handleTouchMove canvasRef s cx cy
  | TouchEnd => (handleTouchEnd s, NoInk)
  end.

(** The controls below the canvas (lines 305-326). *)
Inductive Control :=
| UndoClick
| ColorChange (value : jsstring)
| FileChosen (content : list N).

(** A control's effect on the state.  The state is typed [Stroke[]]; a
    load that stores anything else leaves the typed model ([None]). *)
Definition control (canvasRef : CanvasRef) (c : Control) (s : State)
  : option State :=
  match c with
  | UndoClick => Some (undo s)
  | ColorChange value => Some (setFillColor value s)
  | FileChosen content =>
      match strokesSet (loadCustomFormat canvasRef content) with
      | None => Some s
      | Some loadedStrokes =>
          match loadedStrokes ≫= as_strokes with
          | Some l => Some (setStrokes (fun _ => l) s)
          | None => None
          end
      end
  end.

Inductive reachable : State -> Prop :=
| reachable_initial : reachable initial
| reachable_pointer canvasRef e s :
    reachable s -> reachable (fst (dispatch canvasRef e s))
| reachable_control canvasRef c s s' :
    reachable s -> control canvasRef c s = Some s' -> reachable s'.

(** The states and feedback a sequence of pointer events goes through. *)
Fixpoint trace (canvasRef : CanvasRef) (events : list PointerEvent) (s : State)
  : list (State * Ink) :=
  match events with
  | [] => []
  | e :: rest =>
      let step := dispatch canvasRef e s in
      step :: trace canvasRef rest (fst step)
  end.

Definition run (canvasRef : CanvasRef) (events : list PointerEvent) (s : State)
  : State :=
  fold_left (fun st e => fst (dispatch canvasRef e st)) events s.

(** A touch event whose derived local coordinates are those of a mouse
    event. *)
Inductive corresponds (canvas : CanvasElement)
  : PointerEvent -> PointerEvent -> Prop :=
| corresponds_down ox oy cx cy :
    cx - rect_left canvas = ox -> cy - rect_top canvas = oy ->
    corresponds canvas (MouseDown ox oy) (TouchStart cx cy)
| corresponds_move ox oy cx cy :
    cx - rect_left canvas = ox -> cy - rect_top canvas = oy ->
    corresponds canvas (MouseMove ox oy) (TouchMove cx cy)
| corresponds_up : corresponds canvas MouseUp TouchEnd
| corresponds_leave : corresponds canvas MouseLeave TouchEnd.

(** The moves of one drag session. *)
Definition dragMoves (canvasRef : CanvasRef) (moves : list (Z * Z)) (s : State)
  : State :=
  fold_left (fun st q => fst (handleMouseMove canvasRef st (fst q) (snd q)))
            moves s.

(** ** The stroke list as objects with identity

    The drag invariant speaks of reference identity, so the updater of the
    move handlers is also given over a store of objects: arrays and stroke
    objects live at addresses, [map] and the spread each allocate, and
    nothing is written in place. *)

Module Heap.

Abbreviation loc := nat (only parsing).

Inductive object :=
| PointsArray (elems : list Point)
| StrokeObject (points_ref : loc) (color : jsstring) (position : Point)
| StrokesArray (elems : list loc).

(** The object at address [l] is [h !! l]; a new object gets the next
    address. *)
Abbreviation heap := (list object) (only parsing).

Definition alloc (o : object) (h : heap) : heap * loc :=
  (h ++ [o], length h).

(** The callback of [map] at one element: the spread allocates a new
    stroke object that shares the [points] reference. *)
Definition repositionElement (dragged : nat) (newPosition : Point)
  (index : nat) (ref : loc) (h : heap) : heap * loc :=
  if (index =? dragged)%nat then
    match h !! ref with
    | Some (StrokeObject pts c _) => alloc (StrokeObject pts c newPosition) h
    | _ => (h, ref)   (* not a stroke object: outside the typed store *)
    end
  else (h, ref).

Fixpoint mapReposition (dragged : nat) (newPosition : Point) (index : nat)
  (elems : list loc) (h : heap) : heap * list loc :=
  match elems with
  | [] => (h, [])
  | ref :: rest =>
      let '(h1, ref') := repositionElement dragged newPosition index ref h in
      let '(h2, rest') := mapReposition dragged newPosition (S index) rest h1 in
      (h2, ref' :: rest')
  end.

(** [prev.map(...)] on the array at address [prev]: the result is a new
    array. *)
Definition repositionStored (dragged : nat) (newPosition : Point)
  (prev : loc) (h : heap) : heap * loc :=
  match h !! prev with
  | Some (StrokesArray elems) =>
      let '(h1, elems') := mapReposition dragged newPosition 0 elems h in
      alloc (StrokesArray elems') h1
  | _ => (h, prev)
  end.

(** The value an address denotes. *)
Definition read_stroke (h : heap) (ref : loc) : option Stroke :=
  match h !! ref with
  | Some (StrokeObject pts c pos) =>
      match h !! pts with
      | Some (PointsArray ps) =>
          Some {| points := ps; color := c; position := pos |}
      | _ => None
      end
  | _ => None
  end.

Definition read_strokes (h : heap) (ref : loc) : option (list Stroke) :=
  match h !! ref with
  | Some (StrokesArray elems) => mapM (read_stroke h) elems
  | _ => None
  end.

End Heap.

(** ** Vocabulary of the properties *)

(** [path] is the point sequence [pts] shifted by [offset]: as many
    vertices, the k-th one being the k-th point moved by [offset]. *)
Definition shifted (offset : Point) (pts path : list Point) : Prop :=
  length path = length pts /\
  forall k p, pts !! k = Some p ->
              path !! k = Some {| x := x p + x offset; y := y p + y offset |}.

(** The surface is there and answers that the pointer lies inside the
    closed path through the vertices [path]. *)
Definition contains (canvasRef : CanvasRef) (path : list Point) (px py : Z)
  : Prop :=
  exists canvas ctx, canvasRef = Some canvas /\ getContext canvas = Some ctx /\
                     isPointInPath ctx path px py = true.

(** Stroke [i] of the list contains the pointer: the surface answers true
    for its points shifted by its position. *)
Definition hits (canvasRef : CanvasRef) (l : list Stroke) (px py : Z)
  (i : nat) : Prop :=
  exists stroke, l !! i = Some stroke /\
    exists path, shifted (position stroke) (points stroke) path /\
                 contains canvasRef path px py.

(** The stroke a release commits from the draw buffer. *)
Definition committed (s : State) : Stroke :=
  {| points := currentStroke s; color := fillColor s; position := origin |}.

(** The draw buffer holds a point whenever a draw is active. *)
Definition buffer_seeded (s : State) : Prop :=
  isDrawing s = true -> currentStroke s <> [].

(** A drag of stroke [i] is in progress with offset [o]. *)
Definition dragging (i : nat) (o : Point) (s : State) : Prop :=
  isDragging s = true /\ draggedStrokeIndex s = Some i /\ dragOffset s = Some o.

(** ** Vocabulary of the codec properties *)

(** The next character, if any, is not a decimal digit. *)
Definition no_digit_ahead (rest : list N) : Prop :=
  match rest with
  | [] => True
  | c :: _ => JSON.is_digit c = false
  end.

(** A decimal numeral without superfluous leading zero. *)
Definition canonical (d : Decimal.uint) : Prop :=
  match d with
  | Decimal.Nil => False
  | Decimal.D0 d' => d' = Decimal.Nil
  | _ => True
  end.

(** The characters a serialized value can start with. *)
Definition value_start (c : N) : bool :=
  (N.eqb c 110 || N.eqb c 116 || N.eqb c 102 || N.eqb c 45 || JSON.is_digit c
   || N.eqb c 34 || N.eqb c 91 || N.eqb c 123)%bool.

(** One member of a serialized object. *)
Definition member_text (kv : jsstring * json) : list N :=
  let '(k, v) := kv in JSON.quote k ++ 58%N :: JSON.stringify v.

(** With fuel [n], the parser reads back serialized values, non-empty
    element lists up to the closing bracket, and non-empty member lists up
    to the closing brace. *)
Definition reads_values (n : nat) : Prop :=
  forall j rest, (JSON.need j <= n)%nat -> JSON.delimited rest ->
    JSON.parse_value n (JSON.stringify j ++ rest) = Some (j, rest).

Definition reads_elements (n : nat) : Prop :=
  forall items rest, items <> [] ->
    (list_sum (map (fun v => S (JSON.need v)) items) <= n)%nat ->
    JSON.parse_elements n
      (JSON.join 44%N (map JSON.stringify items) ++ 93%N :: rest)
    = Some (items, rest).

Definition reads_members (n : nat) : Prop :=
  forall members rest, members <> [] ->
    (list_sum (map (fun kv : jsstring * json => S (JSON.need (snd kv))) members)
     <= n)%nat ->
    JSON.parse_members n
      (JSON.join 44%N (map member_text members) ++ 125%N :: rest)
    = Some (members, rest).

(** JSON text written with ['] in place of the double quote. *)
Definition json_text (s : string) : list N :=
  map (fun c => if N.eqb c 39 then 34%N else c) (str s).



(** With fuel [n], a successful parse leaves strictly less input. *)
Definition consumes (n : nat) : Prop :=
  (forall s v r, JSON.parse_value n s = Some (v, r) ->
                 (length r < length s)%nat)
  /\ (forall s vs r, JSON.parse_elements n s = Some (vs, r) ->
                     (length r < length s)%nat)
  /\ (forall s ms r, JSON.parse_members n s = Some (ms, r) ->
                     (length r < length s)%nat).

(** Fuel [n] is enough for every text it covers: more fuel gives the
    same answer. *)
Definition fuel_settled (n : nat) : Prop :=
  (forall s m, (2 * length s + 1 <= n)%nat -> (n <= m)%nat ->
               JSON.parse_value m s = JSON.parse_value n s)
  /\ (forall s m, (2 * length s + 2 <= n)%nat -> (n <= m)%nat ->
                  JSON.parse_elements m s = JSON.parse_elements n s)
  /\ (forall s m, (2 * length s + 2 <= n)%nat -> (n <= m)%nat ->
                  JSON.parse_members m s = JSON.parse_members n s).

(** ** Rendering (lines 32-77, 91-100, 279-284)

    What a function does to the surface is the sequence of calls it makes
    on the 2D context. *)

Inductive Command :=
| ClearRect (left top width height : Z)
| SetLineWidth (width : Z)
| SetLineCap (cap : jsstring)
| SetStrokeStyle (style : jsstring)
| SetFillStyle (style : jsstring)
| BeginPath
| MoveTo (px py : Z)
| LineTo (px py : Z)
| ClosePath
| StrokePath            (* context.stroke() *)
| Fill
| DrawImage (src : jsval) (left top width height : Z).

(** The canvas is created 500 by 500 (lines 294-295). *)
Definition canvasWidth : Z := 500.
Definition canvasHeight : Z := 500.

Definition fillStroke (stroke : list Point) (color : jsstring)
  (position : Point) : list Command :=
  SetFillStyle color
  :: BeginPath
  :: imap (fun i point =>
             let px := x point + x position in
             let py := y point + y position in
             if (i =? 0)%nat then MoveTo px py else LineTo px py) stroke
  ++ [ClosePath; Fill].

Definition redrawCanvas (canvasRef : CanvasRef) (strokes : list Stroke)
  : list Command :=
  match canvasRef with
  | None => []
  | Some canvas =>
      match getContext canvas with
      | None => []
      | Some _ =>
          ClearRect 0 0 canvasWidth canvasHeight
          :: SetLineWidth 2
          :: SetLineCap (str "round")
          :: flat_map
               (fun stroke =>
                  SetStrokeStyle (str "black")
                  :: BeginPath
                  :: imap (fun i point =>
                             let px := x point + x (position stroke) in
                             let py := y point + y (position stroke) in
                             if (i =? 0)%nat then MoveTo px py
                             else LineTo px py) (points stroke)
                  ++ StrokePath
                  :: (if isClosedPath (points stroke)
                      then fillStroke (points stroke) (color stroke)
                                      (position stroke)
                      else []))
               strokes
      end
  end.

(** The path [isInsideStroke] builds on the context before it asks
    [isPointInPath] (lines 94-98). *)
Definition hitTestPath (points : list Point) : list Command :=
  BeginPath
  :: imap (fun i point =>
             if (i =? 0)%nat then MoveTo (x point) (y point)
             else LineTo (x point) (y point)) points
  ++ [ClosePath].

(** The [img.onload] callback of the loader (lines 279-284).  It runs
    only when [loadCustomFormat] found the canvas and its context; the
    [redrawCanvas] it calls is the one of the render that started the
    load, with that render's stroke list, and looks the canvas up again. *)
Definition imageOnload (canvasRef : CanvasRef) (renderStrokes : list Stroke)
  (img : jsval) : list Command :=
  ClearRect 0 0 canvasWidth canvasHeight
  :: DrawImage img 0 0 canvasWidth canvasHeight
  :: redrawCanvas canvasRef renderStrokes.

(** ** Vocabulary of the further properties *)

(** What redraw issues for one stroke: the body of its [forEach]. *)
Definition paintStroke (stroke : Stroke) : list Command :=
  SetStrokeStyle (str "black")
  :: BeginPath
  :: imap (fun i point =>
             let px := x point + x (position stroke) in
             let py := y point + y (position stroke) in
             if (i =? 0)%nat then MoveTo px py else LineTo px py)
          (points stroke)
  ++ StrokePath
  :: (if isClosedPath (points stroke)
      then fillStroke (points stroke) (color stroke) (position stroke)
      else []).

Definition is_fill (c : Command) : bool :=
  match c with Fill => true | _ => false end.

Definition is_outline (c : Command) : bool :=
  match c with StrokePath => true | _ => false end.

Definition is_clear (c : Command) : bool :=
  match c with ClearRect _ _ _ _ => true | _ => false end.

Definition is_image (c : Command) : bool :=
  match c with DrawImage _ _ _ _ _ => true | _ => false end.

(** The drag state is set together and cleared together. *)
Definition drag_consistent (s : State) : Prop :=
  (isDragging s = true ->
   exists i o, draggedStrokeIndex s = Some i /\ dragOffset s = Some o)
  /\ (isDragging s = false ->
      draggedStrokeIndex s = None /\ dragOffset s = None).

(** The segments joining consecutive points of a polyline. *)
Fixpoint segments (from : Point) (rest : list Point) : list Ink :=
  match rest with
  | [] => []
  | p :: rest' => Segment from p :: segments p rest'
  end.

Definition mouseMoves (qs : list Point) : list PointerEvent :=
  map (fun q => MouseMove (x q) (y q)) qs.

(** The record [save] serializes. *)
Definition savedRecord (canvas : CanvasElement) (s : State) : json :=
  JObj [(str "backgroundImage", JStr (toDataURL canvas));
        (str "strokes", strokes_to_json (strokes s))].


(** ** The arithmetic of the program on IEEE doubles

    The coordinates of the program are JavaScript numbers, that is IEEE 754
    binary64 values: pointer coordinates are integers, but touch
    coordinates and the numbers of a loaded file need not be, and a loaded
    file can hold a literal as large as [1e999].  The properties that
    depend on the arithmetic itself (the distance test of [isClosedPath],
    the subtractions of a drag, the numbers written and read by the codec)
    are therefore stated over this second embedding, in which a coordinate
    is a [float] and [-], [<] are the operations of the processor.

    Three functions of the platform are left open and passed as arguments:
    [Math.hypot] (implementation-approximated), the decimal that
    [Number::toString] writes for a finite number, and the number that a
    decimal literal denotes.  The examples instantiate them: [Math.hypot]
    by the formula itself or by the scaled sum, the written decimal by the
    exact expansion of the double, and the number of a literal by the
    nearest double, ties to even. *)

Module Double.

Record Point := { x : float; y : float }.

Record Stroke := {
  points : list Point;
  color : jsstring;
  position : Point
}.

(** *** Numbers of the platform *)

(** The rational number a finite double stands for. *)
Definition exact (f : float) : option Q :=
  match Prim2SF f with
  | S754_zero _ => Some 0%Q
  | S754_finite negative m e =>
      Some (inject_Z (if negative then Z.neg m else Z.pos m) * 2 ^ e)%Q
  | _ => None
  end.


(** Two ways [Math.hypot] is computed: the formula itself, and the sum of
    the squares scaled by the larger magnitude with a compensated
    summation. *)
Definition hypot_direct (a b : float) : float :=
  PrimFloat.sqrt (a * a + b * b).

Definition hypot_scaled (a b : float) : float :=
  let a := PrimFloat.abs a in
  let b := PrimFloat.abs b in
  let max := if PrimFloat.ltb a b then b else a in
  if PrimFloat.is_infinity max then infinity
  else if PrimFloat.is_nan a || PrimFloat.is_nan b then nan
  else if PrimFloat.eqb max 0 then 0%float
  else
    let step (acc : float * float) (value : float) :=
      let '(sum, compensation) := acc in
      let n := (value / max)%float in
      let summand := (n * n - compensation)%float in
      let preliminary := (sum + summand)%float in
      (preliminary, (preliminary - sum - summand)%float) in
    (PrimFloat.sqrt (fst (step (step (0%float, 0%float) a) b)) * max)%float.

(** [n / d] rounded to the nearest integer, ties to even ([0 < d]). *)
Definition round_half_even (n d : Z) : Z :=
  let q := n / d in
  let r := n mod d in
  if 2 * r <? d then q
  else if d <? 2 * r then q + 1
  else if Z.even q then q else q + 1.

(** The integer [b] with [2^b <= num / den < 2^(b+1)], for positive [num]
    and [den]. *)
Definition binary_exponent (num den : Z) : Z :=
  let b0 := Z.log2 num - Z.log2 den in
  let reaches := if 0 <=? b0 then den * 2 ^ b0 <=? num
                 else den <=? num * 2 ^ (- b0) in
  if reaches then b0 else b0 - 1.

(** [num / den / 2^E] rounded to the nearest integer, ties to even. *)
Definition scaled_quotient (num den E : Z) : Z :=
  if 0 <=? E then round_half_even num (den * 2 ^ E)
  else round_half_even (num * 2 ^ (- E)) den.

(** The double nearest to the fraction [num / den], ties to even: a
    53-bit mantissa, or a shorter one at the least exponent. *)
Definition nearest_fraction (num den : Z) : float :=
  let E := Z.max (binary_exponent num den - 52) (-1074) in
  match scaled_quotient num den E with
  | Z.pos mantissa => SF2Prim (S754_finite false mantissa E)
  | _ => 0%float
  end.

(** The number a decimal literal [m * 10^e] denotes: the double nearest to
    it, ties to even, and an infinity beyond the range. *)
Definition nearest_double (m e : Z) : float :=
  let a := Z.abs m in
  let magnitude :=
    if a =? 0 then 0%float
    else if (0 <=? e) && (1100 <? Z.log2 a + 3 * e) then infinity
    else if (e <? 0) && (Z.log2 a + 1 + 3 * e <? -1100) then 0%float
    else if 0 <=? e then nearest_fraction (a * 10 ^ e) 1
    else nearest_fraction a (10 ^ (- e)) in
  if m <? 0 then (- magnitude)%float else magnitude.

Fixpoint strip_zeros (fuel : nat) (m e : Z) : Z * Z :=
  match fuel with
  | O => (m, e)
  | S fuel' =>
      if (e <? 0) && (m mod 10 =? 0) then strip_zeros fuel' (m / 10) (e + 1)
      else (m, e)
  end.

(** A decimal that a finite double equals: an integer is written as its
    digits, as [Number::toString] writes the integers below [1e21]. *)
Definition exact_decimal (f : float) : Z * Z :=
  match Prim2SF f with
  | S754_finite negative m e =>
      let signed := if negative then Z.neg m else Z.pos m in
      if 0 <=? e then (signed * 2 ^ e, 0)
      else strip_zeros (Z.to_nat (- e)) (signed * 5 ^ (- e)) e
  | _ => (0, 0)
  end.

(** *** Geometry (lines 56-60) *)

Definition isClosedPath (Math_hypot : float -> float -> float)
  (stroke : list Point) : bool :=
  if (length stroke <? 2)%nat then false
  else
    match stroke !! 0%nat, stroke !! (length stroke - 1)%nat with
    | Some start, Some end_ =>
        PrimFloat.ltb (Math_hypot (x end_ - x start)%float
                                   (y end_ - y start)%float) 10
    | _, _ => false   (* both reads are in range once the length is 2 *)
    end.

(** *** The rendering surface and the state (lines 21-30) *)

Record Context2D := {
  isPointInPath : list Point -> float -> float -> bool
}.

Record CanvasElement := {
  getContext : option Context2D;
  toDataURL : jsstring
}.

Definition CanvasRef := option CanvasElement.

(** A sample surface for the examples: even-odd crossing test. *)
Definition crosses (px py : float) (a b : Point) : bool :=
  if xorb (PrimFloat.ltb py (y a)) (PrimFloat.ltb py (y b)) then
    if PrimFloat.ltb (y a) (y b)
    then PrimFloat.ltb ((px - x a) * (y b - y a)) ((x b - x a) * (py - y a))
    else PrimFloat.ltb ((x b - x a) * (py - y a)) ((px - x a) * (y b - y a))
  else false.

Fixpoint crossings (px py : float) (first prev : Point) (rest : list Point)
  : bool :=
  match rest with
  | [] => crosses px py prev first
  | p :: rest' => xorb (crosses px py prev p) (crossings px py first p rest')
  end.

Definition evenodd (path : list Point) (px py : float) : bool :=
  match path with
  | [] => false
  | p :: rest => crossings px py p p rest
  end.

Definition sample_canvas : CanvasElement :=
  {| getContext := Some {| isPointInPath := evenodd |};
     toDataURL := str "data:image/png;base64,AA==" |}.

Record State := {
  isDrawing : bool;
  strokes : list Stroke;
  currentStroke : list Point;
  fillColor : jsstring;
  isDragging : bool;
  draggedStrokeIndex : option nat;
  dragOffset : option Point
}.

Definition initial : State :=
  {| isDrawing := false; strokes := []; currentStroke := [];
     fillColor := str "#cdecde"; isDragging := false;
     draggedStrokeIndex := None; dragOffset := None |}.

Definition setIsDrawing (v : bool) (s : State) : State :=
  {| isDrawing := v; strokes := strokes s; currentStroke := currentStroke s;
     fillColor := fillColor s; isDragging := isDragging s;
     draggedStrokeIndex := draggedStrokeIndex s; dragOffset := dragOffset s |}.

Definition setStrokes (update : list Stroke -> list Stroke) (s : State) : State :=
  {| isDrawing := isDrawing s; strokes := update (strokes s);
     currentStroke := currentStroke s; fillColor := fillColor s;
     isDragging := isDragging s; draggedStrokeIndex := draggedStrokeIndex s;
     dragOffset := dragOffset s |}.

Definition setCurrentStroke (update : list Point -> list Point) (s : State)
  : State :=
  {| isDrawing := isDrawing s; strokes := strokes s;
     currentStroke := update (currentStroke s); fillColor := fillColor s;
     isDragging := isDragging s; draggedStrokeIndex := draggedStrokeIndex s;
     dragOffset := dragOffset s |}.

Definition setIsDragging (v : bool) (s : State) : State :=
  {| isDrawing := isDrawing s; strokes := strokes s;
     currentStroke := currentStroke s; fillColor := fillColor s;
     isDragging := v; draggedStrokeIndex := draggedStrokeIndex s;
     dragOffset := dragOffset s |}.

Definition setDraggedStrokeIndex (v : option nat) (s : State) : State :=
  {| isDrawing := isDrawing s; strokes := strokes s;
     currentStroke := currentStroke s; fillColor := fillColor s;
     isDragging := isDragging s; draggedStrokeIndex := v;
     dragOffset := dragOffset s |}.

Definition setDragOffset (v : option Point) (s : State) : State :=
  {| isDrawing := isDrawing s; strokes := strokes s;
     currentStroke := currentStroke s; fillColor := fillColor s;
     isDragging := isDragging s; draggedStrokeIndex := draggedStrokeIndex s;
     dragOffset := v |}.

(** *** Hit-testing (lines 79-100) *)

Definition isInsideStroke (canvasRef : CanvasRef) (path : list Point)
  (px py : float) : bool :=
  match canvasRef ≫= getContext with
  | None => false
  | Some ctx => isPointInPath ctx path px py
  end.

Definition adjustedPoints (stroke : Stroke) : list Point :=
  map (fun p => {| x := x p + x (position stroke);
                   y := y p + y (position stroke) |}) (points stroke).

Fixpoint scanStrokes (canvasRef : CanvasRef) (strokes : list Stroke)
  (px py : float) (i : nat) : option nat :=
  match i with
  | O => None
  | S i' =>
      match strokes !! i' with
      | Some stroke =>
          if isInsideStroke canvasRef (adjustedPoints stroke) px py
          then Some i'
          else scanStrokes canvasRef strokes px py i'
      | None => None
      end
  end.

Definition findClickedStrokeIndex (canvasRef : CanvasRef)
  (strokes : list Stroke) (px py : float) : option nat :=
  scanStrokes canvasRef strokes px py (length strokes).

(** *** Pointer-down and pointer-move (lines 102-147) *)

Inductive Ink :=
| NoInk
| Segment (from to : Point)
| MissingPoint.

Definition withPosition (newPosition : Point) (stroke : Stroke) : Stroke :=
  {| points := points stroke; color := color stroke; position := newPosition |}.

Definition handleMouseDown (canvasRef : CanvasRef) (s : State)
  (offsetX offsetY : float) : State :=
  let clickedStrokeIndex :=
    findClickedStrokeIndex canvasRef (strokes s) offsetX offsetY in
  match clickedStrokeIndex with
  | Some clicked =>
      match strokes s !! clicked with
      | Some stroke =>
          setDragOffset
            (Some {| x := offsetX - x (position stroke);
                     y := offsetY - y (position stroke) |})
            (setDraggedStrokeIndex (Some clicked) (setIsDragging true s))
      | None => s   (* a returned index is always in range *)
      end
  | None =>
      setIsDrawing true
        (setCurrentStroke (fun _ => [{| x := offsetX; y := offsetY |}]) s)
  end.

Definition handleMouseMove (canvasRef : CanvasRef) (s : State)
  (offsetX offsetY : float) : State * Ink :=
  match isDragging s, draggedStrokeIndex s, dragOffset s with
  | true, Some dragged, Some offset =>
      let newPosition :=
        {| x := offsetX - x offset; y := offsetY - y offset |} in
      (setStrokes
         (fun prev =>
            imap (fun index stroke =>
                    if (index =? dragged)%nat
                    then withPosition newPosition stroke
                    else stroke) prev) s,
       NoInk)
  | _, _, _ =>
      match isDrawing s, canvasRef with
      | true, Some canvas =>
          (setCurrentStroke
             (fun prev => prev ++ [{| x := offsetX; y := offsetY |}]) s,
           match getContext canvas with
           | Some _ =>
               match currentStroke s !! (length (currentStroke s) - 1)%nat with
               | Some lastPoint =>
                   Segment lastPoint {| x := offsetX; y := offsetY |}
               | None => MissingPoint
               end
           | None => NoInk
           end)
      | _, _ => (s, NoInk)
      end
  end.

(** The moves of one drag session. *)
Definition dragMoves (canvasRef : CanvasRef) (moves : list (float * float))
  (s : State) : State :=
  fold_left (fun st q => fst (handleMouseMove canvasRef st (fst q) (snd q)))
            moves s.

(** *** Persistence (lines 246-288) *)

(** A JavaScript value as [JSON.parse] builds it: its numbers are
    doubles. *)
#[warnings="-register-all"]
Inductive value :=
| VNull
| VBool (b : bool)
| VNum (f : float)
| VStr (s : jsstring)
| VArr (items : list value)
| VObj (members : list (jsstring * value)).

(** What [JSON.stringify] writes for a value: a finite number as the
    decimal of [Number::toString], any other number as [null]. *)
Fixpoint written (Number_toString : float -> Z * Z) (v : value) : json :=
  match v with
  | VNull => JNull
  | VBool b => JBool b
  | VNum f =>
      if PrimFloat.is_finite f
      then let '(m, e) := Number_toString f in JNum m e
      else JNull
  | VStr s => JStr s
  | VArr items => JArr (map (written Number_toString) items)
  | VObj members =>
      JObj (map (fun kv : jsstring * value =>
                   (fst kv, written Number_toString (snd kv))) members)
  end.

Definition stringify (Number_toString : float -> Z * Z) (v : value) : list N :=
  JSON.stringify (written Number_toString v).

(** The value of a parsed text: each number literal becomes the number it
    denotes. *)
Fixpoint evaluate (StringToNumber : Z -> Z -> float) (j : json) : value :=
  match j with
  | JNull => VNull
  | JBool b => VBool b
  | JNum m e => VNum (StringToNumber m e)
  | JStr s => VStr s
  | JArr items => VArr (map (evaluate StringToNumber) items)
  | JObj members =>
      VObj (map (fun kv : jsstring * json =>
                   (fst kv, evaluate StringToNumber (snd kv))) members)
  end.

Definition parse (StringToNumber : Z -> Z -> float) (text : list N)
  : option value :=
  match JSON.parse text with
  | Some j => Some (evaluate StringToNumber j)
  | None => None
  end.

(** The stroke list as the value the handlers build. *)
Definition point_to_value (p : Point) : value :=
  VObj [(str "x", VNum (x p)); (str "y", VNum (y p))].

Definition stroke_to_value (s : Stroke) : value :=
  VObj [(str "points", VArr (map point_to_value (points s)));
        (str "color", VStr (color s));
        (str "position", point_to_value (position s))].

Definition strokes_to_value (l : list Stroke) : value :=
  VArr (map stroke_to_value l).

Fixpoint lookup_member (key : jsstring) (members : list (jsstring * value))
  : option value :=
  match members with
  | [] => None
  | (k, v) :: rest =>
      match lookup_member key rest with
      | Some v' => Some v'
      | None => if jsstring_eqb k key then Some v else None
      end
  end.

Definition property (key : jsstring) (v : value) : option value :=
  match v with
  | VObj members => lookup_member key members
  | _ => None
  end.

Definition saveAsCustomFormat (Number_toString : float -> Z * Z)
  (canvasRef : CanvasRef) (s : State) : option (list N) :=
  match canvasRef with
  | None => None
  | Some canvas =>
      let backgroundImage := toDataURL canvas in
      Some (stringify Number_toString
              (VObj [(str "backgroundImage", VStr backgroundImage);
                     (str "strokes", strokes_to_value (strokes s))]))
  end.

Record LoadEffects := {
  completion : Completion;
  strokesSet : option (option value);
  imageSrc : option (option value)
}.

Definition loadCustomFormat (StringToNumber : Z -> Z -> float)
  (canvasRef : CanvasRef) (result : list N) : LoadEffects :=
  match result with
  | [] =>
      {| completion := Returned; strokesSet := None; imageSrc := None |}
  | _ :: _ =>
      match parse StringToNumber result with
      | None =>
          {| completion := Thrown SyntaxError; strokesSet := None;
             imageSrc := None |}
      | Some VNull =>
          {| completion := Thrown TypeError; strokesSet := None;
             imageSrc := None |}
      | Some record =>
          let backgroundImage := property (str "backgroundImage") record in
          let loadedStrokes := property (str "strokes") record in
          {| completion := Returned;
             strokesSet := Some loadedStrokes;
             imageSrc :=
               match canvasRef ≫= getContext with
               | None => None
               | Some _ => Some backgroundImage
               end |}
      end
  end.

(** *** Vocabulary *)

(** The number [f] is finite and the decimal written for it is read back
    as [f] itself. *)
Definition reads_back (Number_toString : float -> Z * Z)
  (StringToNumber : Z -> Z -> float) (f : float) : Prop :=
  PrimFloat.is_finite f = true /\
  StringToNumber (fst (Number_toString f)) (snd (Number_toString f)) = f.

(** The numbers of a stroke list: the coordinates of every point and of
    every position. *)
Definition point_coordinates (p : Point) : list float := [x p; y p].

Definition stroke_coordinates (s : Stroke) : list float :=
  flat_map point_coordinates (points s ++ [position s]).

Definition coordinates (l : list Stroke) : list float :=
  flat_map stroke_coordinates l.

(** A drag of stroke [i] is in progress with offset [o]. *)
Definition dragging (i : nat) (o : Point) (s : State) : Prop :=
  isDragging s = true /\ draggedStrokeIndex s = Some i /\ dragOffset s = Some o.

End Double.
(** * Properties *)

(** ** Geometry *)

Example isClosedPath_open_line :
  isClosedPath [{| x := 0; y := 0 |}; {| x := 6; y := 8 |}] = false.
Proof. reflexivity. Qed.

Example isClosedPath_two_near_points :
  isClosedPath [{| x := 0; y := 0 |}; {| x := 6; y := 7 |}] = true.
Proof. reflexivity. Qed.

(** ** Hit-testing *)

Lemma shifted_functional offset (pts a b : list Point) :
  shifted offset pts a -> shifted offset pts b -> a = b.
Proof.
  intros [Hla Ha] [Hlb Hb]. apply list_eq. intros k.
  destruct (pts !! k) as [p |] eqn:Hp.
  - rewrite (Ha k p Hp), (Hb k p Hp). reflexivity.
  - apply lookup_ge_None in Hp.
    rewrite (proj2 (lookup_ge_None a k)), (proj2 (lookup_ge_None b k));
      [reflexivity | lia | lia].
Qed.

Lemma adjustedPoints_shifted (stroke : Stroke) :
  shifted (position stroke) (points stroke) (adjustedPoints stroke).
Proof.
  unfold adjustedPoints. split.
  - apply length_map.
  - intros k p Hp. rewrite list_lookup_fmap, Hp. reflexivity.
Qed.

Lemma isInsideStroke_contains canvasRef (path : list Point) px py :
  isInsideStroke canvasRef path px py = true <-> contains canvasRef path px py.
Proof.
  unfold isInsideStroke, contains. split.
  - destruct canvasRef as [canvas |]; simpl; [| discriminate].
    destruct (getContext canvas) as [ctx |] eqn:Hctx; [| discriminate].
    intros Hin. exists canvas, ctx. auto.
  - intros (canvas & ctx & -> & Hctx & Hin). simpl. rewrite Hctx. exact Hin.
Qed.

(** The test the loop makes is the test [hits] describes. *)
Lemma hits_tested canvasRef (l : list Stroke) px py i :
  hits canvasRef l px py i <->
  exists stroke, l !! i = Some stroke /\
                 isInsideStroke canvasRef (adjustedPoints stroke) px py = true.
Proof.
  unfold hits. split.
  - intros (stroke & Hstroke & path & Hpath & Hin). exists stroke.
    split; [exact Hstroke |]. apply isInsideStroke_contains.
    rewrite (shifted_functional _ _ _ _ (adjustedPoints_shifted stroke) Hpath).
    exact Hin.
  - intros (stroke & Hstroke & Hin). exists stroke. split; [exact Hstroke |].
    exists (adjustedPoints stroke). split; [apply adjustedPoints_shifted |].
    apply isInsideStroke_contains. exact Hin.
Qed.

Lemma scanStrokes_spec canvasRef (l : list Stroke) px py (n : nat) :
  (n <= length l)%nat ->
  match scanStrokes canvasRef l px py n with
  | Some i => (i < n)%nat /\ hits canvasRef l px py i /\
              forall j, (i < j < n)%nat -> ~ hits canvasRef l px py j
  | None => forall j, (j < n)%nat -> ~ hits canvasRef l px py j
  end.
Proof.
  induction n as [| n IH]; intros Hn; simpl.
  - intros j Hj. lia.
  - destruct (lookup_lt_is_Some_2 l n) as [stroke Hstroke]; [lia |].
    rewrite Hstroke.
    destruct (isInsideStroke canvasRef (adjustedPoints stroke) px py) eqn:Hin.
    + split; [lia |].
      split; [apply hits_tested; exists stroke; auto |]. intros j Hj. lia.
    + assert (Hmiss : ~ hits canvasRef l px py n).
      { intros Hh. apply hits_tested in Hh.
        destruct Hh as (st & Hst & Hhit). congruence. }
      specialize (IH ltac:(lia)).
      destruct (scanStrokes canvasRef l px py n) as [i |].
      * destruct IH as (Hi & Hhit & Hnone). split; [lia |]. split; [exact Hhit |].
        intros j Hj. destruct (decide (j = n)) as [-> | Hne]; [exact Hmiss |].
        apply Hnone. lia.
      * intros j Hj. destruct (decide (j = n)) as [-> | Hne]; [exact Hmiss |].
        apply IH. lia.
Qed.

Lemma hits_lt canvasRef (l : list Stroke) px py i :
  hits canvasRef l px py i -> (i < length l)%nat.
Proof. intros (st & Hst & _). eapply lookup_lt_Some; eauto. Qed.

Lemma findClickedStrokeIndex_Some canvasRef (l : list Stroke) px py i :
  findClickedStrokeIndex canvasRef l px py = Some i <->
  hits canvasRef l px py i /\ forall j, (i < j)%nat -> ~ hits canvasRef l px py j.
Proof.
  unfold findClickedStrokeIndex.
  pose proof (scanStrokes_spec canvasRef l px py (length l) (le_n _)) as H.
  destruct (scanStrokes canvasRef l px py (length l)) as [k |].
  - destruct H as (Hk & Hhit & Hnone). split.
    + intros [= <-]. split; [exact Hhit |]. intros j Hj Hj'.
      apply (Hnone j); [| exact Hj']. split; [exact Hj | eapply hits_lt; eauto].
    + intros [Hi Hafter]. f_equal.
      destruct (Nat.lt_trichotomy k i) as [Hlt | [Heq | Hgt]]; [| exact Heq |].
      * exfalso. apply (Hnone i); [| exact Hi]. split; [exact Hlt |].
        eapply hits_lt; eauto.
      * exfalso. apply (Hafter k Hgt Hhit).
  - split; [discriminate |]. intros [Hi _]. exfalso.
    apply (H i); [eapply hits_lt; eauto | exact Hi].
Qed.

Lemma findClickedStrokeIndex_None canvasRef (l : list Stroke) px py :
  findClickedStrokeIndex canvasRef l px py = None <->
  forall j, ~ hits canvasRef l px py j.
Proof.
  split.
  - intros Hnone j Hj.
    assert (Hex : exists k, findClickedStrokeIndex canvasRef l px py = Some k).
    { unfold findClickedStrokeIndex in *.
      pose proof (scanStrokes_spec canvasRef l px py (length l) (le_n _)) as H.
      rewrite Hnone in H. exfalso. apply (H j); [eapply hits_lt; eauto | exact Hj]. }
    destruct Hex as [k Hk]. congruence.
  - intros Hall.
    destruct (findClickedStrokeIndex canvasRef l px py) as [k |] eqn:Hk;
      [| reflexivity].
    apply findClickedStrokeIndex_Some in Hk. destruct Hk as [Hk _].
    exfalso. apply (Hall k Hk).
Qed.

(** C5. Pointer-down selects the last stroke of the list that contains
    the pointer, where a stroke contains the pointer when the surface
    answers true for the closed path through its points, each shifted by
    the stroke's position ([hits]): the index found is a hit with no hit
    above it, nothing is found only when no stroke is hit, and whenever
    some stroke is hit the handler starts a drag of a stroke at or above
    it, so of two strokes that both contain the pointer the later one is
    the one dragged. *)
Theorem hit_test_precedence canvasRef (s : State) (px py : Z) :
  (forall i, findClickedStrokeIndex canvasRef (strokes s) px py = Some i <->
             hits canvasRef (strokes s) px py i /\
             forall j, (i < j)%nat -> ~ hits canvasRef (strokes s) px py j)
  /\ (findClickedStrokeIndex canvasRef (strokes s) px py = None <->
      forall j, ~ hits canvasRef (strokes s) px py j)
  /\ (forall i, hits canvasRef (strokes s) px py i ->
      exists k stroke,
        (i <= k)%nat /\ hits canvasRef (strokes s) px py k /\
        strokes s !! k = Some stroke /\
        let s' := handleMouseDown canvasRef s px py in
        isDragging s' = true /\ draggedStrokeIndex s' = Some k /\
        dragOffset s' = Some {| x := px - x (position stroke);
                                y := py - y (position stroke) |} /\
        strokes s' = strokes s).
Proof.
  split; [intros i; apply findClickedStrokeIndex_Some |].
  split; [apply findClickedStrokeIndex_None |].
  intros i Hi.
  destruct (findClickedStrokeIndex canvasRef (strokes s) px py) as [k |] eqn:Hk.
  - pose proof Hk as Hfound. apply findClickedStrokeIndex_Some in Hk.
    destruct Hk as [Hhit Hafter]. pose proof Hhit as (stroke & Hstroke & _).
    exists k, stroke. split.
    + destruct (Nat.le_gt_cases i k) as [Hle | Hgt]; [exact Hle |].
      exfalso. apply (Hafter i Hgt Hi).
    + split; [exact Hhit |]. split; [exact Hstroke |].
      unfold handleMouseDown. rewrite Hfound, Hstroke. simpl. auto.
  - exfalso. rewrite findClickedStrokeIndex_None in Hk. apply (Hk i Hi).
Qed.

(** Both strokes contain the pointer, the later one only once it is
    shifted by its position; the later one is dragged. *)
Lemma hit_test_precedence_witness :
  let A := {| points := [{| x := 0; y := 0 |}; {| x := 30; y := 0 |};
                         {| x := 30; y := 30 |}; {| x := 0; y := 30 |}];
              color := str "#cdecde"; position := origin |} in
  let B := {| points := [{| x := 0; y := 0 |}; {| x := 10; y := 0 |};
                         {| x := 10; y := 10 |}; {| x := 0; y := 10 |}];
              color := str "#ff0000"; position := {| x := 20; y := 20 |} |} in
  let s := setStrokes (fun _ => [A; B]) initial in
  hits (Some sample_canvas) (strokes s) 25 25 0%nat /\
  hits (Some sample_canvas) (strokes s) 25 25 1%nat /\
  ~ contains (Some sample_canvas) (points B) 25 25 /\
  draggedStrokeIndex (handleMouseDown (Some sample_canvas) s 25 25) = Some 1%nat.
Proof.
  intros A B s.
  assert (HA : hits (Some sample_canvas) (strokes s) 25 25 0%nat).
  { exists A. split; [reflexivity |].
    exists [{| x := 0; y := 0 |}; {| x := 30; y := 0 |};
            {| x := 30; y := 30 |}; {| x := 0; y := 30 |}].
    split.
    - split; [reflexivity |].
      intros [| [| [| [| k]]]] p Hp; simpl in Hp; inversion Hp; reflexivity.
    - exists sample_canvas, {| isPointInPath := evenodd |}.
      repeat split; reflexivity. }
  assert (HB : hits (Some sample_canvas) (strokes s) 25 25 1%nat).
  { exists B. split; [reflexivity |].
    exists [{| x := 20; y := 20 |}; {| x := 30; y := 20 |};
            {| x := 30; y := 30 |}; {| x := 20; y := 30 |}].
    split.
    - split; [reflexivity |].
      intros [| [| [| [| k]]]] p Hp; simpl in Hp; inversion Hp; reflexivity.
    - exists sample_canvas, {| isPointInPath := evenodd |}.
      repeat split; reflexivity. }
  split; [exact HA |]. split; [exact HB |].
  split.
  { intros (canvas & ctx & Hcanvas & Hctx & Hin).
    injection Hcanvas as <-. injection Hctx as <-. discriminate Hin. }
  destruct (proj2 (proj2 (hit_test_precedence (Some sample_canvas) s 25 25))
              1%nat HB) as (k & stroke & Hle & Hk & _ & _ & Hidx & _).
  apply hits_lt in Hk. simpl in Hk.
  replace k with 1%nat in Hidx by lia. exact Hidx.
Defined.

(** ** Committing a stroke *)

(** C1, as the design document states it, fails on a single buffered
    point: pointer-down on an empty canvas buffers one point, and the
    release that follows appends a stroke, for the mouse and for touch. *)
Lemma commit_gate_single_point :
  let s := handleMouseDown (Some sample_canvas) initial 5 5 in
  let t := handleTouchStart (Some sample_canvas) initial 13 13 in
  (isDrawing s = true /\ isDragging s = false /\
   length (currentStroke s) = 1%nat /\
   length (strokes (handleMouseUp s)) = S (length (strokes s)))
  /\ (isDrawing t = true /\ isDragging t = false /\
      length (currentStroke t) = 1%nat /\
      length (strokes (handleTouchEnd t)) = S (length (strokes t))).
Proof. repeat split; reflexivity. Qed.

(** C1, amended. A release while Drawing (and not Dragging) appends a
    stroke if and only if the draw buffer holds at least one point; what
    it appends is exactly one stroke, made of the buffered points and the
    current fill color, at position {0,0}, and the buffer is cleared.
    The mouse and the touch release agree. *)
Theorem commit_gate (s : State) :
  isDrawing s = true -> isDragging s = false ->
  position (committed s) = origin
  /\ ((1 <= length (currentStroke s))%nat ->
      strokes (handleMouseUp s) = strokes s ++ [committed s] /\
      currentStroke (handleMouseUp s) = [] /\
      isDrawing (handleMouseUp s) = false)
  /\ (length (currentStroke s) = 0%nat -> handleMouseUp s = s)
  /\ (length (strokes (handleMouseUp s)) = S (length (strokes s)) <->
      (1 <= length (currentStroke s))%nat)
  /\ handleTouchEnd s = handleMouseUp s.
Proof.
  intros Hdraw Hdrag. unfold handleMouseUp, handleTouchEnd.
  rewrite Hdraw, Hdrag. simpl.
  destruct (Nat.ltb_spec 0 (length (currentStroke s))) as [Hpos | Hzero]; simpl.
  - split; [reflexivity |]. split; [auto |]. split; [lia |].
    split; [| reflexivity]. rewrite length_app. simpl. lia.
  - split; [reflexivity |]. split; [lia |]. split; [auto |].
    split; [| reflexivity]. lia.
Qed.

Lemma commit_gate_witness :
  let s := handleMouseDown (Some sample_canvas) initial 5 5 in
  strokes (handleMouseUp s)
  = [{| points := [{| x := 5; y := 5 |}]; color := str "#cdecde";
        position := origin |}].
Proof.
  intros s.
  destruct (commit_gate s eq_refl eq_refl) as (_ & Happend & _).
  destruct (Happend ltac:(simpl; lia)) as (Hstrokes & _).
  exact Hstrokes.
Defined.

(** ** Undo *)

Lemma slice_drop_last {A : Type} (l : list A) (a : A) :
  slice 0 (-1) (l ++ [a]) = l.
Proof.
  unfold slice. rewrite length_app. simpl length.
  change (0 <? 0) with false. change (-1 <? 0) with true. cbv iota.
  set (len := Z.of_nat (length l + 1)).
  replace (Z.to_nat (Z.min 0 len)) with 0%nat by lia.
  replace (Z.to_nat (Z.max (len + -1) 0 - Z.min 0 len)) with (length l) by lia.
  rewrite drop_0. apply take_app_length.
Qed.

(** C8. Undo removes exactly the last stroke of a non-empty list, leaves
    the empty list empty (a second undo as well), touches no other part
    of the state and cannot fail. *)
Theorem undo_spec (s : State) :
  (forall l final, strokes s = l ++ [final] -> strokes (undo s) = l)
  /\ (strokes s = [] -> strokes (undo s) = [] /\ strokes (undo (undo s)) = [])
  /\ (forall canvasRef, control canvasRef UndoClick s = Some (undo s))
  /\ isDrawing (undo s) = isDrawing s
  /\ currentStroke (undo s) = currentStroke s
  /\ fillColor (undo s) = fillColor s
  /\ isDragging (undo s) = isDragging s
  /\ draggedStrokeIndex (undo s) = draggedStrokeIndex s
  /\ dragOffset (undo s) = dragOffset s.
Proof.
  split.
  - intros l final Hs. unfold undo. simpl. rewrite Hs. apply slice_drop_last.
  - split; [| repeat split].
    intros Hs. unfold undo. simpl. rewrite Hs. split; reflexivity.
Qed.

Lemma undo_spec_witness :
  let a := {| points := [origin; origin]; color := str "#cdecde";
              position := origin |} in
  let b := {| points := [origin]; color := str "#000000"; position := origin |} in
  strokes (undo (setStrokes (fun _ => [a; b]) initial)) = [a]
  /\ strokes (undo (undo initial)) = [].
Proof.
  intros a b. split.
  - apply (proj1 (undo_spec (setStrokes (fun _ => [a; b]) initial)) [a] b).
    reflexivity.
  - apply (proj1 (proj2 (undo_spec initial))). reflexivity.
Defined.

Example slice_examples :
  slice 0 (-1) [1; 2; 3] = [1; 2] /\ slice 0 (-1) [1] = []
  /\ slice 0 (-1) ([] : list Z) = [] /\ slice 1 3 [1; 2; 3; 4] = [2; 3]
  /\ slice (-2) 9 [1; 2; 3; 4] = [3; 4].
Proof. repeat split. Qed.

(** ** The drawing buffer *)

Ltac seeded Hinv :=
  first
    [ exact Hinv
    | let Hd := fresh in
      intros Hd;
      first
        [ congruence
        | apply Hinv; congruence
        | let Happ := fresh in
          intros Happ; apply app_eq_nil in Happ; destruct Happ; discriminate ] ].

Lemma buffer_seeded_dispatch canvasRef e s :
  buffer_seeded s -> buffer_seeded (fst (dispatch canvasRef e s)).
Proof.
  unfold buffer_seeded. intros Hinv.
  destruct e; simpl.
  - unfold handleMouseDown.
    destruct (findClickedStrokeIndex _ _ _ _) as [k |].
    + destruct (strokes s !! k); simpl; exact Hinv.
    + simpl. discriminate.
  - unfold handleMouseMove.
    destruct (isDragging s), (draggedStrokeIndex s), (dragOffset s),
      (isDrawing s) eqn:Hd, canvasRef;
      simpl; seeded Hinv.
  - unfold handleMouseUp.
    destruct (isDragging s); simpl; [exact Hinv |].
    destruct (isDrawing s && _)%bool eqn:Hc; simpl; [discriminate | exact Hinv].
  - unfold handleMouseUp.
    destruct (isDragging s); simpl; [exact Hinv |].
    destruct (isDrawing s && _)%bool eqn:Hc; simpl; [discriminate | exact Hinv].
  - unfold handleTouchStart. destruct canvasRef as [canvas |]; [| exact Hinv].
    simpl. destruct (findClickedStrokeIndex _ _ _ _) as [k |].
    + destruct (strokes s !! k); simpl; exact Hinv.
    + simpl. discriminate.
  - unfold handleTouchMove.
    destruct (isDragging s), (draggedStrokeIndex s), (dragOffset s),
      (isDrawing s) eqn:Hd, canvasRef;
      simpl; seeded Hinv.
  - unfold handleTouchEnd.
    destruct (isDragging s); simpl; [exact Hinv |].
    destruct (isDrawing s && _)%bool eqn:Hc; simpl; [discriminate | exact Hinv].
Qed.

Lemma buffer_seeded_control canvasRef c s s' :
  buffer_seeded s -> control canvasRef c s = Some s' -> buffer_seeded s'.
Proof.
  unfold buffer_seeded. intros Hinv Hc. destruct c; simpl in Hc.
  - injection Hc as <-. exact Hinv.
  - injection Hc as <-. exact Hinv.
  - destruct (strokesSet _) as [v |]; [| injection Hc as <-; exact Hinv].
    destruct (v ≫= as_strokes); [| discriminate].
    injection Hc as <-. exact Hinv.
Qed.

Lemma reachable_buffer_seeded s : reachable s -> buffer_seeded s.
Proof.
  induction 1 as [| canvasRef e s _ IH | canvasRef c s s' _ IH Hc].
  - unfold buffer_seeded. discriminate.
  - apply buffer_seeded_dispatch. exact IH.
  - eapply buffer_seeded_control; eauto.
Qed.

Lemma feedback_finds_point canvasRef e s :
  buffer_seeded s -> snd (dispatch canvasRef e s) <> MissingPoint.
Proof.
  unfold buffer_seeded. intros Hinv.
  assert (Hlast : isDrawing s = true ->
                  is_Some (currentStroke s !! (length (currentStroke s) - 1)%nat)).
  { intros Hd. apply lookup_lt_is_Some_2. specialize (Hinv Hd).
    destruct (currentStroke s); [congruence | simpl; lia]. }
  destruct e; simpl; try discriminate.
  - unfold handleMouseMove.
    destruct (isDragging s), (draggedStrokeIndex s), (dragOffset s),
      (isDrawing s) eqn:Hd, canvasRef as [canvas |];
      simpl; try discriminate;
      destruct (getContext canvas); try discriminate;
      destruct (Hlast eq_refl) as [? ->]; discriminate.
  - unfold handleTouchMove.
    destruct (isDragging s), (draggedStrokeIndex s), (dragOffset s),
      (isDrawing s) eqn:Hd, canvasRef as [canvas |];
      simpl; try discriminate;
      destruct (getContext canvas); try discriminate;
      destruct (Hlast eq_refl) as [? ->]; discriminate.
Qed.

(** C10. In every state reachable from the initial one through the
    handlers and the controls, Drawing implies a non-empty draw buffer
    (a pointer-down that starts a draw seeds it with its one point), so
    the last buffered point that the live-feedback step of a move reads
    exists: it draws a segment from that point and never meets a missing
    one. *)
Theorem drawing_buffer_nonempty (s : State) :
  reachable s ->
  (isDrawing s = true -> currentStroke s <> [])
  /\ (isDrawing s = true ->
      exists lastPoint,
        currentStroke s !! (length (currentStroke s) - 1)%nat = Some lastPoint)
  /\ (forall canvasRef e, snd (dispatch canvasRef e s) <> MissingPoint)
  /\ (forall canvasRef ox oy,
        findClickedStrokeIndex canvasRef (strokes s) ox oy = None ->
        isDrawing (handleMouseDown canvasRef s ox oy) = true /\
        currentStroke (handleMouseDown canvasRef s ox oy)
        = [{| x := ox; y := oy |}]).
Proof.
  intros Hreach. pose proof (reachable_buffer_seeded s Hreach) as Hinv.
  split; [exact Hinv |]. split; [| split].
  - intros Hd. apply lookup_lt_is_Some_2. specialize (Hinv Hd).
    destruct (currentStroke s); [congruence | simpl; lia].
  - intros canvasRef e. apply feedback_finds_point. exact Hinv.
  - intros canvasRef ox oy Hmiss. unfold handleMouseDown. rewrite Hmiss.
    split; reflexivity.
Qed.

Lemma drawing_buffer_nonempty_witness :
  let s := run (Some sample_canvas) [MouseDown 5 5; MouseMove 6 7] initial in
  isDrawing s = true /\
  snd (dispatch (Some sample_canvas) (MouseMove 9 9) s)
  = Segment {| x := 6; y := 7 |} {| x := 9; y := 9 |} /\
  snd (dispatch (Some sample_canvas) (MouseMove 9 9) s) <> MissingPoint.
Proof.
  intros s.
  assert (Hreach : reachable s).
  { apply (reachable_pointer (Some sample_canvas) (MouseMove 6 7)).
    apply (reachable_pointer (Some sample_canvas) (MouseDown 5 5)).
    apply reachable_initial. }
  split; [reflexivity |]. split; [reflexivity |].
  apply (proj1 (proj2 (proj2 (drawing_buffer_nonempty s Hreach)))).
Defined.

(** ** Touch and mouse *)

Lemma corresponds_dispatch canvas m t (s : State) :
  corresponds canvas m t ->
  dispatch (Some canvas) t s = dispatch (Some canvas) m s.
Proof.
  intros H. destruct H as [ox oy cx cy <- <- | ox oy cx cy <- <- | |]; simpl.
  - unfold handleTouchStart, handleMouseDown. reflexivity.
  - unfold handleTouchMove, handleMouseMove.
    destruct (isDragging s), (draggedStrokeIndex s), (dragOffset s),
      (isDrawing s); reflexivity.
  - reflexivity.
  - reflexivity.
Qed.

(** C9. With the canvas attached, a sequence of touch events whose
    derived local coordinates are those of a sequence of mouse events
    takes the component through the same states, with the same live
    feedback, and ends in the same state, stroke list included. *)
Theorem touch_pointer_equivalence canvas (mouse touch : list PointerEvent)
  (s : State) :
  Forall2 (corresponds canvas) mouse touch ->
  trace (Some canvas) touch s = trace (Some canvas) mouse s
  /\ run (Some canvas) touch s = run (Some canvas) mouse s.
Proof.
  intros H. revert s.
  induction H as [| m t mouse touch Hmt _ IH]; intros s.
  - split; reflexivity.
  - simpl. rewrite (corresponds_dispatch canvas m t s Hmt).
    destruct (IH (fst (dispatch (Some canvas) m s))) as [Htrace Hrun].
    split; [f_equal; exact Htrace | exact Hrun].
Qed.

Lemma touch_pointer_equivalence_witness :
  let mouse := [MouseDown 5 5; MouseMove 40 5; MouseMove 6 6; MouseUp;
                MouseDown 10 5; MouseMove 30 30; MouseLeave] in
  let touch := [TouchStart 13 13; TouchMove 48 13; TouchMove 14 14; TouchEnd;
                TouchStart 18 13; TouchMove 38 38; TouchEnd] in
  run (Some sample_canvas) touch initial = run (Some sample_canvas) mouse initial
  /\ strokes (run (Some sample_canvas) mouse initial)
     = [{| points := [{| x := 5; y := 5 |}; {| x := 40; y := 5 |};
                      {| x := 6; y := 6 |}];
           color := str "#cdecde"; position := {| x := 20; y := 25 |} |}].
Proof.
  intros mouse touch. split; [| reflexivity].
  apply (touch_pointer_equivalence sample_canvas mouse touch initial).
  repeat constructor.
Defined.

(** Without a canvas no local coordinates are derived: touch-start
    returns at once, while pointer-down, which needs none, starts a
    stroke. *)
Example detached_canvas :
  handleTouchStart None initial 5 5 = initial
  /\ isDrawing (handleMouseDown None initial 5 5) = true.
Proof. split; reflexivity. Qed.

(** ** Dragging *)

Lemma repositionStroke_lookup i p (l : list Stroke) j :
  repositionStroke i p l !! j
  = (fun stroke => if (j =? i)%nat then withPosition p stroke else stroke)
      <$> l !! j.
Proof. unfold repositionStroke. apply list_lookup_imap. Qed.

Lemma repositionStroke_twice i p q (l : list Stroke) :
  repositionStroke i q (repositionStroke i p l) = repositionStroke i q l.
Proof.
  apply list_eq. intros j. rewrite !repositionStroke_lookup.
  destruct (l !! j) as [stroke |]; simpl; [| reflexivity].
  destruct (j =? i)%nat; reflexivity.
Qed.

Lemma handleMouseMove_dragging canvasRef i o (s : State) qx qy :
  dragging i o s ->
  handleMouseMove canvasRef s qx qy
  = (setStrokes (repositionStroke i {| x := qx - x o; y := qy - y o |}) s,
     NoInk).
Proof.
  intros (Hd & Hi & Ho). unfold handleMouseMove. rewrite Hd, Hi, Ho.
  reflexivity.
Qed.

Lemma handleTouchMove_dragging canvas i o (s : State) cx cy :
  dragging i o s ->
  handleTouchMove (Some canvas) s cx cy
  = (setStrokes
       (repositionStroke i {| x := cx - rect_left canvas - x o;
                              y := cy - rect_top canvas - y o |}) s,
     NoInk).
Proof.
  intros (Hd & Hi & Ho). unfold handleTouchMove. rewrite Hd, Hi, Ho.
  reflexivity.
Qed.

Lemma dragMoves_spec canvasRef i o (moves : list (Z * Z)) (s : State) :
  dragging i o s ->
  dragging i o (dragMoves canvasRef moves s)
  /\ strokes (dragMoves canvasRef moves s)
     = match last moves with
       | Some q =>
           repositionStroke i {| x := fst q - x o; y := snd q - y o |}
                            (strokes s)
       | None => strokes s
       end.
Proof.
  revert s. induction moves as [| q rest IH]; intros s Hs.
  - split; [exact Hs | reflexivity].
  - change (dragMoves canvasRef (q :: rest) s)
      with (dragMoves canvasRef rest
              (fst (handleMouseMove canvasRef s (fst q) (snd q)))).
    rewrite (handleMouseMove_dragging canvasRef i o s _ _ Hs).
    change (fst (?a, NoInk)) with a.
    set (s1 := setStrokes _ s).
    assert (Hs1 : dragging i o s1) by exact Hs.
    destruct (IH s1 Hs1) as [Hdrag Hstrokes].
    split; [exact Hdrag |]. rewrite Hstrokes.
    destruct rest as [| q' rest']; [reflexivity |].
    rewrite last_cons_cons.
    destruct (last (q' :: rest')) eqn:Hlast;
      [| apply last_None in Hlast; discriminate].
    subst s1. simpl. apply repositionStroke_twice.
Qed.

(** ** Repositioning a stroke *)

Module HeapFacts.
Import Heap.

Lemma mapReposition_past dragged p index (elems : list loc) (h : heap) :
  (dragged < index)%nat ->
  mapReposition dragged p index elems h = (h, elems).
Proof.
  revert index. induction elems as [| ref rest IH]; intros index Hlt; simpl.
  - reflexivity.
  - unfold repositionElement.
    destruct (Nat.eqb_spec index dragged) as [-> | _]; [lia |].
    rewrite IH by lia. reflexivity.
Qed.

Lemma mapReposition_at dragged p index (elems : list loc) (h : heap)
  ref pts c pos :
  (index <= dragged)%nat ->
  elems !! (dragged - index)%nat = Some ref ->
  h !! ref = Some (StrokeObject pts c pos) ->
  mapReposition dragged p index elems h
  = (h ++ [StrokeObject pts c p], <[(dragged - index)%nat := length h]> elems).
Proof.
  revert index. induction elems as [| r rest IH]; intros index Hle Hlook Href.
  - discriminate.
  - simpl. unfold repositionElement.
    destruct (Nat.eqb_spec index dragged) as [-> | Hne].
    + rewrite Nat.sub_diag in *. simpl in Hlook. injection Hlook as ->.
      rewrite Href. unfold alloc.
      rewrite mapReposition_past by lia. reflexivity.
    + replace (dragged - index)%nat with (S (dragged - S index)) in * by lia.
      simpl in Hlook. rewrite (IH (S index)) by (lia || assumption).
      reflexivity.
Qed.

Lemma repositionStored_alloc (h : heap) prev elems i p ref pts c pos :
  h !! prev = Some (StrokesArray elems) ->
  elems !! i = Some ref ->
  h !! ref = Some (StrokeObject pts c pos) ->
  Heap.repositionStored i p prev h
  = ((h ++ [StrokeObject pts c p]) ++ [StrokesArray (<[i := length h]> elems)],
     S (length h)).
Proof.
  intros Hprev Hi Href. unfold Heap.repositionStored. rewrite Hprev.
  rewrite (mapReposition_at i p 0 elems h ref pts c pos);
    [| lia | rewrite Nat.sub_0_r; exact Hi | exact Href].
  rewrite Nat.sub_0_r. unfold alloc. rewrite length_app. simpl.
  f_equal. lia.
Qed.

Lemma read_stroke_grows (h extra : heap) ref stroke :
  read_stroke h ref = Some stroke -> read_stroke (h ++ extra) ref = Some stroke.
Proof.
  unfold read_stroke.
  destruct (h !! ref) as [[| pts c pos |] |] eqn:Href; try discriminate.
  destruct (h !! pts) as [[ps | |] |] eqn:Hpts; try discriminate.
  intros [= <-].
  rewrite (lookup_app_l_Some _ _ _ _ Href), (lookup_app_l_Some _ _ _ _ Hpts).
  reflexivity.
Qed.

End HeapFacts.

(** C4. Repositioning stroke [i] of the list stored at [prev] builds a
    new array at an address that was not in use, and writes nothing in
    place: every object of the old store, the old array and every points
    array among them, is still there unchanged.  In the new array every
    entry other than [i] is the same reference as before, and entry [i]
    is a stroke object with the same points reference and the same color
    as the old one and the new position.  Read as values, the new list is
    the old one with the position of stroke [i] replaced: same length,
    same points and color at [i], every other stroke equal. *)
Theorem reposition_frame (h : Heap.heap) (prev : Heap.loc)
  (elems : list Heap.loc) (old : list Stroke) (i : nat) (newPosition : Point)
  (ref pts : Heap.loc) (c : jsstring) (pos : Point) :
  h !! prev = Some (Heap.StrokesArray elems) ->
  elems !! i = Some ref ->
  h !! ref = Some (Heap.StrokeObject pts c pos) ->
  Heap.read_strokes h prev = Some old ->
  forall h' next, Heap.repositionStored i newPosition prev h = (h', next) ->
  (next <> prev /\ h !! next = None)
  /\ (forall l o, h !! l = Some o -> h' !! l = Some o)
  /\ (exists elems' ref',
        h' !! next = Some (Heap.StrokesArray elems') /\
        length elems' = length elems /\
        (forall j, j <> i -> elems' !! j = elems !! j) /\
        elems' !! i = Some ref' /\
        h' !! ref' = Some (Heap.StrokeObject pts c newPosition))
  /\ Heap.read_strokes h' next = Some (repositionStroke i newPosition old)
  /\ length (repositionStroke i newPosition old) = length old
  /\ (forall j, j <> i -> repositionStroke i newPosition old !! j = old !! j)
  /\ (exists stroke,
        old !! i = Some stroke /\
        repositionStroke i newPosition old !! i
        = Some {| points := points stroke; color := color stroke;
                  position := newPosition |})
  /\ (forall canvasRef canvas s o qx qy,
        dragging i o s -> strokes s = old ->
        newPosition = {| x := qx - x o; y := qy - y o |} ->
        strokes (fst (handleMouseMove canvasRef s qx qy))
        = repositionStroke i newPosition old
        /\ strokes (fst (handleTouchMove (Some canvas) s
                           (qx + rect_left canvas) (qy + rect_top canvas)))
           = repositionStroke i newPosition old).
Proof.
  intros Hprev Hi Href Hread h' next Hrun.
  rewrite (HeapFacts.repositionStored_alloc h prev elems i newPosition
             ref pts c pos Hprev Hi Href) in Hrun.
  injection Hrun as <- <-.
  pose proof (lookup_lt_Some _ _ _ Hprev) as Hprev_lt.
  pose proof (lookup_lt_Some _ _ _ Hi) as Hi_lt.
  assert (Hkeep : forall l o, h !! l = Some o ->
            ((h ++ [Heap.StrokeObject pts c newPosition])
               ++ [Heap.StrokesArray (<[i:=length h]> elems)]) !! l = Some o).
  { intros l o Hl. rewrite <- app_assoc. apply lookup_app_l_Some. exact Hl. }
  assert (Hnew : ((h ++ [Heap.StrokeObject pts c newPosition])
                    ++ [Heap.StrokesArray (<[i:=length h]> elems)]) !! length h
                 = Some (Heap.StrokeObject pts c newPosition)).
  { rewrite <- app_assoc. rewrite lookup_app_r by lia.
    rewrite Nat.sub_diag. reflexivity. }
  assert (Harr : ((h ++ [Heap.StrokeObject pts c newPosition])
                    ++ [Heap.StrokesArray (<[i:=length h]> elems)])
                   !! S (length h)
                 = Some (Heap.StrokesArray (<[i:=length h]> elems))).
  { rewrite lookup_app_r by (rewrite length_app; simpl; lia).
    rewrite length_app. simpl.
    replace (S (length h) - (length h + 1))%nat with 0%nat by lia.
    reflexivity. }
  unfold Heap.read_strokes in Hread. rewrite Hprev in Hread.
  apply mapM_Some in Hread.
  pose proof (Forall2_length _ _ _ Hread) as Hlen.
  destruct (lookup_lt_is_Some_2 old i ltac:(lia)) as [stroke Hstroke].
  pose proof (Forall2_lookup_lr _ _ _ _ _ _ Hread Hi Hstroke) as Href_read.
  split; [split; [lia | apply lookup_ge_None_2; lia] |].
  split; [exact Hkeep |].
  split.
  { exists (<[i:=length h]> elems), (length h).
    split; [exact Harr |]. split; [apply length_insert |].
    split; [intros j Hj; apply list_lookup_insert_ne; congruence |].
    split; [apply list_lookup_insert_eq; exact Hi_lt | exact Hnew]. }
  split.
  { unfold Heap.read_strokes. rewrite Harr. apply mapM_Some.
    apply Forall2_same_length_lookup. split.
    - rewrite length_insert. unfold repositionStroke. rewrite length_imap.
      exact Hlen.
    - intros j r st Hr Hst. rewrite repositionStroke_lookup in Hst.
      destruct (old !! j) as [st0 |] eqn:Hst0; [| discriminate].
      simpl in Hst. injection Hst as <-.
      destruct (Nat.eqb_spec j i) as [-> | Hne].
      + rewrite list_lookup_insert_eq in Hr by exact Hi_lt.
        injection Hr as <-. rewrite Hstroke in Hst0. injection Hst0 as <-.
        unfold Heap.read_stroke in Href_read. rewrite Href in Href_read.
        destruct (h !! pts) as [[ps | |] |] eqn:Hpts; try discriminate.
        injection Href_read as <-.
        unfold Heap.read_stroke. rewrite Hnew, (Hkeep _ _ Hpts). reflexivity.
      + rewrite list_lookup_insert_ne in Hr by congruence.
        pose proof (Forall2_lookup_lr _ _ _ _ _ _ Hread Hr Hst0) as Hrd.
        rewrite <- app_assoc. apply HeapFacts.read_stroke_grows. exact Hrd. }
  split; [unfold repositionStroke; apply length_imap |].
  split.
  { intros j Hj. rewrite repositionStroke_lookup.
    destruct (Nat.eqb_spec j i) as [-> | _]; [congruence |].
    destruct (old !! j); reflexivity. }
  split.
  { exists stroke. split; [exact Hstroke |].
    rewrite repositionStroke_lookup, Hstroke. simpl.
    rewrite Nat.eqb_refl. reflexivity. }
  intros canvasRef canvas s o qx qy Hdrag <- ->. split.
  - rewrite (handleMouseMove_dragging canvasRef i o s qx qy Hdrag).
    reflexivity.
  - rewrite (handleTouchMove_dragging canvas i o s _ _ Hdrag).
    replace (qx + rect_left canvas - rect_left canvas) with qx by lia.
    replace (qy + rect_top canvas - rect_top canvas) with qy by lia.
    reflexivity.
Qed.

Lemma reposition_frame_witness :
  let path := [{| x := 0; y := 0 |}; {| x := 9; y := 0 |}; {| x := 0; y := 9 |}] in
  let h := [Heap.PointsArray path;
            Heap.StrokeObject 0 (str "#cdecde") origin;
            Heap.PointsArray [origin; {| x := 3; y := 4 |}];
            Heap.StrokeObject 2 (str "#000000") {| x := 1; y := 1 |};
            Heap.StrokesArray [1; 3]%nat] in
  let result := Heap.repositionStored 1 {| x := 7; y := 8 |} 4%nat h in
  fst result !! 4%nat = Some (Heap.StrokesArray [1; 3]%nat)
  /\ Heap.read_strokes (fst result) (snd result)
     = Some [{| points := path; color := str "#cdecde"; position := origin |};
             {| points := [origin; {| x := 3; y := 4 |}];
                color := str "#000000"; position := {| x := 7; y := 8 |} |}].
Proof.
  intros path h result.
  destruct (reposition_frame h 4%nat [1; 3]%nat
              [{| points := path; color := str "#cdecde"; position := origin |};
               {| points := [origin; {| x := 3; y := 4 |}];
                  color := str "#000000"; position := {| x := 1; y := 1 |} |}]
              1%nat {| x := 7; y := 8 |} 3%nat 2%nat (str "#000000")
              {| x := 1; y := 1 |} eq_refl eq_refl eq_refl eq_refl
              (fst result) (snd result) eq_refl)
    as (_ & Hkeep & _ & Hread & _).
  split; [apply Hkeep; reflexivity | exact Hread].
Defined.

(** ** The codec: [JSON.parse] reads back what [JSON.stringify] writes *)

Module JSONFacts.
Import JSON.
Local Open Scope N_scope.

(** Decides the character tests of a goal by case analysis on the
    comparisons it contains. *)
Ltac chars :=
  repeat match goal with
         | |- context [N.eqb ?a ?b] => destruct (N.eqb_spec a b)
         | |- context [N.leb ?a ?b] => destruct (N.leb_spec a b)
         | |- context [N.ltb ?a ?b] => destruct (N.ltb_spec a b)
         end;
  simpl; try reflexivity; try discriminate; try lia.

Lemma read_digits_digit_chars (d : Decimal.uint) (rest : list N) :
  no_digit_ahead rest -> read_digits (digit_chars d ++ rest) = (d, rest).
Proof.
  intros Hrest.
  induction d as [| d IH | d IH | d IH | d IH | d IH | d IH | d IH | d IH
                  | d IH | d IH];
    simpl; try (rewrite IH; reflexivity).
  destruct rest as [| c r]; [reflexivity |].
  simpl in *. rewrite Hrest. reflexivity.
Qed.

Lemma nzhead_shape (d : Decimal.uint) :
  match Decimal.nzhead d with Decimal.D0 _ => False | _ => True end.
Proof. induction d; simpl; auto. Qed.

Lemma unorm_canonical (d : Decimal.uint) : canonical (Decimal.unorm d).
Proof.
  unfold Decimal.unorm. pose proof (nzhead_shape d) as H.
  destruct (Decimal.nzhead d); simpl; try contradiction; auto.
Qed.

Lemma to_uint_canonical (n : N) : canonical (N.to_uint n).
Proof.
  rewrite <- (DecimalN.Unsigned.of_to n) at 1.
  rewrite DecimalN.Unsigned.to_of. apply unorm_canonical.
Qed.

Lemma digit_chars_head (d : Decimal.uint) :
  d <> Decimal.Nil ->
  exists c t, digit_chars d = c :: t /\ is_digit c = true.
Proof. destruct d; intros H; try congruence; simpl; eauto. Qed.

Lemma to_uint_nonnil (n : N) : N.to_uint n <> Decimal.Nil.
Proof. pose proof (to_uint_canonical n) as H. intros E. rewrite E in H. exact H. Qed.

Lemma parse_int_digit_chars (d : Decimal.uint) (rest : list N) :
  canonical d -> no_digit_ahead rest ->
  parse_int (digit_chars d ++ rest) = Some (d, rest).
Proof.
  intros Hd Hrest. pose proof (read_digits_digit_chars d rest Hrest) as Hread.
  destruct d; simpl in Hd; try contradiction; subst;
    unfold parse_int; simpl digit_chars; simpl app; simpl N.eqb; cbv iota;
    try (simpl is_digit; cbv iota; simpl digit_chars in Hread;
         simpl app in Hread; rewrite Hread; reflexivity);
    try reflexivity.
Qed.

Lemma parse_exp_digits_digit_chars (neg : bool) (n : N) (rest : list N) :
  no_digit_ahead rest ->
  parse_exp_digits neg (digit_chars (N.to_uint n) ++ rest)
  = Some (signed neg n, rest).
Proof.
  intros Hrest. unfold parse_exp_digits.
  rewrite read_digits_digit_chars by exact Hrest.
  pose proof (to_uint_nonnil n) as Hnn.
  destruct (N.to_uint n) eqn:Hd; try congruence;
    rewrite <- Hd, DecimalN.Unsigned.of_to; reflexivity.
Qed.

Lemma delimited_no_digit (rest : list N) : delimited rest -> no_digit_ahead rest.
Proof.
  destruct rest as [| c r]; simpl; [auto |].
  intros [-> | [-> | ->]]; reflexivity.
Qed.

Lemma parse_number_number_chars (m e : Z) (rest : list N) :
  delimited rest ->
  parse_number (number_chars m e ++ rest) = Some (JNum m e, rest).
Proof.
  intros Hrest. pose proof (delimited_no_digit rest Hrest) as Hnd.
  unfold number_chars.
  set (expo := if (e =? 0)%Z then []
               else 101 :: (if (e <? 0)%Z then [45] else [])
                           ++ digit_chars (N.to_uint (Z.abs_N e))).
  assert (Hexp : parse_exp (expo ++ rest) = Some (e, rest)).
  { subst expo. destruct (Z.eqb_spec e 0) as [-> | Hne].
    - simpl. destruct rest as [| c r]; [reflexivity |].
      simpl in Hrest. unfold parse_exp.
      destruct Hrest as [-> | [-> | ->]]; reflexivity.
    - unfold parse_exp. simpl app. simpl N.eqb. cbv iota. simpl orb. cbv iota.
      destruct (Z.ltb_spec e 0) as [Hneg | Hpos].
      + simpl app. simpl N.eqb. cbv iota.
        rewrite parse_exp_digits_digit_chars by exact Hnd.
        f_equal. f_equal. unfold signed. rewrite N2Z.inj_abs_N. lia.
      + simpl app.
        destruct (digit_chars_head (N.to_uint (Z.abs_N e)) (to_uint_nonnil _))
          as (c & t & Hct & Hc).
        pose proof (parse_exp_digits_digit_chars false (Z.abs_N e) rest Hnd)
          as Hpe.
        rewrite Hct in *. simpl app in *.
        assert (Hc45 : (c =? 45) = false)
          by (unfold is_digit in Hc; revert Hc; chars).
        assert (Hc43 : (c =? 43) = false)
          by (unfold is_digit in Hc; revert Hc; chars).
        cbv beta iota. rewrite Hc45, Hc43, Hpe. f_equal. f_equal.
        unfold signed. rewrite N2Z.inj_abs_N. lia. }
  assert (Hfrac : parse_frac (expo ++ rest) = Some (Decimal.Nil, expo ++ rest)).
  { unfold parse_frac. destruct (expo ++ rest) as [| c r] eqn:Hs; [reflexivity |].
    assert (Hc : (c =? 46) = false).
    { subst expo. destruct (e =? 0)%Z.
      - simpl in Hs. subst rest. simpl in Hrest.
        destruct Hrest as [-> | [-> | ->]]; reflexivity.
      - simpl in Hs. injection Hs as <- _. reflexivity. }
    rewrite Hc. reflexivity. }
  assert (Hno : no_digit_ahead (expo ++ rest)).
  { subst expo. destruct (e =? 0)%Z; [exact Hnd | reflexivity]. }
  pose proof (parse_int_digit_chars (N.to_uint (Z.abs_N m)) (expo ++ rest)
                (to_uint_canonical _) Hno) as Hint.
  unfold parse_number.
  destruct (Z.ltb_spec m 0) as [Hneg | Hpos].
  - simpl app. cbv beta iota. rewrite N.eqb_refl. cbv beta iota.
    rewrite <- app_assoc, Hint, Hfrac, Hexp.
    rewrite DecimalFacts.app_nil_r, DecimalN.Unsigned.of_to. simpl.
    f_equal. f_equal. f_equal; [| lia]. unfold signed.
    rewrite N2Z.inj_abs_N. lia.
  - simpl app.
    destruct (digit_chars_head (N.to_uint (Z.abs_N m)) (to_uint_nonnil _))
      as (c & t & Hct & Hc).
    rewrite <- app_assoc. rewrite Hct in *. simpl app in *.
    assert (Hc45 : (c =? 45) = false)
      by (unfold is_digit in Hc; revert Hc; chars).
    cbv beta iota. rewrite Hc45, Hint, Hfrac, Hexp.
    rewrite DecimalFacts.app_nil_r, DecimalN.Unsigned.of_to. simpl.
    f_equal. f_equal. f_equal; [| lia]. unfold signed.
    rewrite N2Z.inj_abs_N. lia.
Qed.

(** *** Strings *)

Lemma hex_value_hex_digit (d : N) :
  d < 16 -> hex_value (hex_digit d) = Some d.
Proof.
  intros Hd. unfold hex_digit, hex_value, is_digit.
  destruct (N.ltb_spec d 10).
  - replace (48 <=? 48 + d) with true by (symmetry; apply N.leb_le; lia).
    replace (48 + d <=? 57) with true by (symmetry; apply N.leb_le; lia).
    simpl. f_equal. lia.
  - replace (87 + d <=? 57) with false by (symmetry; apply N.leb_gt; lia).
    rewrite andb_false_r.
    replace (97 <=? 87 + d) with true by (symmetry; apply N.leb_le; lia).
    replace (87 + d <=? 102) with true by (symmetry; apply N.leb_le; lia).
    simpl. f_equal. lia.
Qed.

Lemma hex4_unicode (c : N) :
  c < 65536 ->
  hex4 (hex_digit (c / 4096)) (hex_digit ((c / 256) mod 16))
       (hex_digit ((c / 16) mod 16)) (hex_digit (c mod 16)) = Some c.
Proof.
  intros Hc. unfold hex4.
  assert (H1 : c / 4096 < 16) by (apply N.Div0.div_lt_upper_bound; lia).
  assert (H2 : (c / 256) mod 16 < 16) by (apply N.mod_lt; lia).
  assert (H3 : (c / 16) mod 16 < 16) by (apply N.mod_lt; lia).
  assert (H4 : c mod 16 < 16) by (apply N.mod_lt; lia).
  rewrite !hex_value_hex_digit by assumption.
  f_equal.
  assert (E256 : c / 256 = c / 16 / 16)
    by (rewrite N.Div0.div_div; reflexivity).
  assert (E4096 : c / 4096 = c / 16 / 16 / 16)
    by (rewrite !N.Div0.div_div; reflexivity).
  rewrite E4096, E256.
  pose proof (N.div_mod c 16 ltac:(lia)) as E0.
  pose proof (N.div_mod (c / 16) 16 ltac:(lia)) as E1.
  pose proof (N.div_mod (c / 16 / 16) 16 ltac:(lia)) as E2.
  clear H1 H2 H3 H4 E256 E4096 Hc.
  generalize dependent (c mod 16). generalize dependent ((c / 16) mod 16).
  generalize dependent ((c / 16 / 16) mod 16).
  generalize dependent (c / 16 / 16 / 16).
  generalize dependent (c / 16 / 16). generalize dependent (c / 16).
  intros. lia.
Qed.

Lemma parse_chars_escape (c : N) (tail : list N) :
  c < 65536 ->
  parse_chars (unicode_escape c ++ tail) = prepend c (parse_chars tail).
Proof.
  intros Hc. unfold unicode_escape. simpl app.
  change (parse_chars (92 :: 117 :: ?h1 :: ?h2 :: ?h3 :: ?h4 :: tail))
    with (match hex4 h1 h2 h3 h4 with
          | Some u => prepend u (parse_chars tail)
          | None => None
          end).
  rewrite hex4_unicode by exact Hc. reflexivity.
Qed.

Lemma parse_chars_plain (c : N) (tail : list N) :
  c <> 34 -> c <> 92 -> 32 <= c ->
  parse_chars (c :: tail) = prepend c (parse_chars tail).
Proof.
  intros H34 H92 H32. simpl.
  destruct (N.eqb_spec c 34); [contradiction |].
  destruct (N.eqb_spec c 92); [contradiction |].
  destruct (N.ltb_spec c 32); [lia | reflexivity].
Qed.

Lemma parse_chars_quote_unit (c : N) (tail : list N) :
  parse_chars (quote_unit c ++ tail) = prepend c (parse_chars tail).
Proof.
  unfold quote_unit.
  destruct (N.eqb_spec c 8) as [-> | N8]; [reflexivity |].
  destruct (N.eqb_spec c 9) as [-> | N9]; [reflexivity |].
  destruct (N.eqb_spec c 10) as [-> | N10]; [reflexivity |].
  destruct (N.eqb_spec c 12) as [-> | N12]; [reflexivity |].
  destruct (N.eqb_spec c 13) as [-> | N13]; [reflexivity |].
  destruct (N.eqb_spec c 34) as [-> | N34]; [reflexivity |].
  destruct (N.eqb_spec c 92) as [-> | N92]; [reflexivity |].
  destruct ((c <? 32) || is_high_surrogate c || is_low_surrogate c) eqn:Hesc.
  - apply parse_chars_escape.
    unfold is_high_surrogate, is_low_surrogate in Hesc.
    revert Hesc. chars.
  - apply orb_false_elim in Hesc. destruct Hesc as [Hesc _].
    apply orb_false_elim in Hesc. destruct Hesc as [Hlt _].
    apply N.ltb_ge in Hlt. apply parse_chars_plain; assumption.
Qed.

Lemma surrogate_plain (c : N) :
  is_high_surrogate c = true \/ is_low_surrogate c = true ->
  c <> 34 /\ c <> 92 /\ 32 <= c.
Proof.
  unfold is_high_surrogate, is_low_surrogate.
  intros [H | H]; revert H; chars.
Qed.

Lemma parse_chars_quote_units_bounded (n : nat) (s rest : list N) :
  (length s <= n)%nat ->
  parse_chars (quote_units s ++ 34 :: rest) = Some (s, rest).
Proof.
  revert s. induction n as [| n IH]; intros s Hlen.
  - destruct s; [reflexivity | simpl in Hlen; lia].
  - destruct s as [| c r]; [reflexivity |]. simpl in Hlen.
    simpl quote_units.
    destruct (is_high_surrogate c) eqn:Hhigh.
    + destruct r as [| d r'].
      * rewrite parse_chars_quote_unit. reflexivity.
      * destruct (is_low_surrogate d) eqn:Hlow.
        -- simpl app.
           destruct (surrogate_plain c (or_introl Hhigh)) as (? & ? & ?).
           destruct (surrogate_plain d (or_intror Hlow)) as (? & ? & ?).
           rewrite parse_chars_plain by assumption.
           rewrite parse_chars_plain by assumption.
           rewrite (IH r') by (simpl in Hlen; lia). reflexivity.
        -- rewrite <- app_assoc, parse_chars_quote_unit.
           rewrite (IH (d :: r')) by lia. reflexivity.
    + rewrite <- app_assoc, parse_chars_quote_unit.
      rewrite (IH r) by lia. reflexivity.
Qed.

Lemma parse_chars_quote_units (s rest : list N) :
  parse_chars (quote_units s ++ 34 :: rest) = Some (s, rest).
Proof. apply (parse_chars_quote_units_bounded (length s)). lia. Qed.

(** *** Values *)

Lemma value_start_facts (c : N) :
  value_start c = true ->
  is_ws c = false /\ (c =? 93) = false /\ (c =? 125) = false
  /\ (c =? 44) = false.
Proof.
  unfold value_start, is_ws, is_digit. intros H.
  repeat split; revert H; chars.
Qed.

Lemma number_chars_head (m e : Z) :
  exists c t, number_chars m e = c :: t /\ (c = 45 \/ is_digit c = true).
Proof.
  unfold number_chars. destruct (m <? 0)%Z.
  - simpl. eauto.
  - destruct (digit_chars_head (N.to_uint (Z.abs_N m)) (to_uint_nonnil _))
      as (c & t & Hct & Hc).
    rewrite Hct. simpl. eauto.
Qed.

Lemma stringify_head (j : json) :
  exists c t, stringify j = c :: t /\ value_start c = true.
Proof.
  destruct j as [| [|] | m e | s | items | members]; simpl;
    try (eexists _, _; split; [reflexivity | reflexivity]).
  destruct (number_chars_head m e) as (c & t & Hct & [-> | Hc]);
    rewrite Hct; exists c, t || (eexists _, _); split; try reflexivity.
  unfold value_start. rewrite Hc.
  repeat rewrite ?orb_true_r, ?orb_true_l. reflexivity.
Qed.

Lemma skip_ws_head (c : N) (t : list N) :
  is_ws c = false -> skip_ws (c :: t) = c :: t.
Proof. intros H. simpl. rewrite H. reflexivity. Qed.

Lemma parse_value_number (n : nat) (c : N) (t : list N) :
  c = 45 \/ is_digit c = true ->
  parse_value (S n) (c :: t) = parse_number (c :: t).
Proof.
  intros Hc. simpl.
  assert (Hws : is_ws c = false)
    by (unfold is_ws, is_digit in *; destruct Hc as [-> | Hc];
        [reflexivity | revert Hc; chars]).
  rewrite Hws.
  assert (Hne : (c =? 123) = false /\ (c =? 91) = false /\ (c =? 34) = false
                /\ (c =? 110) = false /\ (c =? 116) = false
                /\ (c =? 102) = false).
  { unfold is_digit in Hc. destruct Hc as [-> | Hc]; [repeat split |].
    repeat split; revert Hc; chars. }
  destruct Hne as (-> & -> & -> & -> & -> & ->). reflexivity.
Qed.

Lemma join_cons (sep : N) (p : list N) (rest : list (list N)) :
  join sep (p :: rest)
  = p ++ match rest with [] => [] | _ :: _ => sep :: join sep rest end.
Proof. reflexivity. Qed.

Lemma stringify_members (members : list (jsstring * json)) :
  stringify (JObj members) = 123 :: join 44 (map member_text members) ++ [125].
Proof. reflexivity. Qed.

Lemma member_text_head (k : jsstring) (v : json) (tail : list N) :
  member_text (k, v) ++ tail
  = 34 :: quote_units k ++ 34 :: 58 :: stringify v ++ tail.
Proof.
  unfold member_text, quote. simpl. rewrite <- !app_assoc. reflexivity.
Qed.

Lemma reads_values_step (n : nat) :
  reads_elements n -> reads_members n -> reads_values (S n).
Proof.
  intros Helems Hmembers j rest Hneed Hrest.
  destruct j as [| [|] | m e | s | items | members].
  - reflexivity.
  - reflexivity.
  - reflexivity.
  - destruct (number_chars_head m e) as (c & t & Hct & Hc).
    simpl stringify. rewrite Hct. simpl app.
    rewrite parse_value_number by exact Hc.
    change (c :: t ++ rest) with ((c :: t) ++ rest). rewrite <- Hct.
    apply parse_number_number_chars. exact Hrest.
  - simpl stringify. unfold quote. simpl app. rewrite <- app_assoc.
    change (parse_value (S n) (34 :: ?r))
      with (match parse_chars r with
            | Some (k, r') => Some (JStr k, r')
            | None => None
            end).
    simpl app. rewrite parse_chars_quote_units. reflexivity.
  - simpl in Hneed. simpl stringify. simpl app. rewrite <- app_assoc. simpl app.
    destruct items as [| v vs]; [reflexivity |].
    assert (Hskip : skip_ws (join 44 (map stringify (v :: vs)) ++ 93 :: rest)
                    = join 44 (map stringify (v :: vs)) ++ 93 :: rest
                    /\ exists c t,
                         join 44 (map stringify (v :: vs)) ++ 93 :: rest = c :: t
                         /\ (c =? 93) = false).
    { destruct (stringify_head v) as (c & t & Hv & Hc).
      destruct (value_start_facts c Hc) as (Hws & H93 & _).
      simpl map. simpl join. rewrite Hv. simpl app.
      split; [apply skip_ws_head; exact Hws | eauto]. }
    destruct Hskip as (Hskip & c & t & Hct & H93).
    change (parse_value (S n) (91 :: ?r))
      with (match skip_ws r with
            | c' :: r' =>
                if c' =? 93 then Some (JArr [], r')
                else match parse_elements n r with
                     | Some (vs, r'') => Some (JArr vs, r'')
                     | None => None
                     end
            | [] => None
            end).
    rewrite Hskip. rewrite Hct at 1. rewrite H93.
    rewrite Helems; [reflexivity | discriminate | lia].
  - simpl in Hneed. rewrite stringify_members. simpl app.
    rewrite <- app_assoc. simpl app.
    destruct members as [| [k v] ms]; [reflexivity |].
    assert (Hhead : exists t,
               join 44 (map member_text ((k, v) :: ms)) ++ 125 :: rest
               = 34 :: t).
    { change (map member_text ((k, v) :: ms))
        with (member_text (k, v) :: map member_text ms).
      rewrite join_cons, <- app_assoc, member_text_head. eauto. }
    destruct Hhead as (t & Ht).
    change (parse_value (S n) (123 :: ?r))
      with (match skip_ws r with
            | c' :: r' =>
                if c' =? 125 then Some (JObj [], r')
                else match parse_members n r with
                     | Some (ms, r'') => Some (JObj ms, r'')
                     | None => None
                     end
            | [] => None
            end).
    rewrite Ht at 1. simpl skip_ws. cbv beta iota.
    change (34 =? 125) with false. cbv beta iota.
    rewrite Hmembers; [reflexivity | discriminate | lia].
Qed.

Lemma parse_elements_S (n : nat) (s : list N) :
  parse_elements (S n) s
  = match parse_value n s with
    | None => None
    | Some (v, r) =>
        match skip_ws r with
        | c :: r' =>
            if c =? 44 then
              match parse_elements n r' with
              | Some (vs, r'') => Some (v :: vs, r'')
              | None => None
              end
            else if c =? 93 then Some ([v], r')
            else None
        | [] => None
        end
    end.
Proof. reflexivity. Qed.

Lemma parse_members_quote (n : nat) (r : list N) :
  parse_members (S n) (34 :: r)
  = match parse_chars r with
    | None => None
    | Some (k, r1) =>
        match skip_ws r1 with
        | c1 :: r2 =>
            if c1 =? 58 then
              match parse_value n r2 with
              | None => None
              | Some (v, r3) =>
                  match skip_ws r3 with
                  | c3 :: r4 =>
                      if c3 =? 44 then
                        match parse_members n r4 with
                        | Some (ms, r5) => Some ((k, v) :: ms, r5)
                        | None => None
                        end
                      else if c3 =? 125 then Some ([(k, v)], r4)
                      else None
                  | [] => None
                  end
              end
            else None
        | [] => None
        end
    end.
Proof. reflexivity. Qed.

Lemma reads_elements_step (n : nat) :
  reads_values n -> reads_elements n -> reads_elements (S n).
Proof.
  intros Hvalues Helems items rest Hne Hneed.
  destruct items as [| v vs]; [congruence |].
  simpl in Hneed. rewrite parse_elements_S.
  change (map stringify (v :: vs)) with (stringify v :: map stringify vs).
  rewrite join_cons, <- app_assoc.
  destruct vs as [| v' vs'].
  - simpl app. rewrite Hvalues; [| lia | simpl; auto]. reflexivity.
  - change (map stringify (v' :: vs'))
      with (stringify v' :: map stringify vs').
    cbv beta iota. rewrite <- app_comm_cons.
    rewrite Hvalues; [| lia | simpl; auto].
    rewrite skip_ws_head by reflexivity. rewrite N.eqb_refl.
    change (stringify v' :: map stringify vs')
      with (map stringify (v' :: vs')).
    rewrite Helems; [reflexivity | discriminate | simpl in *; lia].
Qed.

Lemma reads_members_step (n : nat) :
  reads_values n -> reads_members n -> reads_members (S n).
Proof.
  intros Hvalues Hmembers members rest Hne Hneed.
  destruct members as [| [k v] ms]; [congruence |].
  simpl in Hneed.
  change (map member_text ((k, v) :: ms))
    with (member_text (k, v) :: map member_text ms).
  rewrite join_cons, <- app_assoc, member_text_head.
  rewrite parse_members_quote, parse_chars_quote_units.
  rewrite skip_ws_head by reflexivity. rewrite N.eqb_refl.
  destruct ms as [| kv' ms'].
  - simpl app. rewrite Hvalues; [| lia | simpl; auto]. reflexivity.
  - change (map member_text (kv' :: ms'))
      with (member_text kv' :: map member_text ms').
    cbv beta iota. rewrite <- app_comm_cons.
    rewrite Hvalues; [| lia | simpl; auto].
    rewrite skip_ws_head by reflexivity. rewrite N.eqb_refl.
    change (member_text kv' :: map member_text ms')
      with (map member_text (kv' :: ms')).
    rewrite Hmembers; [reflexivity | discriminate | simpl in *; lia].
Qed.

Lemma reads_all (n : nat) :
  reads_values n /\ reads_elements n /\ reads_members n.
Proof.
  induction n as [| n (Hv & He & Hm)].
  - split; [| split].
    + intros j rest Hneed _. destruct j; simpl in Hneed; lia.
    + intros [| v vs] rest Hne Hneed; [congruence | simpl in Hneed; lia].
    + intros [| kv ms] rest Hne Hneed; [congruence | simpl in Hneed; lia].
  - split; [apply reads_values_step; assumption |].
    split; [apply reads_elements_step | apply reads_members_step]; assumption.
Qed.

(** *** The fuel of [parse] suffices *)

Lemma in_sum_bound {A : Type} (f : A -> nat) (l : list A) (a : A) :
  In a l -> (S (f a) <= list_sum (map (fun a => S (f a)) l))%nat.
Proof.
  induction l as [| b l IH]; simpl; [contradiction |].
  intros [-> | Hin]; [lia | specialize (IH Hin); lia].
Qed.

Lemma sum_join_bound {A : Type} (f : A -> nat) (g : A -> list N) (l : list A) :
  (forall a, In a l -> (f a <= length (g a))%nat) ->
  (list_sum (map (fun a => S (f a)) l) <= S (length (join 44 (map g l))))%nat.
Proof.
  induction l as [| a l IH]; intros Hall; [simpl; lia |].
  change (map g (a :: l)) with (g a :: map g l). rewrite join_cons.
  rewrite length_app. simpl list_sum.
  pose proof (Hall a (or_introl eq_refl)) as Ha.
  specialize (IH (fun b Hb => Hall b (or_intror Hb))).
  destruct l as [| b l']; [simpl; lia |].
  change (map g (b :: l')) with (g b :: map g l') in *.
  simpl in IH. simpl. lia.
Qed.

Lemma need_bounded (n : nat) (j : json) :
  (need j <= n)%nat -> (need j <= length (stringify j))%nat.
Proof.
  revert j. induction n as [| n IH]; intros j Hn.
  - destruct j; simpl in Hn; lia.
  - destruct j as [| b | m e | s | items | members];
      try (match goal with
           | |- context [stringify ?v] =>
               destruct (stringify_head v) as (c & t & E & _);
               rewrite E; simpl; lia
           end).
    + simpl need in *. simpl stringify. simpl length. rewrite length_app.
      simpl length.
      pose proof (sum_join_bound need stringify items) as Hsum.
      assert (Hall : forall a, In a items -> (need a <= length (stringify a))%nat).
      { intros a Ha. apply IH.
        pose proof (in_sum_bound need items a Ha). lia. }
      specialize (Hsum Hall). lia.
    + simpl need in *. rewrite stringify_members. simpl length.
      rewrite length_app. simpl length.
      pose proof (sum_join_bound (fun kv : jsstring * json => need (snd kv))
                                 member_text members) as Hsum.
      assert (Hall : forall kv, In kv members ->
                       (need (snd kv) <= length (member_text kv))%nat).
      { intros [k v] Hkv. simpl snd.
        assert (Hv : (need v <= length (stringify v))%nat).
        { apply IH.
          pose proof (in_sum_bound (fun kv : jsstring * json => need (snd kv))
                                   members (k, v) Hkv) as Hb.
          simpl in Hb. lia. }
        unfold member_text. rewrite length_app. simpl length. lia. }
      specialize (Hsum Hall). lia.
Qed.

(** [JSON.parse] is a left inverse of [JSON.stringify]. *)
Lemma parse_stringify (j : json) : parse (stringify j) = Some j.
Proof.
  unfold parse, parse_with.
  destruct (reads_all (2 * length (stringify j) + 1)) as (Hvalues & _).
  pose proof (Hvalues j [] ltac:(pose proof (need_bounded _ j (le_n _)); lia) I)
    as Hread.
  rewrite app_nil_r in Hread. rewrite Hread. reflexivity.
Qed.

(** *** The parser consumes input, and its fuel never runs out *)

Lemma skip_ws_length (s : list N) : (length (skip_ws s) <= length s)%nat.
Proof.
  induction s as [| c r IH]; simpl; [lia |].
  destruct (is_ws c); simpl; lia.
Qed.

Lemma skip_ws_cons_length (s r : list N) (c : N) :
  skip_ws s = c :: r -> (length r < length s)%nat.
Proof.
  intros H. pose proof (skip_ws_length s) as Hle. rewrite H in Hle.
  simpl in Hle. lia.
Qed.

Lemma strip_prefix_length (p s r : list N) :
  p <> [] -> strip_prefix p s = Some r -> (length r < length s)%nat.
Proof.
  revert s. induction p as [| a p IH]; intros s Hp H; [congruence |].
  destruct s as [| b s]; simpl in H; [discriminate |].
  destruct (a =? b); [| discriminate].
  destruct p as [| a' p'].
  - simpl in H. injection H as <-. simpl. lia.
  - specialize (IH s ltac:(discriminate) H). simpl. lia.
Qed.

Lemma read_digits_length (s : list N) :
  (length (snd (read_digits s)) <= length s)%nat.
Proof.
  induction s as [| c r IH]; simpl; [lia |].
  destruct (is_digit c); [| simpl; lia].
  destruct (read_digits r) as [d r']. simpl in *. lia.
Qed.

Lemma prepend_Some (c : N) (o : option (list N * list N)) k r :
  prepend c o = Some (k, r) -> exists k', o = Some (k', r).
Proof.
  destruct o as [[k' r'] |]; simpl; [| discriminate].
  intros [= _ <-]. eauto.
Qed.

Lemma parse_chars_length_bounded (n : nat) (s : list N) k r :
  (length s <= n)%nat -> parse_chars s = Some (k, r) ->
  (length r < length s)%nat.
Proof.
  revert s k r. induction n as [| n IH]; intros s k r Hn H.
  - destruct s; [discriminate | simpl in Hn; lia].
  - destruct s as [| c s]; [discriminate |]. simpl in Hn. simpl in H.
    destruct (c =? 34); [injection H as _ <-; simpl; lia |].
    destruct (c =? 92).
    + destruct s as [| e r1]; [discriminate |].
      destruct (e =? 117).
      * destruct r1 as [| h1 [| h2 [| h3 [| h4 r2]]]]; try discriminate.
        destruct (hex4 h1 h2 h3 h4); [| discriminate].
        apply prepend_Some in H. destruct H as [k' H].
        apply IH in H; simpl in *; lia.
      * destruct (unescape e); [| discriminate].
        apply prepend_Some in H. destruct H as [k' H].
        apply IH in H; simpl in *; lia.
    + destruct (c <? 32); [discriminate |].
      apply prepend_Some in H. destruct H as [k' H].
      apply IH in H; simpl in *; lia.
Qed.

Lemma parse_chars_length (s : list N) k r :
  parse_chars s = Some (k, r) -> (length r < length s)%nat.
Proof. apply (parse_chars_length_bounded (length s)). lia. Qed.

Lemma parse_int_length (s : list N) d r :
  parse_int s = Some (d, r) -> (length r < length s)%nat.
Proof.
  unfold parse_int. destruct s as [| c s]; [discriminate |].
  destruct (c =? 48); [intros [= _ <-]; simpl; lia |].
  destruct (is_digit c) eqn:Hc; [| discriminate].
  intros [= H]. simpl in H. rewrite Hc in H.
  pose proof (read_digits_length s) as Hlen.
  destruct (read_digits s) as [d' r']. injection H as _ <-. simpl in *. lia.
Qed.

Lemma parse_frac_length (s : list N) d r :
  parse_frac s = Some (d, r) -> (length r <= length s)%nat.
Proof.
  unfold parse_frac. destruct s as [| c s]; [intros [= _ <-]; simpl; lia |].
  destruct (c =? 46); [| intros [= _ <-]; simpl; lia].
  pose proof (read_digits_length s) as Hlen.
  destruct (read_digits s) as [[] r']; try discriminate;
    intros [= _ <-]; simpl in *; lia.
Qed.

Lemma parse_exp_digits_length (neg : bool) (s : list N) e r :
  parse_exp_digits neg s = Some (e, r) -> (length r <= length s)%nat.
Proof.
  unfold parse_exp_digits. pose proof (read_digits_length s) as Hlen.
  destruct (read_digits s) as [[] r']; try discriminate;
    intros [= _ <-]; simpl in *; lia.
Qed.

Lemma parse_exp_length (s : list N) e r :
  parse_exp s = Some (e, r) -> (length r <= length s)%nat.
Proof.
  unfold parse_exp. destruct s as [| c s]; [intros [= _ <-]; simpl; lia |].
  destruct ((c =? 101) || (c =? 69)); [| intros [= _ <-]; simpl; lia].
  destruct s as [| sg s']; [discriminate |].
  destruct (sg =? 45); [| destruct (sg =? 43)];
    intros H; apply parse_exp_digits_length in H; simpl in *; lia.
Qed.

Lemma parse_number_length (s : list N) v r :
  parse_number s = Some (v, r) -> (length r < length s)%nat.
Proof.
  unfold parse_number.
  set (start := match s with
                | c :: r0 => if c =? 45 then (true, r0) else (false, s)
                | [] => (false, s)
                end).
  assert (Hstart : (length (snd start) <= length s)%nat).
  { subst start. destruct s as [| c r0]; [simpl; lia |].
    destruct (c =? 45); simpl; lia. }
  destruct start as [neg s1]. simpl in Hstart.
  destruct (parse_int s1) as [[i s2] |] eqn:Hi; [| discriminate].
  destruct (parse_frac s2) as [[f s3] |] eqn:Hf; [| discriminate].
  destruct (parse_exp s3) as [[ex s4] |] eqn:He; [| discriminate].
  intros [= _ <-].
  apply parse_int_length in Hi. apply parse_frac_length in Hf.
  apply parse_exp_length in He. lia.
Qed.

Lemma keyword_length (word : string) (v : json) (s : list N) v' r :
  str word <> [] -> keyword word v s = Some (v', r) ->
  (length r < length s)%nat.
Proof.
  unfold keyword. intros Hw.
  destruct (strip_prefix (str word) s) as [r' |] eqn:Hs; [| discriminate].
  intros [= _ <-]. eapply strip_prefix_length; eauto.
Qed.

Lemma parse_value_S (n : nat) (s : list N) :
  parse_value (S n) s
  = match skip_ws s with
    | [] => None
    | c :: r =>
        if c =? 123 then
          match skip_ws r with
          | c' :: r' =>
              if c' =? 125 then Some (JObj [], r')
              else match parse_members n r with
                   | Some (ms, r'') => Some (JObj ms, r'')
                   | None => None
                   end
          | [] => None
          end
        else if c =? 91 then
          match skip_ws r with
          | c' :: r' =>
              if c' =? 93 then Some (JArr [], r')
              else match parse_elements n r with
                   | Some (vs, r'') => Some (JArr vs, r'')
                   | None => None
                   end
          | [] => None
          end
        else if c =? 34 then
          match parse_chars r with
          | Some (k, r') => Some (JStr k, r')
          | None => None
          end
        else if c =? 110 then keyword "null" JNull (c :: r)
        else if c =? 116 then keyword "true" (JBool true) (c :: r)
        else if c =? 102 then keyword "false" (JBool false) (c :: r)
        else parse_number (c :: r)
    end.
Proof. reflexivity. Qed.

Lemma parse_members_S (n : nat) (s : list N) :
  parse_members (S n) s
  = match skip_ws s with
    | c :: r => if c =? 34 then parse_members (S n) (34 :: r) else None
    | [] => None
    end.
Proof.
  destruct (skip_ws s) as [| c r] eqn:Hs.
  - simpl. rewrite Hs. reflexivity.
  - destruct (N.eqb_spec c 34) as [-> | Hne].
    + simpl. rewrite Hs. reflexivity.
    + simpl. rewrite Hs. apply N.eqb_neq in Hne. rewrite Hne. reflexivity.
Qed.

Lemma consumes_all (n : nat) : consumes n.
Proof.
  induction n as [| n (IHv & IHe & IHm)].
  - repeat split; intros; discriminate.
  - split; [| split].
    + intros s v r H. rewrite parse_value_S in H.
      destruct (skip_ws s) as [| c r0] eqn:Hs; [discriminate |].
      pose proof (skip_ws_cons_length s r0 c Hs) as Hr0.
      pose proof (skip_ws_length s) as Hss. rewrite Hs in Hss. simpl in Hss.
      destruct (c =? 123).
      { destruct (skip_ws r0) as [| c' r'] eqn:Hs'; [discriminate |].
        pose proof (skip_ws_cons_length r0 r' c' Hs').
        destruct (c' =? 125); [injection H as _ <-; lia |].
        destruct (parse_members n r0) as [[ms r''] |] eqn:Hm; [| discriminate].
        injection H as _ <-. apply IHm in Hm. lia. }
      destruct (c =? 91).
      { destruct (skip_ws r0) as [| c' r'] eqn:Hs'; [discriminate |].
        pose proof (skip_ws_cons_length r0 r' c' Hs').
        destruct (c' =? 93); [injection H as _ <-; lia |].
        destruct (parse_elements n r0) as [[vs r''] |] eqn:He; [| discriminate].
        injection H as _ <-. apply IHe in He. lia. }
      destruct (c =? 34).
      { destruct (parse_chars r0) as [[k r'] |] eqn:Hk; [| discriminate].
        injection H as _ <-. apply parse_chars_length in Hk. lia. }
      destruct (c =? 110);
        [apply keyword_length in H; [simpl in H; lia | discriminate] |].
      destruct (c =? 116);
        [apply keyword_length in H; [simpl in H; lia | discriminate] |].
      destruct (c =? 102);
        [apply keyword_length in H; [simpl in H; lia | discriminate] |].
      apply parse_number_length in H. simpl in H. lia.
    + intros s vs r H. rewrite parse_elements_S in H.
      destruct (parse_value n s) as [[v r1] |] eqn:Hv; [| discriminate].
      apply IHv in Hv.
      destruct (skip_ws r1) as [| c r'] eqn:Hs'; [discriminate |].
      pose proof (skip_ws_cons_length r1 r' c Hs').
      destruct (c =? 44).
      { destruct (parse_elements n r') as [[vs' r''] |] eqn:He; [| discriminate].
        injection H as _ <-. apply IHe in He. lia. }
      destruct (c =? 93); [| discriminate]. injection H as _ <-. lia.
    + intros s ms r H. rewrite parse_members_S in H.
      destruct (skip_ws s) as [| c r0] eqn:Hs; [discriminate |].
      pose proof (skip_ws_cons_length s r0 c Hs) as Hr0.
      destruct (c =? 34); [| discriminate].
      rewrite parse_members_quote in H.
      destruct (parse_chars r0) as [[k r1] |] eqn:Hk; [| discriminate].
      apply parse_chars_length in Hk.
      destruct (skip_ws r1) as [| c1 r2] eqn:Hs1; [discriminate |].
      pose proof (skip_ws_cons_length r1 r2 c1 Hs1).
      destruct (c1 =? 58); [| discriminate].
      destruct (parse_value n r2) as [[v r3] |] eqn:Hv; [| discriminate].
      apply IHv in Hv.
      destruct (skip_ws r3) as [| c3 r4] eqn:Hs3; [discriminate |].
      pose proof (skip_ws_cons_length r3 r4 c3 Hs3).
      destruct (c3 =? 44).
      { destruct (parse_members n r4) as [[ms' r5] |] eqn:Hm; [| discriminate].
        injection H as _ <-. apply IHm in Hm. lia. }
      destruct (c3 =? 125); [| discriminate]. injection H as _ <-. lia.
Qed.

Lemma fuel_settled_all (n : nat) : fuel_settled n.
Proof.
  induction n as [| n (IHv & IHe & IHm)].
  - repeat split; intros; lia.
  - split; [| split].
    + intros s m Hn Hm. destruct m as [| m]; [lia |].
      rewrite (parse_value_S m s), (parse_value_S n s).
      destruct (skip_ws s) as [| c r0] eqn:Hs; [reflexivity |].
      pose proof (skip_ws_cons_length s r0 c Hs) as Hr0.
      rewrite (IHm r0 m) by lia. rewrite (IHe r0 m) by lia. reflexivity.
    + intros s m Hn Hm. destruct m as [| m]; [lia |].
      rewrite (parse_elements_S m s), (parse_elements_S n s).
      rewrite (IHv s m) by lia.
      destruct (parse_value n s) as [[v r1] |] eqn:Hv; [| reflexivity].
      apply (proj1 (consumes_all n)) in Hv.
      destruct (skip_ws r1) as [| c r'] eqn:Hs'; [reflexivity |].
      pose proof (skip_ws_cons_length r1 r' c Hs').
      rewrite (IHe r' m) by lia. reflexivity.
    + intros s m Hn Hm. destruct m as [| m]; [lia |].
      rewrite (parse_members_S m s), (parse_members_S n s).
      destruct (skip_ws s) as [| c r0] eqn:Hs; [reflexivity |].
      pose proof (skip_ws_cons_length s r0 c Hs) as Hr0.
      destruct (c =? 34); [| reflexivity].
      rewrite !parse_members_quote.
      destruct (parse_chars r0) as [[k r1] |] eqn:Hk; [| reflexivity].
      apply parse_chars_length in Hk.
      destruct (skip_ws r1) as [| c1 r2] eqn:Hs1; [reflexivity |].
      pose proof (skip_ws_cons_length r1 r2 c1 Hs1).
      destruct (c1 =? 58); [| reflexivity].
      rewrite (IHv r2 m) by lia.
      destruct (parse_value n r2) as [[v r3] |] eqn:Hv; [| reflexivity].
      apply (proj1 (consumes_all n)) in Hv.
      destruct (skip_ws r3) as [| c3 r4] eqn:Hs3; [reflexivity |].
      pose proof (skip_ws_cons_length r3 r4 c3 Hs3).
      rewrite (IHm r4 m) by lia. reflexivity.
Qed.

(** The fuel of [parse] never runs out: any larger amount gives the same
    answer, so [None] is a rejection of the text. *)
Lemma parse_fuel_adequate (text : list N) (n : nat) :
  (2 * length text + 1 <= n)%nat -> parse_with n text = parse text.
Proof.
  intros Hn. unfold parse, parse_with.
  rewrite (proj1 (fuel_settled_all (2 * length text + 1)) text n); auto.
Qed.

End JSONFacts.

(** ** Persistence *)

Example stringify_document :
  saveAsCustomFormat (Some sample_canvas)
    (run (Some sample_canvas)
         [MouseDown 5 5; MouseMove 40 5; MouseMove 6 6; MouseUp;
          MouseDown 10 5; MouseMove 7 (-3); MouseUp] initial)
  = Some (json_text
      "{'backgroundImage':'data:image/png;base64,AA==','strokes':[{'points':[{'x':5,'y':5},{'x':40,'y':5},{'x':6,'y':6}],'color':'#cdecde','position':{'x':-3,'y':-8}}]}").
Proof. vm_compute. reflexivity. Qed.

Example parse_examples :
  JSON.parse (json_text " { 'a' : [1, -2.50, 3e2, true, null] , 'b':'x\u0041\n' } ")
  = Some (JObj [(str "a", JArr [JNum 1 0; JNum (-250) (-2); JNum 3 2;
                                JBool true; JNull]);
                (str "b", JStr [120; 65; 10]%N)])
  /\ JSON.parse (json_text "[01]") = None
  /\ JSON.parse (json_text "[1,]") = None
  /\ JSON.parse (json_text "{'a':1") = None
  /\ JSON.parse (json_text "'a") = None
  /\ JSON.parse (json_text "1 2") = None.
Proof. vm_compute. repeat split. Qed.

Example stringify_escapes :
  JSON.stringify (JStr [34; 92; 10; 1; 233; 55357; 56832; 56832]%N)
  = [34; 92; 34; 92; 92; 92; 110; 92; 117; 48; 48; 48; 49; 233;
     55357; 56832; 92; 117; 100; 101; 48; 48; 34]%N.
Proof. vm_compute. reflexivity. Qed.



(** ** Properties that depend on the arithmetic of doubles *)

#[local] Set Warnings "-inexact-float".

Section DoubleArithmetic.
Import Double.

(** *** Closed paths *)




(** Two examples on whole pixels, with either way of computing: ends
    (0,0) and (6,8), at distance exactly 10, are not closed; ends (0,0)
    and (6,7) are. *)
Example isClosedPath_on_pixels :
  isClosedPath hypot_direct [{| x := 0; y := 0 |}; {| x := 6; y := 8 |}] = false
  /\ isClosedPath hypot_scaled [{| x := 0; y := 0 |}; {| x := 6; y := 8 |}] = false
  /\ isClosedPath hypot_direct [{| x := 0; y := 0 |}; {| x := 6; y := 7 |}] = true
  /\ isClosedPath hypot_scaled [{| x := 0; y := 0 |}; {| x := 6; y := 7 |}] = true.
Proof. repeat split; vm_compute; reflexivity. Qed.

(** *** Dragging *)

Lemma reposition_lookup i p (l : list Stroke) j :
  imap (fun index stroke =>
          if (index =? i)%nat then withPosition p stroke else stroke) l !! j
  = (fun stroke => if (j =? i)%nat then withPosition p stroke else stroke)
      <$> l !! j.
Proof. apply list_lookup_imap. Qed.

Lemma reposition_twice i p q (l : list Stroke) :
  imap (fun index stroke =>
          if (index =? i)%nat then withPosition q stroke else stroke)
       (imap (fun index stroke =>
                if (index =? i)%nat then withPosition p stroke else stroke) l)
  = imap (fun index stroke =>
            if (index =? i)%nat then withPosition q stroke else stroke) l.
Proof.
  apply list_eq. intros j. rewrite !reposition_lookup.
  destruct (l !! j) as [stroke |]; simpl; [| reflexivity].
  destruct (j =? i)%nat; reflexivity.
Qed.

Lemma move_while_dragging canvasRef i o (s : State) qx qy :
  dragging i o s ->
  handleMouseMove canvasRef s qx qy
  = (setStrokes
       (imap (fun index stroke =>
                if (index =? i)%nat
                then withPosition {| x := qx - x o; y := qy - y o |} stroke
                else stroke)) s,
     NoInk).
Proof.
  intros (Hd & Hi & Ho). unfold handleMouseMove. rewrite Hd, Hi, Ho.
  reflexivity.
Qed.

Lemma moves_while_dragging canvasRef i o (moves : list (float * float))
  (s : State) :
  dragging i o s ->
  dragging i o (dragMoves canvasRef moves s)
  /\ strokes (dragMoves canvasRef moves s)
     = match last moves with
       | Some q =>
           imap (fun index stroke =>
                   if (index =? i)%nat
                   then withPosition {| x := fst q - x o; y := snd q - y o |}
                                     stroke
                   else stroke) (strokes s)
       | None => strokes s
       end.
Proof.
  revert s. induction moves as [| q rest IH]; intros s Hs.
  - split; [exact Hs | reflexivity].
  - change (dragMoves canvasRef (q :: rest) s)
      with (dragMoves canvasRef rest
              (fst (handleMouseMove canvasRef s (fst q) (snd q)))).
    rewrite (move_while_dragging canvasRef i o s _ _ Hs).
    change (fst (?a, NoInk)) with a.
    set (s1 := setStrokes _ s).
    assert (Hs1 : dragging i o s1) by exact Hs.
    destruct (IH s1 Hs1) as [Hdrag Hstrokes].
    split; [exact Hdrag |]. rewrite Hstrokes.
    destruct rest as [| q' rest']; [reflexivity |].
    rewrite last_cons_cons.
    destruct (last (q' :: rest')) eqn:Hlast;
      [| apply last_None in Hlast; discriminate].
    subst s1. simpl. apply reposition_twice.
Qed.

(** C7, as the design document states it, fails on doubles: the position
    [q - dragOffset] is not [pos0 + (q - p0)].  A stroke at position
    (0.1, 0.1) is grabbed at (5, 5) and moved to (7, 7): the handlers put
    it at 2.0999999999999996, while [pos0 + (q - p0)] is 2.1 in double
    arithmetic, and larger still in exact arithmetic. *)
Lemma drag_position_is_rounded :
  let pos0 := {| x := 0.1; y := 0.1 |} in
  let square := {| points := [{| x := 0; y := 0 |}; {| x := 10; y := 0 |};
                              {| x := 10; y := 10 |}; {| x := 0; y := 10 |}];
                   color := str "#cdecde"; position := pos0 |} in
  let s := setStrokes (fun _ => [square]) initial in
  let s1 := handleMouseDown (Some sample_canvas) s 5 5 in
  let s2 := fst (handleMouseMove (Some sample_canvas) s1 7 7) in
  let moved := {| x := 2.0999999999999996; y := 2.0999999999999996 |} in
  findClickedStrokeIndex (Some sample_canvas) (strokes s) 5 5 = Some 0%nat
  /\ dragOffset s1 = Some {| x := 5 - 0.1; y := 5 - 0.1 |}
  /\ strokes s2 = [withPosition moved square]
  /\ (x pos0 + (7 - 5))%float = 2.1%float
  /\ PrimFloat.ltb (x moved) (x pos0 + (7 - 5)) = true
  /\ (exists a b, exact (x moved) = Some a /\ exact (x pos0) = Some b /\
                  (a < b + (7 - 5))%Q).
Proof.
  intros pos0 square s s1 s2 moved.
  split; [vm_compute; reflexivity |].
  split; [vm_compute; reflexivity |].
  split; [vm_compute; reflexivity |].
  split; [vm_compute; reflexivity |].
  split; [vm_compute; reflexivity |].
  eexists. eexists.
  split; [vm_compute; reflexivity |].
  split; [vm_compute; reflexivity |]. vm_compute. reflexivity.
Qed.

(** C7.  A pointer-down at [p0] that hits stroke [i], whose position is
    [pos0], fixes the drag offset at [p0 - pos0]; the offset and the
    dragged index then stay the same through every move of the session,
    and after a move at [q] the dragged stroke keeps its points and color
    and sits at [q - dragOffset], both subtractions being those of double
    arithmetic. *)
Theorem drag_rigidity canvasRef (s : State) (p0x p0y : float) (i : nat)
  (stroke : Stroke) :
  findClickedStrokeIndex canvasRef (strokes s) p0x p0y = Some i ->
  strokes s !! i = Some stroke ->
  let pos0 := position stroke in
  let offset := {| x := p0x - x pos0; y := p0y - y pos0 |} in
  let s1 := handleMouseDown canvasRef s p0x p0y in
  dragOffset s1 = Some offset
  /\ forall moves : list (float * float),
       let s2 := dragMoves canvasRef moves s1 in
       isDragging s2 = true /\ draggedStrokeIndex s2 = Some i
       /\ dragOffset s2 = Some offset
       /\ forall qx qy, last moves = Some (qx, qy) ->
            strokes s2 !! i
            = Some {| points := points stroke; color := color stroke;
                      position := {| x := qx - x offset;
                                     y := qy - y offset |} |}.
Proof.
  intros Hfound Hstroke pos0 offset s1.
  assert (Hs1 : dragging i offset s1 /\ strokes s1 = strokes s).
  { subst s1. unfold handleMouseDown. rewrite Hfound, Hstroke.
    repeat split. }
  destruct Hs1 as [Hdrag Hsame].
  split; [apply Hdrag |]. intros moves s2.
  destruct (moves_while_dragging canvasRef i offset moves s1 Hdrag)
    as [(Hd & Hi & Ho) Hstrokes].
  repeat (split; [assumption |]).
  intros qx qy Hlast. fold s2 in Hstrokes. rewrite Hstrokes, Hlast.
  rewrite reposition_lookup, Hsame, Hstroke. simpl.
  rewrite Nat.eqb_refl. reflexivity.
Qed.

Lemma drag_rigidity_witness :
  let square := {| points := [{| x := 0; y := 0 |}; {| x := 10; y := 0 |};
                              {| x := 10; y := 10 |}; {| x := 0; y := 10 |}];
                   color := str "#cdecde";
                   position := {| x := 2.5; y := 2.5 |} |} in
  let s := setStrokes (fun _ => [square]) initial in
  let s2 := dragMoves (Some sample_canvas) [(30, 40); (7.25, 9)]%float
                      (handleMouseDown (Some sample_canvas) s 5 6) in
  dragOffset s2 = Some {| x := 2.5; y := 3.5 |}
  /\ strokes s2 !! 0%nat
     = Some {| points := points square; color := color square;
               position := {| x := 4.75; y := 5.5 |} |}.
Proof.
  intros square s s2.
  destruct (drag_rigidity (Some sample_canvas) s 5 6 0%nat square
              eq_refl eq_refl) as [_ Hmoves].
  destruct (Hmoves [(30, 40); (7.25, 9)]%float) as (_ & _ & Hoff & Hpos).
  split; [exact Hoff |].
  exact (Hpos 7.25%float 9%float eq_refl).
Defined.

(** *** The decimals of doubles

    The conversion [nearest_double] reads back the exact decimal
    expansion of every finite double; the facts about the format come
    from the library's specification of the primitive floats. *)

Lemma digits2_log2 (m : positive) :
  Z.pos (digits2_pos m) = Z.log2 (Z.pos m) + 1.
Proof.
  assert (Hsize : forall p, digits2_pos p = Pos.size p).
  { induction p as [p IH | p IH |]; cbn [digits2_pos Pos.size];
      [rewrite IH | rewrite IH |]; reflexivity. }
  rewrite Hsize. destruct m as [p | p |]; cbn [Z.log2 Pos.size]; lia.
Qed.

Lemma valid_exponent (s : bool) (m : positive) (e : Z) :
  valid_binary (S754_finite s m e) = true ->
  Z.max (Z.log2 (Z.pos m) + e - 52) (-1074) = e /\ e <= 971.
Proof.
  unfold valid_binary, bounded, canonical_mantissa, fexp, SpecFloat.emin.
  rewrite digits2_log2. unfold prec, emax.
  rewrite andb_true_iff, Z.eqb_eq, Z.leb_le. lia.
Qed.

Lemma round_half_even_exact (q d : Z) :
  0 < d -> round_half_even (q * d) d = q.
Proof.
  intros Hd. unfold round_half_even.
  rewrite Z.div_mul, Z.mod_mul by lia.
  destruct (Z.ltb_spec (2 * 0) d); [reflexivity | lia].
Qed.

Lemma pow2_pos (k : Z) : 0 <= k -> 0 < 2 ^ k.
Proof. intros Hk. apply Z.pow_pos_nonneg; lia. Qed.

Lemma scaled_quotient_exact (num den m e : Z) :
  0 < den ->
  num * 2 ^ Z.max (- e) 0 = den * m * 2 ^ Z.max e 0 ->
  scaled_quotient num den e = m.
Proof.
  intros Hden Hfrac. unfold scaled_quotient.
  destruct (Z.leb_spec 0 e) as [He | He].
  - rewrite Z.max_r, Z.max_l in Hfrac by lia.
    rewrite Z.pow_0_r, Z.mul_1_r in Hfrac. subst num.
    replace (den * m * 2 ^ e) with (m * (den * 2 ^ e)) by ring.
    apply round_half_even_exact. pose proof (pow2_pos e He). nia.
  - rewrite Z.max_l, Z.max_r in Hfrac by lia.
    rewrite Z.pow_0_r, Z.mul_1_r in Hfrac. rewrite Hfrac.
    replace (den * m) with (m * den) by ring.
    apply round_half_even_exact. exact Hden.
Qed.

Lemma binary_exponent_exact (num den m u v : Z) :
  0 < num -> 0 < den -> 0 < m -> 0 <= u -> 0 <= v ->
  num * 2 ^ u = den * m * 2 ^ v ->
  binary_exponent num den = Z.log2 m + v - u.
Proof.
  intros Hnum Hden Hm Hu Hv Hfrac.
  unfold binary_exponent.
  pose proof (Z.log2_nonneg num) as HA0.
  pose proof (Z.log2_nonneg den) as HD0.
  pose proof (Z.log2_nonneg m) as HL0.
  assert (Hlog : u + Z.log2 num = v + Z.log2 (den * m)).
  { rewrite <- (Z.log2_mul_pow2 num u), <- (Z.log2_mul_pow2 (den * m) v)
      by nia.
    rewrite Hfrac. reflexivity. }
  pose proof (Z.log2_mul_below den m Hden Hm) as Hbelow.
  pose proof (Z.log2_mul_above den m ltac:(lia) ltac:(lia)) as Habove.
  destruct (Z.log2_spec m Hm) as [HmL HmU].
  set (A := Z.log2 num) in *. set (D := Z.log2 den) in *.
  set (L := Z.log2 m) in *.
  pose proof (pow2_pos u Hu) as Hpu. pose proof (pow2_pos v Hv) as Hpv.
  assert (Hcases : A - D = L + v - u \/ A - D = L + v - u + 1) by lia.
  destruct Hcases as [Hb | Hb].
  - (* the estimate is the exponent *)
    assert (Hreach : den * 2 ^ (L + v) <= num * 2 ^ u).
    { rewrite Hfrac, Z.pow_add_r by lia.
      rewrite Z.mul_assoc. apply Z.mul_le_mono_nonneg_r; [lia |].
      apply Z.mul_le_mono_nonneg_l; lia. }
    destruct (Z.leb_spec 0 (A - D)) as [Hsign | Hsign].
    + destruct (Z.leb_spec (den * 2 ^ (A - D)) num) as [_ | Hlt]; [exact Hb |].
      exfalso. apply (Z.mul_lt_mono_pos_r (2 ^ u)) in Hlt; [| exact Hpu].
      rewrite <- Z.mul_assoc, <- Z.pow_add_r in Hlt by lia.
      replace (A - D + u) with (L + v) in Hlt by lia. lia.
    + destruct (Z.leb_spec den (num * 2 ^ (- (A - D)))) as [_ | Hlt];
        [exact Hb |].
      exfalso. apply (Z.mul_lt_mono_pos_r (2 ^ (L + v))) in Hlt;
        [| apply pow2_pos; lia].
      rewrite <- Z.mul_assoc, <- Z.pow_add_r in Hlt by lia.
      replace (- (A - D) + (L + v)) with u in Hlt by lia. lia.
  - (* the estimate is one above the exponent *)
    assert (Hbelow' : num * 2 ^ u < den * 2 ^ (L + v + 1)).
    { rewrite Hfrac. replace (L + v + 1) with (L + 1 + v) by lia.
      rewrite Z.pow_add_r by lia.
      rewrite Z.mul_assoc. apply Z.mul_lt_mono_pos_r; [lia |].
      apply Z.mul_lt_mono_pos_l; [lia |]. exact HmU. }
    destruct (Z.leb_spec 0 (A - D)) as [Hsign | Hsign].
    + destruct (Z.leb_spec (den * 2 ^ (A - D)) num) as [Hle | _]; [| lia].
      exfalso. apply (Z.mul_le_mono_pos_r _ _ (2 ^ u)) in Hle; [| exact Hpu].
      rewrite <- Z.mul_assoc, <- Z.pow_add_r in Hle by lia.
      replace (A - D + u) with (L + v + 1) in Hle by lia. lia.
    + destruct (Z.leb_spec den (num * 2 ^ (- (A - D)))) as [Hle | _]; [| lia].
      exfalso. apply (Z.mul_le_mono_pos_r _ _ (2 ^ (L + v + 1))) in Hle;
        [| apply pow2_pos; lia].
      rewrite <- Z.mul_assoc, <- Z.pow_add_r in Hle by lia.
      replace (- (A - D) + (L + v + 1)) with u in Hle by lia. lia.
Qed.

Lemma nearest_fraction_exact (num den : Z) (m : positive) (e : Z) :
  0 < num -> 0 < den ->
  valid_binary (S754_finite false m e) = true ->
  num * 2 ^ Z.max (- e) 0 = den * Z.pos m * 2 ^ Z.max e 0 ->
  nearest_fraction num den = SF2Prim (S754_finite false m e).
Proof.
  intros Hnum Hden Hvalid Hfrac. unfold nearest_fraction.
  destruct (valid_exponent _ _ _ Hvalid) as [Hexp _].
  rewrite (binary_exponent_exact num den (Z.pos m) (Z.max (- e) 0) (Z.max e 0))
    by (try exact Hfrac; lia).
  replace (Z.log2 (Z.pos m) + Z.max e 0 - Z.max (- e) 0 - 52)
    with (Z.log2 (Z.pos m) + e - 52) by lia.
  rewrite Hexp.
  rewrite (scaled_quotient_exact num den (Z.pos m) e Hden Hfrac).
  reflexivity.
Qed.

Lemma strip_zeros_spec (fuel : nat) (m e : Z) :
  e <= 0 ->
  e <= snd (strip_zeros fuel m e) <= 0 /\
  m = fst (strip_zeros fuel m e) * 10 ^ (snd (strip_zeros fuel m e) - e).
Proof.
  revert m e. induction fuel as [| fuel IH]; intros m e He; cbn [strip_zeros].
  - cbn [fst snd]. rewrite Z.sub_diag, Z.pow_0_r. lia.
  - destruct ((e <? 0) && (m mod 10 =? 0)) eqn:Hstep.
    + apply andb_true_iff in Hstep. destruct Hstep as [Hneg Hdiv].
      apply Z.ltb_lt in Hneg. apply Z.eqb_eq in Hdiv.
      destruct (IH (m / 10) (e + 1) ltac:(lia)) as [Hrange Hval].
      split; [lia |].
      set (r := strip_zeros fuel (m / 10) (e + 1)) in *.
      replace (snd r - e) with (1 + (snd r - (e + 1))) by lia.
      rewrite Z.pow_add_r, Z.pow_1_r by lia.
      rewrite (Z.div_mod m 10) at 1 by lia. rewrite Hdiv, Hval at 1. ring.
    + cbn [fst snd]. rewrite Z.sub_diag, Z.pow_0_r. lia.
Qed.

Lemma nearest_double_in_range (m e : Z) :
  m <> 0 ->
  (0 <= e -> Z.log2 (Z.abs m) + 3 * e <= 1100) ->
  (e < 0 -> -1100 <= Z.log2 (Z.abs m) + 1 + 3 * e) ->
  nearest_double m e
  = let magnitude := if 0 <=? e then nearest_fraction (Z.abs m * 10 ^ e) 1
                     else nearest_fraction (Z.abs m) (10 ^ (- e)) in
    if m <? 0 then (- magnitude)%float else magnitude.
Proof.
  intros Hm Hhigh Hlow. unfold nearest_double.
  destruct (Z.eqb_spec (Z.abs m) 0) as [H0 | _]; [lia |].
  destruct (Z.leb_spec 0 e) as [He | He]; cbn [andb].
  - destruct (Z.ltb_spec 1100 (Z.log2 (Z.abs m) + 3 * e)); [lia |].
    destruct (Z.ltb_spec e 0); [lia |]. reflexivity.
  - destruct (Z.ltb_spec e 0); [| lia]. cbn [andb].
    destruct (Z.ltb_spec (Z.log2 (Z.abs m) + 1 + 3 * e) (-1100)); [lia |].
    reflexivity.
Qed.

Lemma pow10_split (k : Z) : 0 <= k -> 10 ^ k = 2 ^ k * 5 ^ k.
Proof. intros Hk. rewrite <- Z.pow_mul_l. reflexivity. Qed.

Lemma pow10_above (k : Z) : 0 <= k -> 2 ^ (3 * k) <= 10 ^ k.
Proof.
  intros Hk. rewrite Z.pow_mul_r by lia.
  apply Z.pow_le_mono_l. lia.
Qed.

(** Reading the exact decimal of a finite double gives the double. *)
Lemma nearest_double_exact (s : bool) (m : positive) (e : Z) :
  valid_binary (S754_finite s m e) = true ->
  let signed := if s then Z.neg m else Z.pos m in
  let d := if 0 <=? e then (signed * 2 ^ e, 0)
           else strip_zeros (Z.to_nat (- e)) (signed * 5 ^ (- e)) e in
  nearest_double (fst d) (snd d) = SF2Prim (S754_finite s m e).
Proof.
  intros Hvalid signed d.
  assert (Hvalid' : valid_binary (S754_finite false m e) = true) by exact Hvalid.
  destruct (valid_exponent _ _ _ Hvalid) as [Hexp Hmax].
  pose proof (Z.log2_nonneg (Z.pos m)) as HL0.
  assert (Habs : Z.abs signed = Z.pos m) by (subst signed; destruct s; reflexivity).
  assert (Hsign : (signed <? 0) = s) by (subst signed; destruct s; reflexivity).
  assert (Hfinal : forall magnitude,
            magnitude = SF2Prim (S754_finite false m e) ->
            (if s then (- magnitude)%float else magnitude)
            = SF2Prim (S754_finite s m e)).
  { intros magnitude ->. destruct s; reflexivity. }
  destruct (Z.leb_spec 0 e) as [He | He]; subst d; cbn [fst snd].
  - (* an integer *)
    pose proof (pow2_pos e He) as Hpe.
    assert (Ha : Z.abs (signed * 2 ^ e) = Z.pos m * 2 ^ e).
    { rewrite Z.abs_mul, Habs, (Z.abs_eq (2 ^ e)) by lia. reflexivity. }
    rewrite nearest_double_in_range.
    + cbn zeta. cbn [Z.leb Z.compare]. rewrite Ha.
      replace (signed * 2 ^ e <? 0) with s.
      2:{ rewrite <- Hsign. destruct (Z.ltb_spec signed 0);
            destruct (Z.ltb_spec (signed * 2 ^ e) 0); try reflexivity; nia. }
      apply Hfinal. apply nearest_fraction_exact; [lia | lia | exact Hvalid' |].
      rewrite Z.max_r, Z.max_l by lia. rewrite !Z.pow_0_r. ring.
    + nia.
    + intros _. rewrite Ha, Z.log2_mul_pow2 by lia. lia.
    + lia.
  - (* a fraction *)
    destruct (strip_zeros_spec (Z.to_nat (- e)) (signed * 5 ^ (- e)) e
                ltac:(lia)) as [Hrange Hval].
    set (r := strip_zeros (Z.to_nat (- e)) (signed * 5 ^ (- e)) e) in *.
    set (m' := fst r) in *. set (e' := snd r) in *.
    assert (Hp5 : 0 < 5 ^ (- e)) by (apply Z.pow_pos_nonneg; lia).
    assert (Hp2 : 0 < 2 ^ (- e)) by (apply pow2_pos; lia).
    assert (HT : 0 < 10 ^ (e' - e)) by (apply Z.pow_pos_nonneg; lia).
    assert (Hq : 0 < 10 ^ (- e')) by (apply Z.pow_pos_nonneg; lia).
    assert (Hm'0 : m' <> 0).
    { intros H0. rewrite H0 in Hval. subst signed. destruct s; lia. }
    assert (Hm's : (m' <? 0) = s).
    { rewrite <- Hsign. destruct (Z.ltb_spec signed 0);
        destruct (Z.ltb_spec m' 0); try reflexivity; nia. }
    assert (Hmag : Z.pos m * 5 ^ (- e) = Z.abs m' * 10 ^ (e' - e)).
    { rewrite <- Habs, <- (Z.abs_eq (5 ^ (- e))), <- Z.abs_mul by lia.
      rewrite Hval, Z.abs_mul, (Z.abs_eq (10 ^ (e' - e))) by lia.
      reflexivity. }
    assert (Hfrac : Z.abs m' * 2 ^ (- e) = 10 ^ (- e') * Z.pos m).
    { apply (Z.mul_cancel_r _ _ (10 ^ (e' - e))); [lia |].
      transitivity (Z.pos m * 10 ^ (- e)).
      - rewrite (pow10_split (- e)) by lia.
        rewrite <- (Z.mul_assoc (Z.abs m')), (Z.mul_comm (2 ^ (- e))),
          Z.mul_assoc, <- Hmag. ring.
      - replace (- e) with (- e' + (e' - e)) at 1 by lia.
        rewrite Z.pow_add_r by lia. ring. }
    assert (Hapos : 0 < Z.abs m') by lia.
    rewrite nearest_double_in_range.
    + cbn zeta. rewrite Hm's. apply Hfinal.
      destruct (Z.leb_spec 0 e') as [He' | He'].
      * assert (e' = 0) as He0 by lia.
        apply nearest_fraction_exact; [rewrite He0; lia | lia | exact Hvalid' |].
        rewrite Z.max_l, Z.max_r by lia.
        rewrite He0, Z.pow_0_r in *. rewrite Z.pow_0_r. lia.
      * apply nearest_fraction_exact; [lia | lia | exact Hvalid' |].
        rewrite Z.max_l, Z.max_r by lia. rewrite Z.pow_0_r. lia.
    + exact Hm'0.
    + intros He'. assert (e' = 0) as He0 by lia. rewrite He0 in *.
      rewrite Z.pow_0_r in Hfrac.
      assert (Hle : Z.abs m' <= Z.pos m) by nia.
      apply Z.log2_le_mono in Hle. lia.
    + intros He'.
      assert (Hbig : 2 ^ (3 * (- e')) <= Z.abs m' * 2 ^ (- e)).
      { rewrite Hfrac. pose proof (pow10_above (- e') ltac:(lia)). nia. }
      apply Z.log2_le_mono in Hbig.
      rewrite Z.log2_pow2, Z.log2_mul_pow2 in Hbig by lia. lia.
Qed.

Lemma finite_shape (f : float) :
  PrimFloat.is_finite f = true ->
  (exists s, Prim2SF f = S754_zero s)
  \/ (exists s m e, Prim2SF f = S754_finite s m e).
Proof.
  unfold PrimFloat.is_finite. rewrite negb_true_iff, orb_false_iff.
  intros [Hnan Hinf]. unfold Prim2SF. rewrite Hnan, Hinf.
  destruct (is_zero f); [left; eexists; reflexivity |].
  destruct (Z.frexp f) as [r exp].
  destruct (shr_fexp prec emax _ _ loc_Exact) as [shr e'].
  destruct (shr_m shr); [left | right | left]; repeat eexists.
Qed.

(** The exact decimal of a finite double other than the negative zero is
    read back as that double. *)
Theorem exact_decimal_read_back (f : float) :
  PrimFloat.is_finite f = true -> f <> neg_zero ->
  reads_back exact_decimal nearest_double f.
Proof.
  intros Hfinite Hnz. split; [exact Hfinite |].
  rewrite <- (SF2Prim_Prim2SF f) at 3.
  pose proof (Prim2SF_valid f) as Hvalid.
  unfold exact_decimal.
  destruct (finite_shape f Hfinite) as [[s Hs] | (s & m & e & Hs)];
    rewrite Hs in *.
  - destruct s; [| reflexivity].
    exfalso. apply Hnz. rewrite <- (SF2Prim_Prim2SF f), Hs. reflexivity.
  - apply (nearest_double_exact s m e Hvalid).
Qed.

(** *** Save and load *)

(** What a load reads from a written number: the number itself when it is
    finite and read back, [null] when it is not finite. *)
Lemma number_read_back toString toNumber (f : float) :
  reads_back toString toNumber f ->
  evaluate toNumber (written toString (VNum f)) = VNum f.
Proof.
  intros [Hfinite Hback]. cbn [written]. rewrite Hfinite.
  destruct (toString f) as [m e]. cbn [evaluate]. simpl in Hback.
  rewrite Hback. reflexivity.
Qed.


Lemma point_written toString toNumber (p : Point) :
  evaluate toNumber (written toString (point_to_value p))
  = VObj [(str "x", evaluate toNumber (written toString (VNum (x p))));
          (str "y", evaluate toNumber (written toString (VNum (y p))))].
Proof. reflexivity. Qed.

Lemma stroke_written toString toNumber (stroke : Stroke) :
  evaluate toNumber (written toString (stroke_to_value stroke))
  = VObj [(str "points",
           VArr (map (fun p => evaluate toNumber
                                 (written toString (point_to_value p)))
                     (points stroke)));
          (str "color", VStr (color stroke));
          (str "position",
           evaluate toNumber (written toString (point_to_value (position stroke))))].
Proof.
  unfold stroke_to_value. cbn [written evaluate map fst snd].
  rewrite !map_map. reflexivity.
Qed.

Lemma strokes_written toString toNumber (l : list Stroke) :
  evaluate toNumber (written toString (strokes_to_value l))
  = VArr (map (fun stroke => evaluate toNumber
                               (written toString (stroke_to_value stroke))) l).
Proof.
  unfold strokes_to_value. cbn [written evaluate]. rewrite !map_map.
  reflexivity.
Qed.

Lemma point_read_back toString toNumber (p : Point) :
  Forall (reads_back toString toNumber) (point_coordinates p) ->
  evaluate toNumber (written toString (point_to_value p)) = point_to_value p.
Proof.
  intros Hall. rewrite point_written.
  apply Forall_cons_iff in Hall. destruct Hall as [Hx Hall].
  apply Forall_cons_iff in Hall. destruct Hall as [Hy _].
  rewrite (number_read_back _ _ _ Hx), (number_read_back _ _ _ Hy).
  reflexivity.
Qed.


Lemma points_read_back toString toNumber (pts : list Point) :
  Forall (reads_back toString toNumber) (flat_map point_coordinates pts) ->
  map (fun p => evaluate toNumber (written toString (point_to_value p))) pts
  = map point_to_value pts.
Proof.
  rewrite List.Forall_flat_map.
  induction 1 as [| p rest Hp _ IH]; [reflexivity |].
  cbn [map]. rewrite (point_read_back _ _ p Hp), IH. reflexivity.
Qed.


Lemma stroke_read_back toString toNumber (stroke : Stroke) :
  Forall (reads_back toString toNumber) (stroke_coordinates stroke) ->
  evaluate toNumber (written toString (stroke_to_value stroke))
  = stroke_to_value stroke.
Proof.
  unfold stroke_coordinates. rewrite flat_map_app, Forall_app.
  cbn [flat_map]. rewrite app_nil_r. intros [Hpts Hpos].
  rewrite stroke_written, (points_read_back _ _ _ Hpts),
    (point_read_back _ _ _ Hpos).
  reflexivity.
Qed.


Lemma strokes_read_back toString toNumber (l : list Stroke) :
  Forall (reads_back toString toNumber) (coordinates l) ->
  evaluate toNumber (written toString (strokes_to_value l))
  = strokes_to_value l.
Proof.
  unfold coordinates. rewrite List.Forall_flat_map. intros Hall.
  rewrite strokes_written. unfold strokes_to_value. f_equal.
  induction Hall as [| stroke rest Hs _ IH]; [reflexivity |].
  cbn [map]. rewrite (stroke_read_back _ _ stroke Hs), IH. reflexivity.
Qed.


(** What a load of a saved text does, whatever the numbers. *)
Lemma load_saved toString toNumber canvas canvasRef (s : State) :
  loadCustomFormat toNumber canvasRef
    (stringify toString
       (VObj [(str "backgroundImage", VStr (toDataURL canvas));
              (str "strokes", strokes_to_value (strokes s))]))
  = {| completion := Returned;
       strokesSet :=
         Some (Some (evaluate toNumber
                       (written toString (strokes_to_value (strokes s)))));
       imageSrc := match canvasRef ≫= getContext with
                   | None => None
                   | Some _ => Some (Some (VStr (toDataURL canvas)))
                   end |}.
Proof.
  unfold loadCustomFormat, parse, stringify.
  match goal with
  | |- context [JSON.stringify ?j] =>
      destruct (JSONFacts.stringify_head j) as (c & t & Htext & _)
  end.
  rewrite Htext at 1. rewrite JSONFacts.parse_stringify. reflexivity.
Qed.




(** With the numbers written as exact decimals and read to the nearest
    double, every document whose coordinates are finite, none of them the
    negative zero, is restored by loading what was saved. *)
Theorem finite_documents_round_trip (canvas : CanvasElement)
  (canvasRef : CanvasRef) (s : State) :
  Forall (fun f => PrimFloat.is_finite f = true /\ f <> neg_zero)
         (coordinates (strokes s)) ->
  exists text,
    saveAsCustomFormat exact_decimal (Some canvas) s = Some text
    /\ strokesSet (loadCustomFormat nearest_double canvasRef text)
       = Some (Some (strokes_to_value (strokes s))).
Proof.
  intros Hall. eexists. split; [reflexivity |].
  rewrite load_saved. cbn [strokesSet].
  rewrite strokes_read_back; [reflexivity |].
  eapply Forall_impl; [exact Hall |].
  intros f [Hfinite Hnz]. apply exact_decimal_read_back; assumption.
Qed.

End DoubleArithmetic.


(** * Further properties of the component *)

(** ** Rendering *)

Lemma redrawCanvas_paint canvas ctx (l : list Stroke) :
  getContext canvas = Some ctx ->
  redrawCanvas (Some canvas) l
  = [ClearRect 0 0 canvasWidth canvasHeight; SetLineWidth 2;
     SetLineCap (str "round")] ++ flat_map paintStroke l.
Proof. intros Hctx. unfold redrawCanvas. rewrite Hctx. reflexivity. Qed.

Lemma filter_imap_none {A : Type} (pred : Command -> bool)
  (f : nat -> A -> Command) (l : list A) :
  (forall i a, pred (f i a) = false) -> List.filter pred (imap f l) = [].
Proof.
  revert f. induction l as [| a l IH]; intros f Hf; [reflexivity |].
  rewrite imap_cons. simpl. rewrite Hf. apply IH. intros i b. apply Hf.
Qed.

Lemma filter_path_none (pred : Command -> bool) (position : Point)
  (pts : list Point) :
  (forall px py, pred (MoveTo px py) = false) ->
  (forall px py, pred (LineTo px py) = false) ->
  List.filter pred
    (imap (fun i point =>
             let px := x point + x position in
             let py := y point + y position in
             if (i =? 0)%nat then MoveTo px py else LineTo px py) pts) = [].
Proof.
  intros Hm Hl. apply filter_imap_none. intros i a. simpl.
  destruct (i =? 0)%nat; auto.
Qed.

Lemma paintStroke_fills (stroke : Stroke) :
  List.filter is_fill (paintStroke stroke)
  = if isClosedPath (points stroke) then [Fill] else [].
Proof.
  unfold paintStroke, fillStroke. simpl.
  rewrite List.filter_app, filter_path_none by reflexivity. simpl.
  destruct (isClosedPath (points stroke)); [| reflexivity]. simpl.
  rewrite List.filter_app, filter_path_none by reflexivity. reflexivity.
Qed.

Lemma paintStroke_outlines (stroke : Stroke) :
  List.filter is_outline (paintStroke stroke) = [StrokePath].
Proof.
  unfold paintStroke, fillStroke. simpl.
  rewrite List.filter_app, filter_path_none by reflexivity. simpl.
  destruct (isClosedPath (points stroke)); [| reflexivity]. simpl.
  rewrite List.filter_app, filter_path_none by reflexivity. reflexivity.
Qed.

Lemma paintStroke_no (pred : Command -> bool) (stroke : Stroke) :
  (forall c, pred c = true -> is_clear c = true \/ is_image c = true) ->
  List.filter pred (paintStroke stroke) = [].
Proof.
  intros Hpred.
  assert (Hno : forall c, is_clear c = false -> is_image c = false ->
                          pred c = false).
  { intros c Hc Hi. destruct (pred c) eqn:Hp; [| reflexivity].
    destruct (Hpred c Hp); congruence. }
  unfold paintStroke, fillStroke. simpl.
  rewrite !Hno by reflexivity.
  rewrite List.filter_app, filter_path_none by (intros; apply Hno; reflexivity).
  simpl. rewrite Hno by reflexivity.
  destruct (isClosedPath (points stroke)); [| reflexivity]. simpl.
  rewrite !Hno by reflexivity.
  rewrite List.filter_app, filter_path_none by (intros; apply Hno; reflexivity).
  simpl. rewrite !Hno by reflexivity. reflexivity.
Qed.

Lemma flat_map_paint_cons (stroke : Stroke) (l : list Stroke) :
  flat_map paintStroke (stroke :: l) = paintStroke stroke ++ flat_map paintStroke l.
Proof. reflexivity. Qed.

Lemma flat_map_paint_no (pred : Command -> bool) (l : list Stroke) :
  (forall c, pred c = true -> is_clear c = true \/ is_image c = true) ->
  List.filter pred (flat_map paintStroke l) = [].
Proof.
  intros Hpred. induction l as [| st l IH]; [reflexivity |].
  rewrite flat_map_paint_cons. rewrite List.filter_app, paintStroke_no, IH by exact Hpred.
  reflexivity.
Qed.

(** X1. With the surface available, a redraw clears the canvas once,
    outlines every stroke of the list once, and fills exactly the strokes
    whose points form a closed path; in particular a stroke of fewer than
    two points is never filled. *)
Theorem redraw_paint_counts canvas ctx (l : list Stroke) :
  getContext canvas = Some ctx ->
  let cmds := redrawCanvas (Some canvas) l in
  length (List.filter is_clear cmds) = 1%nat
  /\ length (List.filter is_outline cmds) = length l
  /\ length (List.filter is_fill cmds)
     = length (List.filter (fun st => isClosedPath (points st)) l)
  /\ (Forall (fun st => (length (points st) < 2)%nat) l ->
      List.filter is_fill cmds = []).
Proof.
  intros Hctx cmds. subst cmds. rewrite (redrawCanvas_paint canvas ctx l Hctx).
  rewrite !List.filter_app. simpl List.filter at 1 3 5.
  split.
  { rewrite flat_map_paint_no by (intros c Hc; auto). reflexivity. }
  split.
  { simpl. induction l as [| st l IH]; [reflexivity |].
    rewrite flat_map_paint_cons. rewrite List.filter_app, length_app, paintStroke_outlines.
    simpl. rewrite IH. reflexivity. }
  split.
  { simpl. induction l as [| st l IH]; [reflexivity |].
    rewrite flat_map_paint_cons. rewrite List.filter_app, length_app, paintStroke_fills.
    simpl. destruct (isClosedPath (points st)); simpl; rewrite IH; reflexivity. }
  intros Hshort. simpl.
  induction Hshort as [| st l Hst _ IH]; [reflexivity |].
  rewrite flat_map_paint_cons. rewrite List.filter_app, paintStroke_fills, IH.
  unfold isClosedPath. destruct (Nat.ltb_spec (length (points st)) 2);
    [reflexivity | lia].
Qed.

Lemma redraw_paint_counts_witness :
  let loop := {| points := [{| x := 0; y := 0 |}; {| x := 50; y := 0 |};
                            {| x := 3; y := 4 |}];
                 color := str "#cdecde"; position := origin |} in
  let line := {| points := [{| x := 0; y := 0 |}; {| x := 50; y := 0 |}];
                 color := str "#cdecde"; position := origin |} in
  length (List.filter is_fill (redrawCanvas (Some sample_canvas) [loop; line]))
  = 1%nat.
Proof.
  intros loop line.
  destruct (redraw_paint_counts sample_canvas _ [loop; line] eq_refl)
    as (_ & _ & Hfill & _).
  exact Hfill.
Defined.

Lemma repositionStroke_insert i p (l : list Stroke) stroke :
  l !! i = Some stroke ->
  repositionStroke i p l = <[i := withPosition p stroke]> l.
Proof.
  intros Hi. apply list_eq. intros j. rewrite repositionStroke_lookup.
  destruct (Nat.eqb_spec j i) as [-> | Hne].
  - rewrite Hi, list_lookup_insert_eq by (eapply lookup_lt_Some; eauto).
    reflexivity.
  - rewrite list_lookup_insert_ne by congruence.
    destruct (l !! j); reflexivity.
Qed.

(** X2. Repositioning a stroke redraws it at its new position and touches
    nothing else: a redraw of the list in which stroke [i] was
    repositioned issues the commands of every other stroke unchanged and
    in place, and for stroke [i] an outline through its points, each
    shifted by the new position, in the same color and filled by the same
    test on the same points, so exactly when it was filled before. *)
Theorem redraw_after_reposition canvas ctx (l : list Stroke) (i : nat)
  (stroke : Stroke) (p : Point) :
  getContext canvas = Some ctx ->
  l !! i = Some stroke ->
  let outline :=
    imap (fun k point =>
            if (k =? 0)%nat then MoveTo (x point + x p) (y point + y p)
            else LineTo (x point + x p) (y point + y p)) (points stroke) in
  redrawCanvas (Some canvas) (repositionStroke i p l)
  = redrawCanvas (Some canvas) (take i l)
    ++ (SetStrokeStyle (str "black") :: BeginPath :: outline
        ++ StrokePath
        :: (if isClosedPath (points stroke)
            then SetFillStyle (color stroke)
                 :: BeginPath :: outline ++ [ClosePath; Fill]
            else []))
    ++ flat_map paintStroke (drop (S i) l)
  /\ redrawCanvas (Some canvas) l
     = redrawCanvas (Some canvas) (take i l)
       ++ paintStroke stroke ++ flat_map paintStroke (drop (S i) l).
Proof.
  intros Hctx Hi outline. pose proof (lookup_lt_Some _ _ _ Hi) as Hlt.
  rewrite (repositionStroke_insert i p l stroke Hi).
  rewrite insert_take_drop by exact Hlt.
  rewrite !(redrawCanvas_paint canvas ctx _ Hctx).
  split.
  - rewrite flat_map_app. rewrite flat_map_paint_cons.
    rewrite <- !app_assoc. reflexivity.
  - rewrite <- (take_drop_middle l i stroke Hi) at 1.
    rewrite flat_map_app. rewrite flat_map_paint_cons. rewrite <- !app_assoc. reflexivity.
Qed.

Lemma redraw_after_reposition_witness :
  let a := {| points := [{| x := 0; y := 0 |}; {| x := 9; y := 0 |}];
              color := str "#cdecde"; position := origin |} in
  let b := {| points := [{| x := 1; y := 1 |}; {| x := 50; y := 5 |}];
              color := str "#000000"; position := {| x := 2; y := 2 |} |} in
  redrawCanvas (Some sample_canvas)
               (repositionStroke 1 {| x := 10; y := 20 |} [a; b])
  = redrawCanvas (Some sample_canvas) [a]
    ++ [SetStrokeStyle (str "black"); BeginPath; MoveTo 11 21; LineTo 60 25;
        StrokePath].
Proof.
  intros a b.
  destruct (redraw_after_reposition sample_canvas _ [a; b] 1 b
              {| x := 10; y := 20 |} eq_refl eq_refl) as [H _].
  rewrite H. reflexivity.
Defined.

(** X3. The region redraw fills for a stroke is the region the hit test
    asks about: [fillStroke] builds, command for command, the closed path
    that [isInsideStroke] builds from the stroke's points shifted by its
    position, and the outline goes through the same vertices. *)
Theorem fill_path_is_hit_test_path (stroke : Stroke) :
  fillStroke (points stroke) (color stroke) (position stroke)
  = SetFillStyle (color stroke) :: hitTestPath (adjustedPoints stroke) ++ [Fill]
  /\ exists outline,
       hitTestPath (adjustedPoints stroke) = BeginPath :: outline ++ [ClosePath]
       /\ paintStroke stroke
          = SetStrokeStyle (str "black") :: BeginPath :: outline
            ++ StrokePath
            :: (if isClosedPath (points stroke)
                then SetFillStyle (color stroke)
                     :: BeginPath :: outline ++ [ClosePath; Fill]
                else []).
Proof.
  assert (Hpath :
    imap (fun i point =>
            if (i =? 0)%nat then MoveTo (x point) (y point)
            else LineTo (x point) (y point)) (adjustedPoints stroke)
    = imap (fun i point =>
              let px := x point + x (position stroke) in
              let py := y point + y (position stroke) in
              if (i =? 0)%nat then MoveTo px py else LineTo px py)
           (points stroke)).
  { unfold adjustedPoints. change (map ?f ?l) with (f <$> l).
    rewrite imap_fmap. apply imap_ext. intros i pt _. reflexivity. }
  split.
  - unfold fillStroke, hitTestPath. rewrite Hpath. simpl.
    rewrite <- app_assoc. reflexivity.
  - eexists. split; [unfold hitTestPath; reflexivity |].
    rewrite Hpath. reflexivity.
Qed.

(** X4. Strokes are painted in list order: after a release commits the
    draw buffer, a redraw issues what it issued before followed by the
    commands of the new stroke, and undo takes the commands of the last
    stroke away again. *)
Theorem commit_paints_last canvas ctx (s : State) :
  getContext canvas = Some ctx ->
  isDrawing s = true -> isDragging s = false -> currentStroke s <> [] ->
  redrawCanvas (Some canvas) (strokes (handleMouseUp s))
  = redrawCanvas (Some canvas) (strokes s) ++ paintStroke (committed s)
  /\ redrawCanvas (Some canvas) (strokes (undo (handleMouseUp s)))
     = redrawCanvas (Some canvas) (strokes s).
Proof.
  intros Hctx Hdraw Hdrag Hbuf.
  assert (Hup : strokes (handleMouseUp s) = strokes s ++ [committed s]).
  { unfold handleMouseUp. rewrite Hdraw, Hdrag.
    destruct (currentStroke s) as [| p b] eqn:Hb; [congruence |].
    simpl. unfold committed. rewrite Hb. reflexivity. }
  split.
  - rewrite Hup, !(redrawCanvas_paint canvas ctx _ Hctx), flat_map_app.
    simpl flat_map. rewrite app_nil_r, app_assoc. reflexivity.
  - unfold undo. cbn [strokes setStrokes]. rewrite Hup, slice_drop_last.
    reflexivity.
Qed.

Lemma commit_paints_last_witness :
  let s := run (Some sample_canvas) [MouseDown 5 5; MouseMove 60 5] initial in
  redrawCanvas (Some sample_canvas) (strokes (handleMouseUp s))
  = redrawCanvas (Some sample_canvas) []
    ++ [SetStrokeStyle (str "black"); BeginPath; MoveTo 5 5; LineTo 60 5;
        StrokePath].
Proof.
  intros s.
  destruct (commit_paints_last sample_canvas _ s eq_refl eq_refl eq_refl
              ltac:(discriminate)) as [H _].
  rewrite H. reflexivity.
Defined.

(** X5. When the loaded background image arrives and the surface is
    still there, the callback draws the image and then redraws, and the
    redraw starts by clearing the whole canvas: the image is followed at
    once by a full clear and is not drawn again, so no restored
    background remains under the strokes.  Only when the canvas is gone
    at that moment does the callback end with the image drawn. *)
Theorem image_onload_clears_image canvas ctx (renderStrokes : list Stroke)
  (img : jsval) :
  getContext canvas = Some ctx ->
  (exists rest,
     imageOnload (Some canvas) renderStrokes img
     = [ClearRect 0 0 canvasWidth canvasHeight;
        DrawImage img 0 0 canvasWidth canvasHeight;
        ClearRect 0 0 canvasWidth canvasHeight] ++ rest
     /\ List.filter is_image rest = []
     /\ List.filter is_clear rest = []
     /\ rest = SetLineWidth 2 :: SetLineCap (str "round")
               :: flat_map paintStroke renderStrokes)
  /\ imageOnload None renderStrokes img
     = [ClearRect 0 0 canvasWidth canvasHeight;
        DrawImage img 0 0 canvasWidth canvasHeight].
Proof.
  intros Hctx. split; [| reflexivity].
  eexists. unfold imageOnload.
  rewrite (redrawCanvas_paint canvas ctx _ Hctx). split; [reflexivity |].
  split; [| split; [| reflexivity]]; simpl;
    apply flat_map_paint_no; intros c Hc; auto.
Qed.

Lemma image_onload_clears_image_witness :
  List.filter is_image
    (skipn 3 (imageOnload (Some sample_canvas) [] (Some (JStr (str "data:")))))
  = [].
Proof.
  destruct (image_onload_clears_image sample_canvas _ []
              (Some (JStr (str "data:"))) eq_refl)
    as [(rest & Heq & Hnone & _) _].
  rewrite Heq. exact Hnone.
Defined.

(** ** The state machine *)

Lemma map_points_reposition i p (l : list Stroke) :
  map points (repositionStroke i p l) = map points l
  /\ map color (repositionStroke i p l) = map color l.
Proof.
  unfold repositionStroke. change (map ?f ?l) with (f <$> l).
  rewrite !fmap_imap. split.
  - rewrite <- (imap_const points l). apply imap_ext. intros j st _. simpl.
    destruct (j =? i)%nat; reflexivity.
  - rewrite <- (imap_const color l). apply imap_ext. intros j st _. simpl.
    destruct (j =? i)%nat; reflexivity.
Qed.

Lemma dispatch_geometry canvasRef (e : PointerEvent) (s : State) :
  let s' := fst (dispatch canvasRef e s) in
  fillColor s' = fillColor s
  /\ ((map points (strokes s') = map points (strokes s)
       /\ map color (strokes s') = map color (strokes s))
      \/ strokes s' = strokes s ++ [committed s]).
Proof.
  assert (Hrelease :
    fillColor (handleMouseUp s) = fillColor s
    /\ ((map points (strokes (handleMouseUp s)) = map points (strokes s)
         /\ map color (strokes (handleMouseUp s)) = map color (strokes s))
        \/ strokes (handleMouseUp s) = strokes s ++ [committed s])).
  { unfold handleMouseUp. destruct (isDragging s); [simpl; auto |].
    destruct (isDrawing s && _)%bool; simpl; auto. }
  assert (Hmove : forall i p,
    (map points (repositionStroke i p (strokes s)) = map points (strokes s)
     /\ map color (repositionStroke i p (strokes s)) = map color (strokes s))
    \/ repositionStroke i p (strokes s) = strokes s ++ [committed s]).
  { intros i p. left. apply map_points_reposition. }
  destruct e; simpl.
  - unfold handleMouseDown.
    destruct (findClickedStrokeIndex _ _ _ _) as [k |]; [| simpl; auto].
    destruct (strokes s !! k); simpl; auto.
  - unfold handleMouseMove.
    destruct (isDragging s), (draggedStrokeIndex s), (dragOffset s),
      (isDrawing s), canvasRef; simpl; auto; split; auto; apply Hmove.
  - exact Hrelease.
  - exact Hrelease.
  - unfold handleTouchStart. destruct canvasRef; [| simpl; auto]. simpl.
    destruct (findClickedStrokeIndex _ _ _ _) as [k |]; [| simpl; auto].
    destruct (strokes s !! k); simpl; auto.
  - unfold handleTouchMove.
    destruct (isDragging s), (draggedStrokeIndex s), (dragOffset s),
      (isDrawing s), canvasRef; simpl; auto; split; auto; apply Hmove.
  - exact Hrelease.
Qed.

(** X7. Pointer and touch input never deletes or alters what was
    recorded: over any sequence of events the points and the colors of
    the strokes present at the start stay as they were, in the same
    order (later strokes can only come after them), and the selected fill
    color is not touched. *)
Theorem pointer_input_keeps_geometry canvasRef (events : list PointerEvent)
  (s : State) :
  let s' := run canvasRef events s in
  map points (strokes s) `prefix_of` map points (strokes s')
  /\ map color (strokes s) `prefix_of` map color (strokes s')
  /\ (length (strokes s) <= length (strokes s'))%nat
  /\ fillColor s' = fillColor s.
Proof.
  revert s. induction events as [| e events IH]; intros s; simpl.
  - repeat split; reflexivity || lia.
  - specialize (IH (fst (dispatch canvasRef e s))).
    destruct IH as (Hpts & Hcol & Hlen & Hfill).
    destruct (dispatch_geometry canvasRef e s) as (Hfill1 & Hstep).
    fold (run canvasRef events (fst (dispatch canvasRef e s))).
    split; [| split; [| split]].
    + destruct Hstep as [[Hp _] | Happ].
      * rewrite <- Hp. exact Hpts.
      * rewrite Happ, map_app in Hpts. eapply prefix_app_l. exact Hpts.
    + destruct Hstep as [[_ Hc] | Happ].
      * rewrite <- Hc. exact Hcol.
      * rewrite Happ, map_app in Hcol. eapply prefix_app_l. exact Hcol.
    + destruct Hstep as [[Hp _] | Happ].
      * apply (f_equal length) in Hp. rewrite !length_map in Hp. lia.
      * rewrite Happ, length_app in Hlen. simpl in Hlen. lia.
    + congruence.
Qed.

Lemma drag_consistent_same (s s' : State) :
  isDragging s' = isDragging s ->
  draggedStrokeIndex s' = draggedStrokeIndex s ->
  dragOffset s' = dragOffset s ->
  drag_consistent s -> drag_consistent s'.
Proof. unfold drag_consistent. intros -> -> ->. auto. Qed.

Ltac drag_kept Hinv :=
  first [ exact Hinv
        | apply (drag_consistent_same _ _ eq_refl eq_refl eq_refl Hinv) ].

Lemma drag_consistent_dispatch canvasRef e (s : State) :
  drag_consistent s -> drag_consistent (fst (dispatch canvasRef e s)).
Proof.
  intros Hinv.
  assert (Hset : forall i o,
            drag_consistent
              (setDragOffset (Some o)
                 (setDraggedStrokeIndex (Some i) (setIsDragging true s)))).
  { intros i o. split; simpl; [eauto | discriminate]. }
  assert (Hrelease : drag_consistent (handleMouseUp s)).
  { unfold handleMouseUp. destruct (isDragging s).
    - split; simpl; [discriminate | auto].
    - destruct (isDrawing s && _)%bool; drag_kept Hinv. }
  destruct e; simpl; try exact Hrelease.
  - unfold handleMouseDown.
    destruct (findClickedStrokeIndex _ _ _ _) as [k |]; [| drag_kept Hinv].
    destruct (strokes s !! k); [apply Hset | exact Hinv].
  - unfold handleMouseMove.
    destruct (isDragging s), (draggedStrokeIndex s), (dragOffset s),
      (isDrawing s), canvasRef; simpl; drag_kept Hinv.
  - unfold handleTouchStart. destruct canvasRef; [| exact Hinv]. simpl.
    destruct (findClickedStrokeIndex _ _ _ _) as [k |]; [| drag_kept Hinv].
    destruct (strokes s !! k); [apply Hset | exact Hinv].
  - unfold handleTouchMove.
    destruct (isDragging s), (draggedStrokeIndex s), (dragOffset s),
      (isDrawing s), canvasRef; simpl; drag_kept Hinv.
Qed.

Lemma control_frame canvasRef (c : Control) (s s' : State) :
  control canvasRef c s = Some s' ->
  isDrawing s' = isDrawing s /\ currentStroke s' = currentStroke s
  /\ isDragging s' = isDragging s
  /\ draggedStrokeIndex s' = draggedStrokeIndex s
  /\ dragOffset s' = dragOffset s.
Proof.
  intros Hc. destruct c; simpl in Hc.
  - injection Hc as <-. repeat split.
  - injection Hc as <-. repeat split.
  - destruct (strokesSet _) as [v |]; [| injection Hc as <-; repeat split].
    destruct (v ≫= as_strokes); [| discriminate].
    injection Hc as <-. repeat split.
Qed.

(** X6. In every reachable state the drag state is all set or all
    clear: while Dragging both the dragged index and the drag offset are
    present, and otherwise both are absent, so a move takes the drag
    branch exactly when a drag is in progress. *)
Theorem drag_state_consistent (s : State) :
  reachable s ->
  (isDragging s = true ->
   exists i o, draggedStrokeIndex s = Some i /\ dragOffset s = Some o)
  /\ (isDragging s = false ->
      draggedStrokeIndex s = None /\ dragOffset s = None).
Proof.
  induction 1 as [| canvasRef e s _ IH | canvasRef c s s' _ IH Hc].
  - split; [discriminate | auto].
  - apply (drag_consistent_dispatch canvasRef e s IH).
  - destruct (control_frame canvasRef c s s' Hc) as (_ & _ & Hd & Hi & Ho).
    rewrite Hd, Hi, Ho. exact IH.
Qed.

Lemma reachable_run canvasRef (events : list PointerEvent) (s : State) :
  reachable s -> reachable (run canvasRef events s).
Proof.
  revert s. induction events as [| e events IH]; intros s Hs; [exact Hs |].
  apply IH. apply reachable_pointer. exact Hs.
Qed.

Lemma drag_state_consistent_witness :
  let s := run (Some sample_canvas)
               [MouseDown 0 0; MouseMove 10 0; MouseMove 10 10; MouseMove 0 10;
                MouseMove 0 1; MouseUp; MouseDown 5 5] initial in
  isDragging s = true /\
  exists i o, draggedStrokeIndex s = Some i /\ dragOffset s = Some o.
Proof.
  intros s.
  assert (Hreach : reachable s)
    by (apply reachable_run; apply reachable_initial).
  split; [reflexivity |].
  apply (proj1 (drag_state_consistent s Hreach)). reflexivity.
Defined.

(** ** A draw session *)

Lemma point_eta (p : Point) : {| x := x p; y := y p |} = p.
Proof. destruct p. reflexivity. Qed.

Lemma run_cons canvasRef e (events : list PointerEvent) (s : State) :
  run canvasRef (e :: events) s
  = run canvasRef events (fst (dispatch canvasRef e s)).
Proof. reflexivity. Qed.

Lemma run_app canvasRef (a b : list PointerEvent) (s : State) :
  run canvasRef (a ++ b) s = run canvasRef b (run canvasRef a s).
Proof. unfold run. apply fold_left_app. Qed.

Lemma drawing_move canvas (s : State) (q : Point) :
  isDragging s = false -> isDrawing s = true ->
  fst (dispatch (Some canvas) (MouseMove (x q) (y q)) s)
  = setCurrentStroke (fun prev => prev ++ [q]) s.
Proof.
  intros Hdrag Hdraw. simpl. unfold handleMouseMove.
  rewrite Hdrag, Hdraw, point_eta. reflexivity.
Qed.

Lemma drawing_moves canvas (qs : list Point) (s : State) :
  isDragging s = false -> isDrawing s = true ->
  run (Some canvas) (mouseMoves qs) s
  = setCurrentStroke (fun prev => prev ++ qs) s.
Proof.
  revert s. induction qs as [| q qs IH]; intros s Hdrag Hdraw.
  - destruct s. simpl. unfold setCurrentStroke. simpl.
    rewrite app_nil_r. reflexivity.
  - change (mouseMoves (q :: qs)) with (MouseMove (x q) (y q) :: mouseMoves qs).
    rewrite run_cons, drawing_move by assumption.
    rewrite IH by assumption.
    destruct s. unfold setCurrentStroke. simpl. rewrite <- app_assoc.
    reflexivity.
Qed.

Lemma pointer_down_miss canvasRef (s : State) (p0 : Point) :
  findClickedStrokeIndex canvasRef (strokes s) (x p0) (y p0) = None ->
  handleMouseDown canvasRef s (x p0) (y p0)
  = setIsDrawing true (setCurrentStroke (fun _ => [p0]) s).
Proof.
  intros Hmiss. unfold handleMouseDown. rewrite Hmiss, point_eta. reflexivity.
Qed.

(** X8. A whole draw session: from a state that is not dragging, a
    pointer-down that hits no stroke, any number of moves and a release
    append exactly one stroke, whose points are the pointer positions in
    order, whose color is the selected fill color and whose position is
    {0,0}; what was in the draw buffer before is discarded, and the
    component is idle again. *)
Theorem draw_session canvas (s : State) (p0 : Point) (qs : list Point) :
  isDragging s = false ->
  findClickedStrokeIndex (Some canvas) (strokes s) (x p0) (y p0) = None ->
  let final :=
    run (Some canvas)
        (MouseDown (x p0) (y p0) :: mouseMoves qs ++ [MouseUp]) s in
  strokes final
  = strokes s ++ [{| points := p0 :: qs; color := fillColor s;
                     position := origin |}]
  /\ isDrawing final = false /\ currentStroke final = []
  /\ isDragging final = false /\ fillColor final = fillColor s.
Proof.
  intros Hdrag Hmiss.
  pose proof (pointer_down_miss (Some canvas) s p0 Hmiss) as Hdown.
  set (s1 := setIsDrawing true (setCurrentStroke (fun _ => [p0]) s)) in *.
  assert (Hfinal :
    run (Some canvas) (MouseDown (x p0) (y p0) :: mouseMoves qs ++ [MouseUp]) s
    = handleMouseUp (setCurrentStroke (fun prev => prev ++ qs) s1)).
  { rewrite run_cons, run_app.
    change (fst (dispatch (Some canvas) (MouseDown (x p0) (y p0)) s))
      with (handleMouseDown (Some canvas) s (x p0) (y p0)).
    rewrite Hdown, (drawing_moves canvas qs s1) by (subst s1; simpl; auto).
    reflexivity. }
  cbv zeta. rewrite Hfinal. unfold handleMouseUp. subst s1. simpl.
  rewrite Hdrag. simpl. repeat split; exact Hdrag.
Qed.

Lemma draw_session_witness :
  strokes (run (Some sample_canvas)
               [MouseDown 5 5; MouseMove 40 5; MouseMove 6 6; MouseUp] initial)
  = [{| points := [{| x := 5; y := 5 |}; {| x := 40; y := 5 |};
                   {| x := 6; y := 6 |}];
        color := str "#cdecde"; position := origin |}].
Proof.
  destruct (draw_session sample_canvas initial {| x := 5; y := 5 |}
              [{| x := 40; y := 5 |}; {| x := 6; y := 6 |}] eq_refl eq_refl)
    as [H _].
  exact H.
Defined.

Lemma drawing_inks canvas ctx (qs : list Point) (s : State) (lastPoint : Point) :
  getContext canvas = Some ctx ->
  isDragging s = false -> isDrawing s = true ->
  last (currentStroke s) = Some lastPoint ->
  map snd (trace (Some canvas) (mouseMoves qs) s) = segments lastPoint qs.
Proof.
  intros Hctx. revert s lastPoint.
  induction qs as [| q qs IH]; intros s lastPoint Hdrag Hdraw Hlast;
    [reflexivity |].
  change (mouseMoves (q :: qs)) with (MouseMove (x q) (y q) :: mouseMoves qs).
  cbn [trace map segments].
  rewrite (drawing_move canvas s q Hdrag Hdraw). f_equal.
  - simpl. unfold handleMouseMove. rewrite Hdrag, Hdraw, Hctx. simpl.
    rewrite Nat.sub_1_r, <- last_lookup, Hlast, point_eta. reflexivity.
  - apply IH; simpl; auto. apply last_snoc.
Qed.

(** X9. The live feedback of a draw session is the stroke it commits:
    with the context available, the moves ink exactly the segments
    between consecutive points of the committed stroke, in order, and
    pointer-down and release ink nothing. *)
Theorem live_feedback_follows_stroke canvas ctx (s : State) (p0 : Point)
  (qs : list Point) :
  getContext canvas = Some ctx ->
  isDragging s = false ->
  findClickedStrokeIndex (Some canvas) (strokes s) (x p0) (y p0) = None ->
  map snd (trace (Some canvas)
                 (MouseDown (x p0) (y p0) :: mouseMoves qs ++ [MouseUp]) s)
  = NoInk :: segments p0 qs ++ [NoInk].
Proof.
  intros Hctx Hdrag Hmiss.
  assert (Htrace : forall a b st,
            trace (Some canvas) (a ++ b) st
            = trace (Some canvas) a st
              ++ trace (Some canvas) b (run (Some canvas) a st)).
  { induction a as [| e a IH]; intros b st; [reflexivity |].
    simpl. rewrite IH. reflexivity. }
  pose proof (pointer_down_miss (Some canvas) s p0 Hmiss) as Hdown.
  set (s1 := setIsDrawing true (setCurrentStroke (fun _ => [p0]) s)) in *.
  cbn [trace map].
  change (fst (dispatch (Some canvas) (MouseDown (x p0) (y p0)) s))
    with (handleMouseDown (Some canvas) s (x p0) (y p0)).
  rewrite Hdown. f_equal. rewrite Htrace, map_app.
  rewrite (drawing_inks canvas ctx qs s1 p0 Hctx)
    by (subst s1; simpl; auto).
  reflexivity.
Qed.

Lemma live_feedback_follows_stroke_witness :
  map snd (trace (Some sample_canvas)
                 [MouseDown 5 5; MouseMove 40 5; MouseMove 6 6; MouseUp] initial)
  = [NoInk; Segment {| x := 5; y := 5 |} {| x := 40; y := 5 |};
     Segment {| x := 40; y := 5 |} {| x := 6; y := 6 |}; NoInk].
Proof.
  apply (live_feedback_follows_stroke sample_canvas _ initial {| x := 5; y := 5 |}
           [{| x := 40; y := 5 |}; {| x := 6; y := 6 |}] eq_refl eq_refl eq_refl).
Defined.

(** ** Missing surface *)

Lemma scanStrokes_no_surface canvasRef (l : list Stroke) px py (n : nat) :
  canvasRef ≫= getContext = None -> scanStrokes canvasRef l px py n = None.
Proof.
  intros Hnone. induction n as [| n IH]; [reflexivity |]. simpl.
  destruct (l !! n); [| reflexivity].
  unfold isInsideStroke. rewrite Hnone. exact IH.
Qed.

(** X10. Without a canvas, or with a canvas that gives no 2D context, no
    stroke can be picked: the hit test finds nothing whatever the
    strokes and the pointer position, so a pointer-down always starts a
    draw and leaves the drag state alone, and a redraw issues nothing. *)
Theorem no_surface_no_hit canvasRef (s : State) (p : Point) :
  canvasRef ≫= getContext = None ->
  findClickedStrokeIndex canvasRef (strokes s) (x p) (y p) = None
  /\ handleMouseDown canvasRef s (x p) (y p)
     = setIsDrawing true (setCurrentStroke (fun _ => [p]) s)
  /\ redrawCanvas canvasRef (strokes s) = [].
Proof.
  intros Hnone.
  assert (Hmiss : findClickedStrokeIndex canvasRef (strokes s) (x p) (y p) = None)
    by (apply scanStrokes_no_surface; exact Hnone).
  split; [exact Hmiss |]. split; [apply pointer_down_miss; exact Hmiss |].
  unfold redrawCanvas. destruct canvasRef as [canvas |]; [| reflexivity].
  simpl in Hnone. rewrite Hnone. reflexivity.
Qed.

Lemma no_surface_no_hit_witness :
  let square := {| points := [{| x := 0; y := 0 |}; {| x := 10; y := 0 |};
                              {| x := 10; y := 10 |}; {| x := 0; y := 10 |}];
                   color := str "#cdecde"; position := origin |} in
  let s := setStrokes (fun _ => [square]) initial in
  let blind := {| getContext := None; rect_left := 0; rect_top := 0;
                  toDataURL := [] |} in
  findClickedStrokeIndex (Some sample_canvas) (strokes s) 5 5 = Some 0%nat
  /\ findClickedStrokeIndex (Some blind) (strokes s) 5 5 = None
  /\ isDrawing (handleMouseDown (Some blind) s 5 5) = true.
Proof.
  intros square s blind. split; [reflexivity |].
  destruct (no_surface_no_hit (Some blind) s {| x := 5; y := 5 |} eq_refl)
    as (Hmiss & Hdown & _).
  split; [exact Hmiss |]. simpl in Hdown. rewrite Hdown. reflexivity.
Defined.

(** X13. Without a canvas a touch cannot start or continue anything:
    touch-start and touch-move leave the state exactly as it is and ink
    nothing, also in the middle of a drag; a mouse move outside a drag
    does the same. *)
Theorem without_canvas_moves_do_nothing (s : State) (cx cy : Z) :
  handleTouchStart None s cx cy = s
  /\ handleTouchMove None s cx cy = (s, NoInk)
  /\ (isDragging s = false -> handleMouseMove None s cx cy = (s, NoInk)).
Proof.
  split; [reflexivity |]. split.
  - unfold handleTouchMove.
    destruct (isDragging s), (draggedStrokeIndex s), (dragOffset s),
      (isDrawing s); reflexivity.
  - intros Hdrag. unfold handleMouseMove. rewrite Hdrag.
    destruct (draggedStrokeIndex s), (dragOffset s), (isDrawing s);
      reflexivity.
Qed.

Lemma without_canvas_moves_do_nothing_witness :
  let s := handleMouseDown None initial 5 5 in
  isDrawing s = true /\ handleMouseMove None s 9 9 = (s, NoInk).
Proof.
  intros s. split; [reflexivity |].
  apply (proj2 (proj2 (without_canvas_moves_do_nothing s 9 9))). reflexivity.
Defined.

(** ** Releases *)

(** X11. Mouse-up and mouse-leave run the same handler, and a release
    outside a drag is idempotent: once it has run, running it again
    changes nothing, so leaving the canvas after releasing the button
    commits no second stroke.  From any state at most two releases in a
    row have an effect. *)
Theorem release_is_idempotent (s : State) :
  (isDragging s = false -> handleMouseUp (handleMouseUp s) = handleMouseUp s)
  /\ handleMouseUp (handleMouseUp (handleMouseUp s))
     = handleMouseUp (handleMouseUp s)
  /\ (forall canvasRef,
        dispatch canvasRef MouseLeave s = dispatch canvasRef MouseUp s).
Proof.
  assert (Hidem : forall t, isDragging t = false ->
                    handleMouseUp (handleMouseUp t) = handleMouseUp t).
  { intros t Hdrag. unfold handleMouseUp at 2 3. rewrite Hdrag.
    destruct (isDrawing t && _)%bool eqn:Hc.
    - unfold handleMouseUp. simpl. rewrite Hdrag. reflexivity.
    - unfold handleMouseUp. rewrite Hdrag, Hc. reflexivity. }
  split; [apply Hidem |]. split; [| reflexivity].
  destruct (isDragging s) eqn:Hdrag.
  - apply Hidem. unfold handleMouseUp. rewrite Hdrag. reflexivity.
  - rewrite (Hidem s Hdrag). apply Hidem. exact Hdrag.
Qed.

Lemma release_is_idempotent_witness :
  let s := run (Some sample_canvas) [MouseDown 5 5; MouseMove 40 5] initial in
  length (strokes (handleMouseUp s)) = 1%nat
  /\ handleMouseUp (handleMouseUp s) = handleMouseUp s.
Proof.
  intros s. split; [reflexivity |].
  apply (proj1 (release_is_idempotent s)). reflexivity.
Defined.

(** X12. A pointer-down that hits a stroke while a draw is active does
    not end the draw: both are then active and the buffer is kept.  Moves
    go to the drag and append nothing, the next release ends only the
    drag, and the release after that commits the pending buffer. *)
Theorem drag_interrupts_draw canvasRef (s : State) (px py : Z) (i : nat) :
  isDrawing s = true ->
  findClickedStrokeIndex canvasRef (strokes s) px py = Some i ->
  let s1 := handleMouseDown canvasRef s px py in
  (isDrawing s1 = true /\ isDragging s1 = true
   /\ currentStroke s1 = currentStroke s)
  /\ (forall qx qy,
        currentStroke (fst (handleMouseMove canvasRef s1 qx qy))
        = currentStroke s
        /\ snd (handleMouseMove canvasRef s1 qx qy) = NoInk)
  /\ (strokes (handleMouseUp s1) = strokes s
      /\ isDrawing (handleMouseUp s1) = true
      /\ isDragging (handleMouseUp s1) = false
      /\ currentStroke (handleMouseUp s1) = currentStroke s)
  /\ (currentStroke s <> [] ->
      strokes (handleMouseUp (handleMouseUp s1)) = strokes s ++ [committed s]).
Proof.
  intros Hdraw Hfound s1.
  pose proof Hfound as Hhit. apply findClickedStrokeIndex_Some in Hhit.
  destruct Hhit as [(stroke & Hstroke & _) _].
  assert (Hs1 : s1 = setDragOffset
                       (Some {| x := px - x (position stroke);
                                y := py - y (position stroke) |})
                       (setDraggedStrokeIndex (Some i) (setIsDragging true s))).
  { subst s1. unfold handleMouseDown. rewrite Hfound, Hstroke. reflexivity. }
  rewrite Hs1. split; [simpl; auto |]. split.
  { intros qx qy. unfold handleMouseMove. simpl. auto. }
  split; [unfold handleMouseUp; simpl; auto |].
  intros Hbuf. unfold handleMouseUp. simpl. rewrite Hdraw.
  destruct (currentStroke s) as [| p b] eqn:Hb; [congruence |].
  simpl. unfold committed. rewrite Hb. reflexivity.
Qed.

Lemma drag_interrupts_draw_witness :
  let square := {| points := [{| x := 0; y := 0 |}; {| x := 10; y := 0 |};
                              {| x := 10; y := 10 |}; {| x := 0; y := 10 |}];
                   color := str "#cdecde"; position := origin |} in
  let s := run (Some sample_canvas) [MouseDown 50 50; MouseMove 60 60]
               (setStrokes (fun _ => [square]) initial) in
  let s1 := handleMouseDown (Some sample_canvas) s 5 5 in
  isDrawing s1 = true /\ isDragging s1 = true
  /\ length (strokes (handleMouseUp (handleMouseUp s1))) = 2%nat.
Proof.
  intros square s s1.
  destruct (drag_interrupts_draw (Some sample_canvas) s 5 5 0%nat
              eq_refl eq_refl) as ((Hdraw & Hdrag & _) & _ & _ & Hcommit).
  split; [exact Hdraw |]. split; [exact Hdrag |].
  fold s1 in Hcommit. rewrite (Hcommit ltac:(discriminate)). reflexivity.
Defined.

(** ** Undo *)

Lemma slice_take {A : Type} (l : list A) :
  slice 0 (-1) l = take (length l - 1) l.
Proof.
  unfold slice. change (0 <? 0) with false. change (-1 <? 0) with true.
  cbv iota. set (len := Z.of_nat (length l)).
  replace (Z.to_nat (Z.min 0 len)) with 0%nat by lia.
  replace (Z.to_nat (Z.max (len + -1) 0 - Z.min 0 len))
    with (length l - 1)%nat by lia.
  rewrite drop_0. reflexivity.
Qed.

(** X16. Undo reverts a commit: right after a release has committed the
    draw buffer, one undo gives back the stroke list as it was before
    the release. *)
Theorem undo_reverts_commit (s : State) :
  isDrawing s = true -> isDragging s = false -> currentStroke s <> [] ->
  strokes (handleMouseUp s) = strokes s ++ [committed s]
  /\ strokes (undo (handleMouseUp s)) = strokes s
  /\ strokes (undo (handleTouchEnd s)) = strokes s.
Proof.
  intros Hdraw Hdrag Hbuf.
  assert (Hup : strokes (handleMouseUp s) = strokes s ++ [committed s]).
  { unfold handleMouseUp. rewrite Hdraw, Hdrag.
    destruct (currentStroke s) as [| p b] eqn:Hb; [congruence |].
    simpl. unfold committed. rewrite Hb. reflexivity. }
  split; [exact Hup |].
  assert (Hundo : strokes (undo (handleMouseUp s)) = strokes s).
  { unfold undo. cbn [strokes setStrokes]. rewrite Hup. apply slice_drop_last. }
  split; [exact Hundo | exact Hundo].
Qed.

Lemma undo_reverts_commit_witness :
  let s := run (Some sample_canvas) [MouseDown 5 5; MouseMove 40 5] initial in
  strokes (undo (handleMouseUp s)) = [].
Proof.
  intros s.
  apply (proj1 (proj2 (undo_reverts_commit s eq_refl eq_refl
                         ltac:(discriminate)))).
Defined.

(** X17. Undo can be repeated without limit: [n] undos leave the first
    [length - n] strokes, unchanged and in order, and nothing once [n]
    reaches the length of the list. *)
Theorem undo_iterated (n : nat) (s : State) :
  strokes (Nat.iter n undo s) = take (length (strokes s) - n) (strokes s).
Proof.
  induction n as [| n IH].
  - simpl. rewrite Nat.sub_0_r, firstn_all. reflexivity.
  - simpl Nat.iter. unfold undo at 1. cbn [strokes setStrokes].
    rewrite slice_take, IH, length_take, take_take. f_equal. lia.
Qed.

Lemma repositionStroke_out_of_range i p (l : list Stroke) :
  (length l <= i)%nat -> repositionStroke i p l = l.
Proof.
  intros Hle. apply list_eq. intros j. rewrite repositionStroke_lookup.
  destruct (l !! j) as [st |] eqn:Hj; [| reflexivity]. simpl.
  apply lookup_lt_Some in Hj.
  destruct (Nat.eqb_spec j i); [lia | reflexivity].
Qed.

Lemma setStrokes_same (s : State) (f : list Stroke -> list Stroke) :
  f (strokes s) = strokes s -> setStrokes f s = s.
Proof. intros H. destruct s. unfold setStrokes. simpl in *. rewrite H. reflexivity. Qed.

(** X14. The dragged index is not kept in range: an undo in the middle
    of dragging the last stroke removes that stroke and leaves the drag
    state as it is.  Moves of a drag whose index is past the end of the
    list then change nothing at all and raise nothing. *)
Theorem undo_during_drag canvasRef (s : State) (i : nat) (o : Point) :
  dragging i o s ->
  (length (strokes s) = S i ->
   dragging i o (undo s) /\ strokes (undo s) = take i (strokes s)
   /\ (length (strokes (undo s)) <= i)%nat)
  /\ ((length (strokes s) <= i)%nat ->
      forall qx qy,
        handleMouseMove canvasRef s qx qy = (s, NoInk)
        /\ forall canvas,
             handleTouchMove (Some canvas) s qx qy = (s, NoInk)).
Proof.
  intros Hdrag. split.
  - intros Hlen. split; [exact Hdrag |].
    unfold undo. cbn [strokes setStrokes]. rewrite slice_take, Hlen.
    replace (S i - 1)%nat with i by lia. split; [reflexivity |].
    rewrite length_take. lia.
  - intros Hle qx qy. split.
    + rewrite (handleMouseMove_dragging canvasRef i o s qx qy Hdrag).
      rewrite setStrokes_same; [reflexivity |].
      apply repositionStroke_out_of_range. exact Hle.
    + intros canvas.
      rewrite (handleTouchMove_dragging canvas i o s qx qy Hdrag).
      rewrite setStrokes_same; [reflexivity |].
      apply repositionStroke_out_of_range. exact Hle.
Qed.

Lemma undo_during_drag_witness :
  let square := {| points := [{| x := 0; y := 0 |}; {| x := 10; y := 0 |};
                              {| x := 10; y := 10 |}; {| x := 0; y := 10 |}];
                   color := str "#cdecde"; position := origin |} in
  let s := handleMouseDown (Some sample_canvas)
             (setStrokes (fun _ => [square]) initial) 5 5 in
  strokes (undo s) = []
  /\ handleMouseMove (Some sample_canvas) (undo s) 30 30 = (undo s, NoInk).
Proof.
  intros square s.
  assert (Hdrag : dragging 0 {| x := 5; y := 5 |} s) by (repeat split).
  destruct (undo_during_drag (Some sample_canvas) s 0 {| x := 5; y := 5 |} Hdrag)
    as [Hundo _].
  destruct (Hundo eq_refl) as (Hdrag' & Hstrokes & Hle).
  split; [exact Hstrokes |].
  destruct (undo_during_drag (Some sample_canvas) (undo s) 0
              {| x := 5; y := 5 |} Hdrag') as [_ Hmove].
  apply (Hmove Hle 30 30).
Defined.

(** X15. The controls do not end a session: an undo, a color change or a
    load in the middle of a draw leaves the draw buffer and the drag
    state as they are, and the release that follows commits the buffer
    on top of whatever the stroke list has become, in the fill color
    selected at the time of the release. *)
Theorem controls_keep_session canvasRef (c : Control) (s s' : State) :
  control canvasRef c s = Some s' ->
  (isDrawing s' = isDrawing s /\ currentStroke s' = currentStroke s
   /\ isDragging s' = isDragging s
   /\ draggedStrokeIndex s' = draggedStrokeIndex s
   /\ dragOffset s' = dragOffset s)
  /\ (isDrawing s = true -> isDragging s = false -> currentStroke s <> [] ->
      strokes (handleMouseUp s')
      = strokes s' ++ [{| points := currentStroke s; color := fillColor s';
                          position := origin |}])
  /\ (forall value, c = ColorChange value ->
        fillColor s' = value /\ strokes s' = strokes s)
  /\ ((forall value, c <> ColorChange value) -> fillColor s' = fillColor s).
Proof.
  intros Hc. pose proof (control_frame canvasRef c s s' Hc) as Hframe.
  split; [exact Hframe |]. destruct Hframe as (Hd & Hb & Hg & _ & _).
  split; [| split].
  - intros Hdraw Hdrag Hbuf. unfold handleMouseUp. rewrite Hg, Hd, Hb, Hdrag, Hdraw.
    destruct (currentStroke s) as [| p b]; [congruence |]. reflexivity.
  - intros value ->. simpl in Hc. injection Hc as <-. split; reflexivity.
  - intros Hnot. destruct c; simpl in Hc.
    + injection Hc as <-. reflexivity.
    + exfalso. apply (Hnot value). reflexivity.
    + destruct (strokesSet _) as [v |]; [| injection Hc as <-; reflexivity].
      destruct (v ≫= as_strokes); [| discriminate].
      injection Hc as <-. reflexivity.
Qed.

Lemma controls_keep_session_witness :
  let s := run (Some sample_canvas) [MouseDown 5 5; MouseMove 40 5] initial in
  let s' := setFillColor (str "#ff0000") s in
  strokes (handleMouseUp s')
  = [{| points := [{| x := 5; y := 5 |}; {| x := 40; y := 5 |}];
        color := str "#ff0000"; position := origin |}].
Proof.
  intros s s'.
  destruct (controls_keep_session (Some sample_canvas)
              (ColorChange (str "#ff0000")) s s' eq_refl) as (_ & Hup & _).
  apply (Hup eq_refl eq_refl ltac:(discriminate)).
Defined.

(** ** Saved files *)

Lemma saveAsCustomFormat_record canvas (s : State) :
  saveAsCustomFormat (Some canvas) s
  = Some (JSON.stringify (savedRecord canvas s)).
Proof. reflexivity. Qed.

Lemma load_saved_record canvasRef canvas (s : State) :
  loadCustomFormat canvasRef (JSON.stringify (savedRecord canvas s))
  = {| completion := Returned;
       strokesSet := Some (Some (strokes_to_json (strokes s)));
       imageSrc := match canvasRef ≫= getContext with
                   | None => None
                   | Some _ => Some (Some (JStr (toDataURL canvas)))
                   end |}.
Proof.
  unfold loadCustomFormat.
  destruct (JSONFacts.stringify_head (savedRecord canvas s))
    as (c & t & Htext & _).
  rewrite Htext at 1. rewrite JSONFacts.parse_stringify. reflexivity.
Qed.

(** X19. The background travels with the file: when the saved text is
    loaded and the surface is available, the image the loader creates
    has as its source exactly the snapshot the canvas gave at save time.
    When the canvas or its context is missing at load time no image is
    created, and the stroke list is replaced all the same. *)
Theorem background_round_trip (saved loading : CanvasElement) (ctx : Context2D)
  (s : State) :
  getContext loading = Some ctx ->
  exists text,
    saveAsCustomFormat (Some saved) s = Some text
    /\ imageSrc (loadCustomFormat (Some loading) text)
       = Some (Some (JStr (toDataURL saved)))
    /\ forall canvasRef,
         canvasRef ≫= getContext = None ->
         imageSrc (loadCustomFormat canvasRef text) = None
         /\ strokesSet (loadCustomFormat canvasRef text)
            = Some (Some (strokes_to_json (strokes s))).
Proof.
  intros Hctx. exists (JSON.stringify (savedRecord saved s)).
  split; [reflexivity |]. split.
  - rewrite load_saved_record. simpl. rewrite Hctx. reflexivity.
  - intros canvasRef Hnone. rewrite load_saved_record. simpl.
    rewrite Hnone. split; reflexivity.
Qed.

Lemma background_round_trip_witness :
  exists text,
    saveAsCustomFormat (Some sample_canvas) initial = Some text
    /\ imageSrc (loadCustomFormat (Some sample_canvas) text)
       = Some (Some (JStr (str "data:image/png;base64,AA=="))).
Proof.
  destruct (background_round_trip sample_canvas sample_canvas _ initial eq_refl)
    as (text & Hsave & Himg & _).
  exists text. split; [exact Hsave | exact Himg].
Defined.

(** ** A drag session *)

Lemma run_mouseMoves_dragMoves canvasRef (qs : list Point) (s : State) :
  run canvasRef (mouseMoves qs) s
  = dragMoves canvasRef (map (fun q => (x q, y q)) qs) s.
Proof.
  revert s. induction qs as [| q qs IH]; intros s; [reflexivity |].
  change (mouseMoves (q :: qs)) with (MouseMove (x q) (y q) :: mouseMoves qs).
  rewrite run_cons, IH. reflexivity.
Qed.

Lemma dragMoves_keeps canvasRef i o (moves : list (Z * Z)) (t : State) :
  dragging i o t ->
  isDrawing (dragMoves canvasRef moves t) = isDrawing t
  /\ currentStroke (dragMoves canvasRef moves t) = currentStroke t
  /\ fillColor (dragMoves canvasRef moves t) = fillColor t.
Proof.
  revert t. induction moves as [| q rest IH]; intros t Ht; [repeat split |].
  change (dragMoves canvasRef (q :: rest) t)
    with (dragMoves canvasRef rest
            (fst (handleMouseMove canvasRef t (fst q) (snd q)))).
  rewrite (handleMouseMove_dragging canvasRef i o t _ _ Ht).
  apply (IH (setStrokes _ t)). exact Ht.
Qed.

(** X18. A whole drag session: a pointer-down at [p0] that hits stroke
    [i], any number of moves and a release leave the component as it was
    except for the position of stroke [i], which is the last pointer
    position minus the offset taken at the pointer-down, [p0] minus the
    position the stroke had; the drag state is cleared, and a draw buffer
    is not touched.  A press and release without a move leave the stroke
    list exactly as it was. *)
Theorem drag_session canvasRef (s : State) (p0 : Point) (qs : list Point)
  (i : nat) (stroke : Stroke) :
  findClickedStrokeIndex canvasRef (strokes s) (x p0) (y p0) = Some i ->
  strokes s !! i = Some stroke ->
  let final :=
    run canvasRef (MouseDown (x p0) (y p0) :: mouseMoves qs ++ [MouseUp]) s in
  (isDragging final = false /\ draggedStrokeIndex final = None
   /\ dragOffset final = None)
  /\ (isDrawing final = isDrawing s /\ currentStroke final = currentStroke s
      /\ fillColor final = fillColor s)
  /\ strokes final
     = match last qs with
       | None => strokes s
       | Some q =>
           <[i := withPosition
                    {| x := x q - (x p0 - x (position stroke));
                       y := y q - (y p0 - y (position stroke)) |} stroke]>
             (strokes s)
       end.
Proof.
  intros Hfound Hstroke.
  set (offset := {| x := x p0 - x (position stroke);
                    y := y p0 - y (position stroke) |}).
  set (s1 := handleMouseDown canvasRef s (x p0) (y p0)).
  assert (Hs1 : dragging i offset s1 /\ strokes s1 = strokes s
                /\ isDrawing s1 = isDrawing s
                /\ currentStroke s1 = currentStroke s
                /\ fillColor s1 = fillColor s).
  { subst s1. unfold handleMouseDown. rewrite Hfound, Hstroke.
    repeat split. }
  destruct Hs1 as (Hdrag1 & Hstrokes1 & Hdraw1 & Hbuf1 & Hfill1).
  set (moves := map (fun q => (x q, y q)) qs).
  set (s2 := dragMoves canvasRef moves s1).
  destruct (dragMoves_spec canvasRef i offset moves s1 Hdrag1)
    as [(Hd2 & Hi2 & Ho2) Hstrokes2].
  fold s2 in Hd2, Hi2, Ho2, Hstrokes2.
  assert (Hkept : isDrawing s2 = isDrawing s1
                  /\ currentStroke s2 = currentStroke s1
                  /\ fillColor s2 = fillColor s1).
  { apply (dragMoves_keeps canvasRef i offset moves s1 Hdrag1). }
  destruct Hkept as (Hdraw2 & Hbuf2 & Hfill2).
  assert (Hfinal :
    run canvasRef (MouseDown (x p0) (y p0) :: mouseMoves qs ++ [MouseUp]) s
    = handleMouseUp s2).
  { rewrite run_cons, run_app, run_mouseMoves_dragMoves. reflexivity. }
  assert (Hup : handleMouseUp s2
                = setDragOffset None
                    (setDraggedStrokeIndex None (setIsDragging false s2))).
  { unfold handleMouseUp. rewrite Hd2. reflexivity. }
  assert (Hlist :
    strokes s2
    = match last qs with
      | None => strokes s
      | Some q =>
          <[i := withPosition
                   {| x := x q - (x p0 - x (position stroke));
                      y := y q - (y p0 - y (position stroke)) |} stroke]>
            (strokes s)
      end).
  { rewrite Hstrokes2. subst moves.
    change (map ?f ?l) with (f <$> l). rewrite fmap_last.
    destruct (last qs) as [q |]; simpl; [| exact Hstrokes1].
    rewrite Hstrokes1, (repositionStroke_insert i _ (strokes s) stroke Hstroke).
    reflexivity. }
  cbv zeta. rewrite Hfinal, Hup. cbn [isDragging draggedStrokeIndex dragOffset
    isDrawing currentStroke fillColor strokes setDragOffset
    setDraggedStrokeIndex setIsDragging].
  split; [auto |]. split; [repeat split; congruence |].
  exact Hlist.
Qed.

Lemma drag_session_witness :
  let square := {| points := [{| x := 0; y := 0 |}; {| x := 10; y := 0 |};
                              {| x := 10; y := 10 |}; {| x := 0; y := 10 |}];
                   color := str "#cdecde"; position := {| x := 2; y := 2 |} |} in
  let s := setStrokes (fun _ => [square]) initial in
  strokes (run (Some sample_canvas)
               [MouseDown 5 6; MouseMove 30 40; MouseMove 7 9; MouseUp] s)
  = [{| points := points square; color := color square;
        position := {| x := 4; y := 5 |} |}]
  /\ strokes (run (Some sample_canvas) [MouseDown 5 6; MouseUp] s)
     = strokes s.
Proof.
  intros square s. split.
  - destruct (drag_session (Some sample_canvas) s {| x := 5; y := 6 |}
                [{| x := 30; y := 40 |}; {| x := 7; y := 9 |}] 0%nat square
                eq_refl eq_refl) as (_ & _ & H).
    exact H.
  - destruct (drag_session (Some sample_canvas) s {| x := 5; y := 6 |}
                [] 0%nat square eq_refl eq_refl) as (_ & _ & H).
    exact H.
Defined.
